(** * BigInt4096: fixed-width 4096-bit unsigned arithmetic, modExp, isPrime

    Shallow embedding of [src/BigInt4096.hpp].  A [BigInt4096] is the
    [std::array<uint64_t, 64>] member [data], least-significant word first;
    every [uint64_t] and [__uint128_t] operation of the source is written
    on [Z] with its wrap-around spelled out.

    The command line front end and the three tasks of [src/objectPrime.cpp]
    follow the class: the option parser over the results of [getopt_long],
    and the loops of the tasks with the steady clock given as a function. *)

From Stdlib Require Import ZArith Zpow_facts Znumtheory Lia List Ascii String Bool.
From Stdlib Require Import Zmod.ZmodInv.
From stdpp Require Import base list.
Import ListNotations.
Local Open Scope Z_scope.

(** ** Machine integers *)

(** [(uint64_t) x] *)
Definition u64 (x : Z) : Z := x mod 2 ^ 64.
(** [(__uint128_t) x] *)
Definition u128 (x : Z) : Z := x mod 2 ^ 128.

(** ** Outcomes of a call

    [Throw] is a C++ exception leaving the function, [Undefined] is an
    out-of-bounds read of a built-in array, [OutOfFuel] is the embedding's
    bound on a [while] loop being exhausted (shown unreachable below). *)

Inductive exception : Type :=
| runtime_error (what : string).

Inductive outcome (A : Type) : Type :=
| Ok (a : A)
| Throw (e : exception)
| Undefined
| OutOfFuel.
Arguments Ok {A} a.
Arguments Throw {A} e.
Arguments Undefined {A}.
Arguments OutOfFuel {A}.

Definition bind {A B : Type} (m : outcome A) (k : A -> outcome B) : outcome B :=
  match m with
  | Ok a => k a
  | Throw e => Throw e
  | Undefined => Undefined
  | OutOfFuel => OutOfFuel
  end.

Notation "'let!' x ':=' m 'in' k" := (bind m (fun x => k))
  (at level 10, x name, m at level 200, k at level 200,
   format "'[' 'let!'  x  ':='  m  'in'  '/' k ']'").
Notation "'let!' ' p ':=' m 'in' k" := (bind m (fun x => match x with p => k end))
  (at level 10, p pattern, m at level 200, k at level 200,
   format "'[' 'let!'  ' p  ':='  m  'in'  '/' k ']'").

(** ** Loops *)

(** [for (size_t i = i0; i < i0 + n; ++i) s = body i s;] *)
Fixpoint for_up {St : Type} (n i : nat) (body : nat -> St -> St) (s : St) : St :=
  match n with
  | O => s
  | S n' => for_up n' (S i) body (body i s)
  end.

(** [for (int i = n - 1; i >= 0; --i) s = body i s;] *)
Fixpoint for_down {St : Type} (n : nat) (body : nat -> St -> St) (s : St) : St :=
  match n with
  | O => s
  | S i => for_down i body (body i s)
  end.

(** ** The class *)

Definition NUM_WORDS : nat := 64.
Definition NUM_BITS : nat := NUM_WORDS * 64.

Abbreviation BigInt4096 := (list Z) (only parsing).

(** [data[i]] *)
Definition word (a : BigInt4096) (i : nat) : Z := nth i a 0.
Notation "a .[ i ]" := (word a i) (at level 1, left associativity, format "a .[ i ]").

(** [data.fill(0)] *)
Definition zero : BigInt4096 := replicate NUM_WORDS 0.

(** [BigInt4096(uint64_t value)] *)
Definition of_u64 (value : Z) : BigInt4096 := <[0%nat := u64 value]> zero.

(** [operator+] *)
Definition add (a rhs : BigInt4096) : BigInt4096 :=
  fst (for_up NUM_WORDS 0 (fun i '(res, carry) =>
         let sum := u128 (u128 (a.[i] + rhs.[i]) + carry) in
         (<[i := u64 sum]> res, u64 (Z.shiftr sum 64)))
       (zero, 0)).

(** [operator-] *)
Definition sub (a rhs : BigInt4096) : BigInt4096 :=
  fst (for_up NUM_WORDS 0 (fun i '(res, borrow) =>
         let sub := u128 (u128 (a.[i] - rhs.[i]) - borrow) in
         (<[i := u64 sub]> res, u64 (Z.land (Z.shiftr sub 127) 1)))
       (zero, 0)).

(** [operator*]: the inner loop over [j] for word [i] of the left operand;
    the carry left when [i + j] reaches [NUM_WORDS] is dropped *)
Definition mul_row (a rhs : BigInt4096) (i : nat) (res : BigInt4096) : BigInt4096 :=
  fst (for_up (NUM_WORDS - i) 0 (fun j '(res, carry) =>
         let mul := u128 (u128 (u128 (a.[i] * rhs.[j]) + res.[i + j]) + carry) in
         (<[(i + j)%nat := u64 mul]> res, u64 (Z.shiftr mul 64)))
       (res, 0)).

Definition mul (a rhs : BigInt4096) : BigInt4096 :=
  for_up NUM_WORDS 0 (fun i res =>
    if a.[i] =? 0 then res else mul_row a rhs i res) zero.

(** [operator<<(size_t shift)] *)
Definition shl (a : BigInt4096) (shift : Z) : BigInt4096 :=
  let wordShift := Z.to_nat (shift / 64) in
  let bitShift := shift mod 64 in
  for_down NUM_WORDS (fun i res =>
    if (i <? wordShift)%nat then res
    else
      let lower := u64 (Z.shiftl a.[i - wordShift] bitShift) in
      let upper :=
        if negb (bitShift =? 0) && (wordShift + 1 <=? i)%nat
        then Z.shiftr a.[i - wordShift - 1] (64 - bitShift)
        else 0 in
      <[i := Z.lor lower upper]> res) zero.

(** [operator>>(size_t shift)] *)
Definition shr (a : BigInt4096) (shift : Z) : BigInt4096 :=
  let wordShift := Z.to_nat (shift / 64) in
  let bitShift := shift mod 64 in
  for_up NUM_WORDS 0 (fun i res =>
    if (NUM_WORDS <=? i + wordShift)%nat then res
    else
      let upper := Z.shiftr a.[i + wordShift] bitShift in
      let lower :=
        if negb (bitShift =? 0) && (i + wordShift + 1 <? NUM_WORDS)%nat
        then u64 (Z.shiftl a.[i + wordShift + 1] (64 - bitShift))
        else 0 in
      <[i := Z.lor upper lower]> res) zero.

(** [operator==]: [data == rhs.data] *)
Fixpoint eqb (a rhs : BigInt4096) : bool :=
  match a, rhs with
  | [], [] => true
  | x :: a', y :: rhs' => (x =? y) && eqb a' rhs'
  | _, _ => false
  end.

(** [operator!=] *)
Definition neqb (a rhs : BigInt4096) : bool := negb (eqb a rhs).

(** [operator<]: the loop over [i = n - 1 .. 0] with its two early returns *)
Fixpoint lt_loop (n : nat) (a rhs : BigInt4096) : bool :=
  match n with
  | O => false
  | S i =>
      if a.[i] <? rhs.[i] then true
      else if a.[i] >? rhs.[i] then false
      else lt_loop i a rhs
  end.

Definition lt (a rhs : BigInt4096) : bool := lt_loop NUM_WORDS a rhs.
(** [operator>], [operator<=], [operator>=] *)
Definition gt (a rhs : BigInt4096) : bool := lt rhs a.
Definition le (a rhs : BigInt4096) : bool := negb (lt rhs a).
Definition ge (a rhs : BigInt4096) : bool := negb (lt a rhs).

(** The first two statements of the loop body of [operator/] and
    [operator%]: [current] is shifted left by one bit and bit [i] of the
    dividend is put into its lowest bit. *)
Definition next_current (dividend current : BigInt4096) (i : nat) : BigInt4096 :=
  let current := shl current 1 in
  <[0%nat := Z.lor current.[0]
               (Z.land (Z.shiftr dividend.[i / 64] (Z.of_nat (i mod 64))) 1)]> current.

(** [operator/]: the loop state is [(quotient, current)] *)
Definition div (a rhs : BigInt4096) : outcome BigInt4096 :=
  if eqb rhs (of_u64 0) then Throw (runtime_error "Modulo by zero")
  else
    let dividend := a in
    let divisor := rhs in
    Ok (fst (for_down NUM_BITS (fun i '(quotient, current) =>
           let current := next_current dividend current i in
           if ge current divisor
           then (<[(i / 64)%nat := Z.lor quotient.[i / 64]
                                     (u64 (Z.shiftl 1 (Z.of_nat (i mod 64))))]> quotient,
                 sub current divisor)
           else (quotient, current))
         (zero, zero))).

(** [operator%]: the loop state is [current] *)
Definition rem (a rhs : BigInt4096) : outcome BigInt4096 :=
  if eqb rhs (of_u64 0) then Throw (runtime_error "Modulo by zero")
  else
    let dividend := a in
    let divisor := rhs in
    Ok (for_down NUM_BITS (fun i current =>
          let current := next_current dividend current i in
          if ge current divisor then sub current divisor else current)
        zero).

(** [BigInt4096(const std::string& decimal)]: the body of the loop over the
    characters, [base] being [BigInt4096 base(10)] *)
Definition from_string_step (this : BigInt4096) (c : ascii) : BigInt4096 :=
  let base := of_u64 10 in
  let code := Z.of_N (N_of_ascii c) in
  if (code <? 48) || (code >? 57) then this
  else add (mul this base) (of_u64 (code - 48)).

Definition from_string (decimal : list ascii) : BigInt4096 :=
  fold_left from_string_step decimal zero.

(** ['0' + digit.data[0]], a [uint64_t], appended to a [std::string] as a
    [char] *)
Definition digit_char (d : Z) : ascii := ascii_of_N (Z.to_N (u64 (48 + d) mod 256)).

(** [operator<<(std::ostream&, const BigInt4096&)]: the [while] loop.
    [out] is the string built so far. *)
Fixpoint render_loop (fuel : nat) (temp : BigInt4096) (out : list ascii)
  : outcome (list ascii) :=
  match fuel with
  | O => OutOfFuel
  | S fuel' =>
      if neqb temp (of_u64 0) then
        let! digit := rem temp (of_u64 10) in
        let out := out ++ [digit_char digit.[0]] in
        let! temp := div temp (of_u64 10) in
        render_loop fuel' temp out
      else Ok out
  end.

(** The characters written to the stream. *)
Definition render (bi : BigInt4096) : outcome (list ascii) :=
  if eqb bi (of_u64 0) then Ok ["0"%char]
  else
    let! out := render_loop (S NUM_BITS) bi [] in
    Ok (rev out).

(** [operator bool] *)
Definition to_bool (a : BigInt4096) : bool := existsb (fun w => negb (w =? 0)) a.

(** [modExp]: the [while (exp != 0)] loop *)
Fixpoint modExp_loop (fuel : nat) (result base exp mod_ : BigInt4096)
  : outcome BigInt4096 :=
  match fuel with
  | O => OutOfFuel
  | S fuel' =>
      if neqb exp (of_u64 0) then
        let! result := (if negb (Z.land exp.[0] 1 =? 0)
                        then rem (mul result base) mod_
                        else Ok result) in
        let exp := shr exp 1 in
        let! base := rem (mul base base) mod_ in
        modExp_loop fuel' result base exp mod_
      else Ok result
  end.

Definition modExp (base exp mod_ : BigInt4096) : outcome BigInt4096 :=
  if eqb mod_ (of_u64 0) then Throw (runtime_error "modulo by zero")
  else
    let result := of_u64 1 in
    let! base := rem base mod_ in
    modExp_loop (S NUM_BITS) result base exp mod_.

(** [isPrime]: [while ((d.data[0] & 1) == 0) { d = d >> 1; ++r; }];
    the [int r] stays below 4096 *)
Fixpoint halve_loop (fuel : nat) (d : BigInt4096) (r : Z) : outcome (BigInt4096 * Z) :=
  match fuel with
  | O => OutOfFuel
  | S fuel' =>
      if Z.land d.[0] 1 =? 0 then halve_loop fuel' (shr d 1) (r + 1)
      else Ok (d, r)
  end.

(** [const int basePrimes[5]] *)
Definition basePrimes : list Z := [2; 3; 5; 7; 11].

(** [for (int j = 1; j < r; ++j)] with [k] iterations left; the result is
    [passed]. *)
Fixpoint square_loop (k : nat) (x n : BigInt4096) : outcome bool :=
  match k with
  | O => Ok false
  | S k' =>
      let! x := modExp x (of_u64 2) n in
      if eqb x (sub n (of_u64 1)) then Ok true
      else square_loop k' x n
  end.

(** [for (int i = 0; i < rounds; ++i)] with [k] iterations left *)
Fixpoint witness_loop (k i : nat) (n d : BigInt4096) (r : Z) : outcome bool :=
  match k with
  | O => Ok true
  | S k' =>
      match basePrimes !! i with
      | None => Undefined
      | Some p =>
          let a := of_u64 p in
          let! x := modExp a d n in
          if eqb x (of_u64 1) || eqb x (sub n (of_u64 1))
          then witness_loop k' (S i) n d r
          else
            let! passed := square_loop (Z.to_nat (r - 1)) x n in
            if negb passed then Ok false
            else witness_loop k' (S i) n d r
      end
  end.

Definition isPrime (n : BigInt4096) (rounds : Z) : outcome bool :=
  if le n (of_u64 1) then Ok false
  else if eqb n (of_u64 2) || eqb n (of_u64 3) then Ok true
  else if Z.land n.[0] 1 =? 0 then Ok false
  else
    let! '(d, r) := halve_loop NUM_BITS (sub n (of_u64 1)) 0 in
    witness_loop (Z.to_nat rounds) 0 n d r.

(** [operator&] *)
Definition band (a rhs : BigInt4096) : BigInt4096 :=
  for_up NUM_WORDS 0 (fun i res => <[i := Z.land a.[i] rhs.[i]]> res) zero.

(** [operator|] *)
Definition bor (a rhs : BigInt4096) : BigInt4096 :=
  for_up NUM_WORDS 0 (fun i res => <[i := Z.lor a.[i] rhs.[i]]> res) zero.

(** [operator^] *)
Definition bxor (a rhs : BigInt4096) : BigInt4096 :=
  for_up NUM_WORDS 0 (fun i res => <[i := Z.lxor a.[i] rhs.[i]]> res) zero.

(** [operator~]: [~data[i]] on a [uint64_t] *)
Definition bnot (a : BigInt4096) : BigInt4096 :=
  for_up NUM_WORDS 0 (fun i res => <[i := u64 (Z.lnot a.[i])]> res) zero.

(** A value of the class: 64 words, each a [uint64_t]. *)
Definition wf (a : BigInt4096) : Prop :=
  length a = NUM_WORDS /\ Forall (fun w => 0 <= w < 2 ^ 64) a.

(** The number a word sequence stands for: [sum word[i] * 2^(64 i)]. *)
Fixpoint value (a : list Z) : Z :=
  match a with
  | [] => 0
  | w :: a' => w + 2 ^ 64 * value a'
  end.

(** The value of the class holding [x mod 2^4096]. *)
Definition of_Z (x : Z) : BigInt4096 :=
  map (fun i => (x / 2 ^ (64 * Z.of_nat i)) mod 2 ^ 64) (seq 0 NUM_WORDS).

(** ** objectPrime.cpp: reading the command line *)

(** [std::isspace] in the "C" locale, which [std::istream] uses here: space,
    and the control characters 9 to 13. *)
Definition isspace (c : ascii) : bool :=
  let code := Z.of_N (N_of_ascii c) in (code =? 32) || ((9 <=? code) && (code <=? 13)).

(** [is >> str], the white space before the token being skipped *)
Fixpoint skip_space (s : list ascii) : list ascii :=
  match s with
  | c :: s' => if isspace c then skip_space s' else s
  | [] => []
  end.

(** [is >> str]: the characters taken up to the next white space, and the
    characters left in the stream *)
Fixpoint take_token (s : list ascii) : list ascii * list ascii :=
  match s with
  | c :: s' =>
      if isspace c then ([], s)
      else let '(tok, rest) := take_token s' in (c :: tok, rest)
  | [] => ([], [])
  end.

(** [operator>>(std::istream&, BigInt4096&)] on a stream holding [s]: the
    value stored in [bi], then [is.fail()] and [is.eof()].  When only white
    space is left the extraction fails at the end of the stream and [str]
    stays empty; otherwise reading the token sets [eofbit] exactly when the
    token runs to the end of the stream. *)
Definition read_BigInt4096 (s : list ascii) : BigInt4096 * bool * bool :=
  match skip_space s with
  | [] => (from_string [], true, true)
  | c :: s' =>
      let '(str, rest) := take_token (c :: s') in
      (from_string str, false, match rest with [] => true | _ => false end)
  end.

(** [TimedTaskApp::parse_BigInt4096]: the result and the new [out] *)
Definition parse_BigInt4096 (arg : list ascii) : bool * BigInt4096 :=
  let '(out, fail, eof) := read_BigInt4096 arg in
  (negb fail && eof, out).

(** The data members of [TimedTaskApp] *)
Record TimedTaskApp : Type := {
  has_n : bool;
  has_le : bool;
  has_all : bool;
  show_runtime : bool;
  n_value : list Z;
  le_value : list Z;
  all_value : list Z;
  timeout : Z
}.

(** Their default member initializers *)
Definition TimedTaskApp_new : TimedTaskApp :=
  {| has_n := false; has_le := false; has_all := false; show_runtime := false;
     n_value := of_u64 0; le_value := of_u64 0; all_value := of_u64 0; timeout := 0 |}.

(** Assignments to one member *)
Definition set_has_n (b : bool) (app : TimedTaskApp) : TimedTaskApp :=
  {| has_n := b; has_le := has_le app; has_all := has_all app;
     show_runtime := show_runtime app; n_value := n_value app;
     le_value := le_value app; all_value := all_value app; timeout := timeout app |}.
Definition set_has_le (b : bool) (app : TimedTaskApp) : TimedTaskApp :=
  {| has_n := has_n app; has_le := b; has_all := has_all app;
     show_runtime := show_runtime app; n_value := n_value app;
     le_value := le_value app; all_value := all_value app; timeout := timeout app |}.
Definition set_has_all (b : bool) (app : TimedTaskApp) : TimedTaskApp :=
  {| has_n := has_n app; has_le := has_le app; has_all := b;
     show_runtime := show_runtime app; n_value := n_value app;
     le_value := le_value app; all_value := all_value app; timeout := timeout app |}.
Definition set_show_runtime (b : bool) (app : TimedTaskApp) : TimedTaskApp :=
  {| has_n := has_n app; has_le := has_le app; has_all := has_all app;
     show_runtime := b; n_value := n_value app;
     le_value := le_value app; all_value := all_value app; timeout := timeout app |}.
Definition set_n_value (v : list Z) (app : TimedTaskApp) : TimedTaskApp :=
  {| has_n := has_n app; has_le := has_le app; has_all := has_all app;
     show_runtime := show_runtime app; n_value := v;
     le_value := le_value app; all_value := all_value app; timeout := timeout app |}.
Definition set_le_value (v : list Z) (app : TimedTaskApp) : TimedTaskApp :=
  {| has_n := has_n app; has_le := has_le app; has_all := has_all app;
     show_runtime := show_runtime app; n_value := n_value app;
     le_value := v; all_value := all_value app; timeout := timeout app |}.
Definition set_all_value (v : list Z) (app : TimedTaskApp) : TimedTaskApp :=
  {| has_n := has_n app; has_le := has_le app; has_all := has_all app;
     show_runtime := show_runtime app; n_value := n_value app;
     le_value := le_value app; all_value := v; timeout := timeout app |}.

(** [TimedTaskApp::parse_arguments]: the result and the object afterwards.
    [opts] holds, for every call of [getopt_long] before the one that
    returns -1, the value it returns and [optarg].  The [switch] has the
    cases ['n'] (110), 1000, 1001 and 1002.  The statements that assign
    [timeout] stand after the [break] of case ['n'] and before the next
    [case] label, so no path reaches them, and ['t'] (116) is handled by
    [default]. *)
Fixpoint parse_arguments (opts : list (Z * list ascii)) (app : TimedTaskApp)
  : bool * TimedTaskApp :=
  match opts with
  | [] => (Z.b2z (has_n app) + Z.b2z (has_le app) + Z.b2z (has_all app) =? 1, app)
  | (opt, optarg) :: opts' =>
      if opt =? 110 then
        let '(ok, out) := parse_BigInt4096 optarg in
        let app := set_n_value out app in
        if negb ok then (false, app)
        else parse_arguments opts' (set_has_n true app)
      else if opt =? 1000 then
        let '(ok, out) := parse_BigInt4096 optarg in
        let app := set_le_value out app in
        if negb ok then (false, app)
        else parse_arguments opts' (set_has_le true app)
      else if opt =? 1001 then
        parse_arguments opts' (set_show_runtime true app)
      else if opt =? 1002 then
        let '(ok, out) := parse_BigInt4096 optarg in
        let app := set_all_value out app in
        if negb ok then (false, app)
        else parse_arguments opts' (set_has_all true app)
      else (false, app)
  end.

(** ** objectPrime.cpp: the tasks *)

Inductive Mode : Type := NthPrime | LessThan | AllUpTo.

(** The arguments of the constructor of [WorkTask] *)
Record WorkTask : Type := {
  task_mode : Mode;
  task_value : list Z;
  task_timeout : Z;
  task_show_runtime : bool
}.

(** [TimedTaskApp::run] up to the call of [exec]: the exit status when
    [usage] ends the process, or the task that is run. *)
Definition run (opts : list (Z * list ascii)) : Z + WorkTask :=
  let '(ok, app) := parse_arguments opts TimedTaskApp_new in
  if negb ok then inl 1
  else
    inr {| task_mode := if has_n app then NthPrime
                        else if has_le app then LessThan else AllUpTo;
           task_value := if has_n app then n_value app
                         else if has_le app then le_value app else all_value app;
           task_timeout := timeout app;
           task_show_runtime := show_runtime app |}.

(** [WorkTask::is_prime] *)
Definition is_prime (num : BigInt4096) : outcome bool := isPrime num 5.

(** The test made after each candidate, [timeout > 0] and then
    [elapsed >= timeout]; [elapsed k] is the number of whole seconds between
    [start] and the clock reading of iteration [k]. *)
Definition timed_out (timeout : Z) (elapsed : nat -> Z) (k : nat) : bool :=
  (timeout >? 0) && (elapsed k >=? timeout).

(** [WorkTask::compute_nth_prime]: the [while (true)] loop, [k] counting
    its iterations *)
Fixpoint nth_prime_loop (fuel : nat) (timeout : Z) (elapsed : nat -> Z) (k : nat)
    (n count candidate : BigInt4096) : outcome BigInt4096 :=
  match fuel with
  | O => OutOfFuel
  | S fuel' =>
      let! p := is_prime candidate in
      let count := if p then add count (of_u64 1) else count in
      if p && eqb count n then Ok candidate
      else if timed_out timeout elapsed k then Ok (of_u64 0)
      else nth_prime_loop fuel' timeout elapsed (S k) n count (add candidate (of_u64 1))
  end.

Definition compute_nth_prime (fuel : nat) (timeout : Z) (elapsed : nat -> Z)
    (n : BigInt4096) : outcome BigInt4096 :=
  nth_prime_loop fuel timeout elapsed 0 n (of_u64 0) (of_u64 2).

(** [WorkTask::compute_prime_less_than]: the [for] loop from [n] downwards *)
Fixpoint prime_less_than_loop (fuel : nat) (timeout : Z) (elapsed : nat -> Z) (k : nat)
    (i : BigInt4096) : outcome BigInt4096 :=
  match fuel with
  | O => OutOfFuel
  | S fuel' =>
      if ge i (of_u64 2) then
        let! p := is_prime i in
        if p then Ok i
        else if timed_out timeout elapsed k then Ok (of_u64 0)
        else prime_less_than_loop fuel' timeout elapsed (S k) (sub i (of_u64 1))
      else Ok (of_u64 0)
  end.

Definition compute_prime_less_than (fuel : nat) (timeout : Z) (elapsed : nat -> Z)
    (n : BigInt4096) : outcome BigInt4096 :=
  if lt n (of_u64 2) then Ok (of_u64 0)
  else prime_less_than_loop fuel timeout elapsed 0 n.

(** [WorkTask::compute_all_primes_up_to]: the member [primes] after the
    [for] loop from 2 upwards *)
Fixpoint all_primes_loop (fuel : nat) (timeout : Z) (elapsed : nat -> Z) (k : nat)
    (n i : BigInt4096) (primes : list BigInt4096) : outcome (list BigInt4096) :=
  match fuel with
  | O => OutOfFuel
  | S fuel' =>
      if le i n then
        let! p := is_prime i in
        let primes := if p then primes ++ [i] else primes in
        if timed_out timeout elapsed k then Ok primes
        else all_primes_loop fuel' timeout elapsed (S k) n (add i (of_u64 1)) primes
      else Ok primes
  end.

Definition compute_all_primes_up_to (fuel : nat) (timeout : Z) (elapsed : nat -> Z)
    (n : BigInt4096) (primes : list BigInt4096) : outcome (list BigInt4096) :=
  all_primes_loop fuel timeout elapsed 0 n (of_u64 2) primes.

(** * Definitions used in the proofs *)

(** The size of the value space, its half and its square root. *)
Definition MODULUS : Z := 2 ^ 4096.
Definition HALF_MODULUS : Z := 2 ^ 4095.
Definition SQRT_MODULUS : Z := 2 ^ 2048.

(** Every word is a [uint64_t]. *)
Definition words_ok (a : list Z) : Prop := Forall (fun w => 0 <= w < 2 ^ 64) a.

(** The word written at index [k] by [operator<<]. *)
Definition shl_word (a : list Z) (ws : nat) (bs : Z) (k : nat) : Z :=
  if (k <? ws)%nat then 0
  else Z.lor (u64 (Z.shiftl a.[k - ws] bs))
             (if negb (bs =? 0) && (ws + 1 <=? k)%nat
              then Z.shiftr a.[k - ws - 1] (64 - bs) else 0).

(** The word written at index [k] by [operator>>]. *)
Definition shr_word (a : list Z) (ws : nat) (bs : Z) (k : nat) : Z :=
  if (NUM_WORDS <=? k + ws)%nat then 0
  else Z.lor (Z.shiftr a.[k + ws] bs)
             (if negb (bs =? 0) && (k + ws + 1 <? NUM_WORDS)%nat
              then u64 (Z.shiftl a.[k + ws + 1] (64 - bs)) else 0).

(** ** modExp and isPrime on values

    The same control flow as [modExp] and [isPrime], with every
    [BigInt4096] replaced by the number it stands for and every operator by
    what it was shown to compute.  Products are still reduced modulo
    [MODULUS] before the remainder is taken, as [operator*] does. *)

Fixpoint modExp_loop_Z (fuel : nat) (result base exp m : Z) : outcome Z :=
  match fuel with
  | O => OutOfFuel
  | S fuel' =>
      if negb (exp =? 0) then
        let result := if Z.odd exp then ((result * base) mod MODULUS) mod m else result in
        modExp_loop_Z fuel' result (((base * base) mod MODULUS) mod m) (exp / 2) m
      else Ok result
  end.

Definition modExp_Z (base exp m : Z) : outcome Z :=
  if m =? 0 then Throw (runtime_error "modulo by zero")
  else modExp_loop_Z (S NUM_BITS) 1 (base mod m) exp m.

Fixpoint halve_loop_Z (fuel : nat) (d r : Z) : outcome (Z * Z) :=
  match fuel with
  | O => OutOfFuel
  | S fuel' => if Z.odd d then Ok (d, r) else halve_loop_Z fuel' (d / 2) (r + 1)
  end.

Fixpoint square_loop_Z (k : nat) (x n : Z) : outcome bool :=
  match k with
  | O => Ok false
  | S k' =>
      let! x := modExp_Z x 2 n in
      if x =? (n - 1) mod MODULUS then Ok true else square_loop_Z k' x n
  end.

Fixpoint witness_loop_Z (k i : nat) (n d r : Z) : outcome bool :=
  match k with
  | O => Ok true
  | S k' =>
      match basePrimes !! i with
      | None => Undefined
      | Some p =>
          let! x := modExp_Z (u64 p) d n in
          if (x =? 1) || (x =? (n - 1) mod MODULUS)
          then witness_loop_Z k' (S i) n d r
          else
            let! passed := square_loop_Z (Z.to_nat (r - 1)) x n in
            if negb passed then Ok false
            else witness_loop_Z k' (S i) n d r
      end
  end.

Definition isPrime_Z (n rounds : Z) : outcome bool :=
  if n <=? 1 then Ok false
  else if (n =? 2) || (n =? 3) then Ok true
  else if negb (Z.odd n) then Ok false
  else
    let! '(d, r) := halve_loop_Z NUM_BITS ((n - 1) mod MODULUS) 0 in
    witness_loop_Z (Z.to_nat rounds) 0 n d r.

(** [o] returns a well-formed value standing for what [oz] returns, or both
    fail in the same way. *)
Definition refines (o : outcome (list Z)) (oz : outcome Z) : Prop :=
  match o, oz with
  | Ok a, Ok z => wf a /\ value a = z
  | Throw e, Throw e' => e = e'
  | Undefined, Undefined => True
  | OutOfFuel, OutOfFuel => True
  | _, _ => False
  end.

(** [2^2048] and [2^4096 - 1] as values of the class. *)
Definition two_pow_2048 : list Z := <[32%nat := 1]> zero.
Definition all_ones : list Z := replicate NUM_WORDS (2 ^ 64 - 1).

(** The test of the constructor's loop: ['0' <= c && c <= '9']. *)
Definition is_digit (c : ascii) : bool :=
  let code := Z.of_N (N_of_ascii c) in negb ((code <? 48) || (code >? 57)).

(** The number written by the decimal digits of a text, every other
    character left out. *)
Definition decimal_value (s : list ascii) : Z :=
  fold_left (fun v c => if is_digit c then v * 10 + (Z.of_N (N_of_ascii c) - 48) else v) s 0.

(** No leading zero digit. *)
Definition no_leading_zero (s : list ascii) : Prop :=
  match s with
  | c :: _ => c <> "0"%char
  | [] => True
  end.

(** [n] is a strong probable prime to base [a], where [n - 1 = d * 2^r]:
    the condition one round of the Miller-Rabin test checks. *)
Definition strong_probable_prime (n d r a : Z) : Prop :=
  a ^ d mod n = 1 \/ exists j, 0 <= j < r /\ a ^ (d * 2 ^ j) mod n = n - 1.

(** An option of the command line was given, and the argument of its last
    occurrence. *)
Definition given (code : Z) (opts : list (Z * list ascii)) : bool :=
  existsb (fun o => fst o =? code) opts.

Fixpoint last_given (code : Z) (opts : list (Z * list ascii)) : list ascii :=
  match opts with
  | [] => []
  | o :: opts' =>
      if given code opts' then last_given code opts'
      else if fst o =? code then snd o else []
  end.

(** An option [parse_arguments] goes past: [--rt], or one of [-n], [--le]
    and [--all] with an argument that [parse_BigInt4096] accepts. *)
Definition accepted_option (o : Z * list ascii) : bool :=
  (fst o =? 1001) ||
  (((fst o =? 110) || (fst o =? 1000) || (fst o =? 1002)) && fst (parse_BigInt4096 (snd o))).

(** The candidates of the loops that count upwards, 2, 3, 4, ..., whether
    [is_prime] accepts a value, and the accepted ones among the first [m]
    candidates. *)
Definition candidate (k : nat) : list Z := of_Z (2 + Z.of_nat k).

Definition accepts (i : list Z) : bool :=
  match is_prime i with
  | Ok true => true
  | _ => false
  end.

Definition accepted_below (m : nat) : list (list Z) :=
  List.filter accepts (map candidate (seq 0 m)).

(** * Word sequences and their values *)

Lemma MODULUS_pos : 0 < MODULUS.
Proof. apply Z.pow_pos_nonneg; [reflexivity | discriminate]. Qed.

Lemma HALF_MODULUS_pos : 0 < HALF_MODULUS.
Proof. apply Z.pow_pos_nonneg; [reflexivity | discriminate]. Qed.

Lemma MODULUS_half : MODULUS = 2 * HALF_MODULUS.
Proof.
  unfold MODULUS, HALF_MODULUS. change 4096 with (Z.succ 4095).
  apply Z.pow_succ_r. discriminate.
Qed.

Lemma MODULUS_sqrt : MODULUS = SQRT_MODULUS * SQRT_MODULUS.
Proof.
  unfold MODULUS, SQRT_MODULUS. change 4096 with (2048 + 2048).
  apply Z.pow_add_r; discriminate.
Qed.

Lemma MODULUS_words : 2 ^ (64 * Z.of_nat NUM_WORDS) = MODULUS.
Proof. reflexivity. Qed.

Lemma MODULUS_bits : 2 ^ Z.of_nat NUM_BITS = MODULUS.
Proof. reflexivity. Qed.

Lemma wf_length a : wf a -> length a = NUM_WORDS.
Proof. now intros [H _]. Qed.

Lemma wf_words a : wf a -> words_ok a.
Proof. now intros [_ H]. Qed.

Lemma pow64_pos : 0 < 2 ^ 64.
Proof. reflexivity. Qed.

Lemma pow64_S (i : nat) : 2 ^ (64 * Z.of_nat (S i)) = 2 ^ 64 * 2 ^ (64 * Z.of_nat i).
Proof. rewrite <- Z.pow_add_r by lia. f_equal. lia. Qed.

Lemma pow64_gt0 (i : nat) : 0 < 2 ^ (64 * Z.of_nat i).
Proof. apply Z.pow_pos_nonneg; lia. Qed.

Lemma value_app a b :
  value (a ++ b) = value a + 2 ^ (64 * Z.of_nat (length a)) * value b.
Proof.
  induction a as [|w a IH]; cbn [app value length].
  - change (2 ^ (64 * Z.of_nat 0)) with 1. lia.
  - rewrite IH, pow64_S. ring.
Qed.

Lemma value_bound a :
  words_ok a -> 0 <= value a < 2 ^ (64 * Z.of_nat (length a)).
Proof.
  induction 1 as [|w a Hw _ IH]; cbn [value length].
  - change (2 ^ (64 * Z.of_nat 0)) with 1. lia.
  - rewrite pow64_S. pose proof pow64_pos. nia.
Qed.

Lemma word_nil i : [].[i] = 0.
Proof. unfold word. now destruct i. Qed.

Lemma word_cons_0 w a : (w :: a).[0] = w.
Proof. reflexivity. Qed.

Lemma word_cons_S w a i : (w :: a).[S i] = a.[i].
Proof. reflexivity. Qed.

Lemma word_ge a i : (length a <= i)%nat -> a.[i] = 0.
Proof. intros H. unfold word. now apply nth_overflow. Qed.

Lemma word_range a i : words_ok a -> 0 <= a.[i] < 2 ^ 64.
Proof.
  intros H. revert i. induction H as [|w a Hw _ IH]; intros i.
  - rewrite word_nil. lia.
  - destruct i; [now rewrite word_cons_0 | rewrite word_cons_S; apply IH].
Qed.

Lemma word_lookup a i w : a !! i = Some w -> a.[i] = w.
Proof. unfold word. rewrite nth_lookup. now intros ->. Qed.

Lemma word_insert_eq a i v : (i < length a)%nat -> (<[i := v]> a).[i] = v.
Proof. intros H. apply word_lookup. now apply list_lookup_insert_eq. Qed.

Lemma word_insert_ne a i j v : i <> j -> (<[i := v]> a).[j] = a.[j].
Proof. intros H. unfold word. rewrite !nth_lookup. now rewrite list_lookup_insert_ne. Qed.

Lemma words_ok_insert a i v :
  words_ok a -> 0 <= v < 2 ^ 64 -> words_ok (<[i := v]> a).
Proof. intros Ha Hv. now apply Forall_insert. Qed.

Lemma wf_insert a i v : wf a -> 0 <= v < 2 ^ 64 -> wf (<[i := v]> a).
Proof.
  intros [Hl Ha] Hv. split; [now rewrite length_insert | now apply words_ok_insert].
Qed.

Lemma value_insert a i v :
  (i < length a)%nat ->
  value (<[i := v]> a) = value a + (v - a.[i]) * 2 ^ (64 * Z.of_nat i).
Proof.
  revert i. induction a as [|w a IH]; intros i Hi; cbn [length] in Hi; [lia|].
  destruct i as [|i].
  - cbn [value]. rewrite word_cons_0. change (2 ^ (64 * Z.of_nat 0)) with 1.
    change (<[0%nat := v]> (w :: a)) with (v :: a). cbn [value]. ring.
  - change (<[S i := v]> (w :: a)) with (w :: <[i := v]> a).
    cbn [value]. rewrite word_cons_S, IH, pow64_S by lia. ring.
Qed.

Lemma value_take_S a i :
  value (take (S i) a) = value (take i a) + a.[i] * 2 ^ (64 * Z.of_nat i).
Proof.
  revert i. induction a as [|w a IH]; intros i.
  - rewrite !take_nil, word_nil. cbn. lia.
  - destruct i as [|i].
    + cbn [take firstn value]. rewrite take_0, word_cons_0. cbn [value].
      change (2 ^ (64 * Z.of_nat 0)) with 1. lia.
    + change (take (S (S i)) (w :: a)) with (w :: take (S i) a).
      change (take (S i) (w :: a)) with (w :: take i a).
      cbn [value]. rewrite IH, word_cons_S, pow64_S. ring.
Qed.

Lemma value_take_insert a i v :
  (i < length a)%nat ->
  value (take (S i) (<[i := v]> a)) = value (take i a) + v * 2 ^ (64 * Z.of_nat i).
Proof.
  intros Hi. rewrite value_take_S, take_insert_ge, word_insert_eq by lia. reflexivity.
Qed.

Lemma value_replicate0 n : value (replicate n 0) = 0.
Proof. induction n as [|n IH]; cbn [replicate value]; lia. Qed.

Lemma value_zero : value zero = 0.
Proof. apply value_replicate0. Qed.

Lemma wf_zero : wf zero.
Proof.
  split; [apply length_replicate|].
  apply Forall_replicate. lia.
Qed.

Lemma value_inj a b :
  words_ok a -> words_ok b -> length a = length b -> value a = value b -> a = b.
Proof.
  intros Ha. revert b. induction Ha as [|w a Hw Ha IH]; intros b Hb Hl Hv.
  - destruct b; [reflexivity | discriminate].
  - destruct Hb as [|w' b Hw' Hb]; [discriminate|].
    cbn [value length] in *.
    assert (w = w').
    { assert (w mod 2 ^ 64 = w' mod 2 ^ 64) as E.
      { replace w with (w + 2 ^ 64 * value a - value a * 2 ^ 64) by ring.
        rewrite Hv. replace (w' + 2 ^ 64 * value b - value a * 2 ^ 64)
          with (w' + (value b - value a) * 2 ^ 64) by ring.
        now rewrite Z.mod_add by lia. }
      rewrite !Z.mod_small in E by lia. exact E. }
    subst w'. f_equal. apply IH; [assumption | lia | lia].
Qed.

Lemma wf_value_inj a b : wf a -> wf b -> value a = value b -> a = b.
Proof.
  intros [La Ha] [Lb Hb] Hv. apply value_inj; [assumption | assumption | congruence | assumption].
Qed.

Lemma wf_value_bound a : wf a -> 0 <= value a < MODULUS.
Proof.
  intros [Hl Ha]. pose proof (value_bound a Ha) as H. rewrite Hl, MODULUS_words in H. exact H.
Qed.

Lemma eqb_eq a b : eqb a b = true <-> a = b.
Proof.
  revert b. induction a as [|x a IH]; intros [|y b]; cbn [eqb]; try easy.
  rewrite andb_true_iff, Z.eqb_eq, IH. split; [intros [-> ->]; reflexivity|].
  intros E. now inversion E.
Qed.

Lemma eqb_value a b : wf a -> wf b -> eqb a b = (value a =? value b).
Proof.
  intros Ha Hb. destruct (Z.eqb_spec (value a) (value b)) as [E|E].
  - apply eqb_eq. now apply wf_value_inj.
  - destruct (eqb a b) eqn:Hab; [|reflexivity].
    apply eqb_eq in Hab. now subst.
Qed.

Lemma u64_range x : 0 <= u64 x < 2 ^ 64.
Proof. unfold u64. apply Z.mod_pos_bound. reflexivity. Qed.

Lemma u64_small x : 0 <= x < 2 ^ 64 -> u64 x = x.
Proof. intros H. unfold u64. now apply Z.mod_small. Qed.

Lemma wf_of_u64 v : wf (of_u64 v).
Proof. unfold of_u64. apply wf_insert; [apply wf_zero | apply u64_range]. Qed.

Lemma value_of_u64 v : value (of_u64 v) = u64 v.
Proof.
  unfold of_u64. rewrite value_insert by (cbn; lia).
  rewrite value_zero. change (zero.[0]) with 0.
  change (2 ^ (64 * Z.of_nat 0)) with 1. lia.
Qed.

(** Loop invariants for the two [for] shapes. *)
Lemma for_up_ind {St : Type} (P : nat -> St -> Prop) body :
  forall n i s,
    P i s ->
    (forall k t, (i <= k < i + n)%nat -> P k t -> P (S k) (body k t)) ->
    P (i + n)%nat (for_up n i body s).
Proof.
  induction n as [|n IH]; intros i s H0 Hstep; cbn [for_up].
  - now rewrite Nat.add_0_r.
  - replace (i + S n)%nat with (S i + n)%nat by lia.
    apply IH; [apply Hstep; [lia | assumption]|].
    intros k t Hk. apply Hstep. lia.
Qed.

Lemma for_down_ind {St : Type} (P : nat -> St -> Prop) body :
  forall n s,
    P n s ->
    (forall i t, (i < n)%nat -> P (S i) t -> P i (body i t)) ->
    P 0%nat (for_down n body s).
Proof.
  induction n as [|n IH]; intros s H0 Hstep; cbn [for_down]; [assumption|].
  apply IH; [apply Hstep; [lia | assumption]|].
  intros i t Hi. apply Hstep. lia.
Qed.

(** * Addition, subtraction and multiplication compute modulo [MODULUS] *)

Lemma split_u128 m :
  0 <= m < 2 ^ 128 ->
  u64 m + 2 ^ 64 * u64 (Z.shiftr m 64) = m /\ 0 <= Z.shiftr m 64 < 2 ^ 64.
Proof.
  intros Hm. rewrite Z.shiftr_div_pow2 by lia.
  assert (0 <= m / 2 ^ 64 < 2 ^ 64) as Hq.
  { split; [apply Z.div_pos; lia|]. apply Z.div_lt_upper_bound; [lia|].
    change (2 ^ 64 * 2 ^ 64) with (2 ^ 128). lia. }
  split; [|exact Hq].
  rewrite (u64_small (m / 2 ^ 64)) by exact Hq. unfold u64.
  pose proof (Z.div_mod m (2 ^ 64)). lia.
Qed.

Lemma mod_eq_of_split x r c M :
  0 < M -> 0 <= r < M -> r + c * M = x -> r = x mod M.
Proof.
  intros HM Hr E. subst x. rewrite Z.mod_add by lia. now rewrite Z.mod_small.
Qed.

Lemma take_wf a : wf a -> take NUM_WORDS a = a.
Proof. intros [Hl _]. apply take_ge. lia. Qed.

Lemma add_correct a b :
  wf a -> wf b ->
  wf (add a b) /\ value (add a b) = (value a + value b) mod MODULUS.
Proof.
  intros Ha Hb. unfold add.
  pose (P := fun (i : nat) (s : list Z * Z) =>
    wf (fst s) /\ 0 <= snd s <= 1 /\
    value (take i (fst s)) + snd s * 2 ^ (64 * Z.of_nat i)
    = value (take i a) + value (take i b)).
  match goal with |- context [for_up ?n ?i ?f ?s] =>
    assert (P (0 + NUM_WORDS)%nat (for_up n i f s)) as HP end.
  { apply for_up_ind.
    - refine (conj wf_zero (conj _ _)); cbn [fst snd]; [lia | now rewrite !take_0].
    - intros k [res carry] Hk (Hres & Hc & Hinv); cbn [fst snd] in *.
      pose proof (word_range a k (wf_words _ Ha)) as Hx.
      pose proof (word_range b k (wf_words _ Hb)) as Hy.
      set (x := a.[k]) in *. set (y := b.[k]) in *.
      assert (u128 (u128 (x + y) + carry) = x + y + carry) as Es.
      { unfold u128. rewrite (Z.mod_small (x + y)) by lia.
        apply Z.mod_small. lia. }
      rewrite Es. clear Es.
      destruct (split_u128 (x + y + carry)) as [E Hq]; [lia|].
      assert (Z.shiftr (x + y + carry) 64 <= 1) as Hq1.
      { rewrite Z.shiftr_div_pow2 by lia.
        apply Z.lt_succ_r, Z.div_lt_upper_bound; lia. }
      rewrite (u64_small (Z.shiftr _ 64)) in * by lia.
      refine (conj _ (conj _ _)); cbn [fst snd].
      + apply wf_insert; [assumption | apply u64_range].
      + lia.
      + rewrite value_take_insert by (rewrite (wf_length _ Hres); lia).
        rewrite !value_take_S. fold x y. rewrite pow64_S.
        pose proof (pow64_gt0 k). nia. }
  destruct HP as (Hwf & Hc & Hinv). split; [exact Hwf|].
  cbn [Nat.add] in Hinv. rewrite !take_wf in Hinv by assumption.
  rewrite MODULUS_words in Hinv.
  eapply mod_eq_of_split; [apply MODULUS_pos | apply (wf_value_bound _ Hwf) | exact Hinv].
Qed.

Lemma sub_correct a b :
  wf a -> wf b ->
  wf (sub a b) /\ value (sub a b) = (value a - value b) mod MODULUS.
Proof.
  intros Ha Hb. unfold sub.
  pose (P := fun (i : nat) (s : list Z * Z) =>
    wf (fst s) /\ 0 <= snd s <= 1 /\
    value (take i (fst s)) - snd s * 2 ^ (64 * Z.of_nat i)
    = value (take i a) - value (take i b)).
  match goal with |- context [for_up ?n ?i ?f ?s] =>
    assert (P (0 + NUM_WORDS)%nat (for_up n i f s)) as HP end.
  { apply for_up_ind.
    - refine (conj wf_zero (conj _ _)); cbn [fst snd]; [lia | now rewrite !take_0].
    - intros k [res borrow] Hk (Hres & Hc & Hinv); cbn [fst snd] in *.
      pose proof (word_range a k (wf_words _ Ha)) as Hx.
      pose proof (word_range b k (wf_words _ Hb)) as Hy.
      set (x := a.[k]) in *. set (y := b.[k]) in *.
      assert (u128 (u128 (x - y) - borrow) = (x - y - borrow) mod 2 ^ 128) as Es.
      { unfold u128. now rewrite Zminus_mod_idemp_l. }
      rewrite Es. clear Es.
      set (t := x - y - borrow).
      assert (u64 (Z.land (Z.shiftr (t mod 2 ^ 128) 127) 1) = (if t <? 0 then 1 else 0)
              /\ u64 (t mod 2 ^ 128) = t + (if t <? 0 then 1 else 0) * 2 ^ 64) as [Eb Ew].
      { change 1 with (Z.ones 1) at 1. rewrite Z.land_ones, Z.shiftr_div_pow2 by lia.
        destruct (Z.ltb_spec t 0) as [Hneg|Hpos].
        - assert (t mod 2 ^ 128 = t + 2 ^ 128) as ->.
          { symmetry. apply Z.mod_unique with (q := -1); lia. }
          split.
          + replace ((t + 2 ^ 128) / 2 ^ 127) with 1
              by (apply Z.div_unique with (r := t + 2 ^ 127); lia).
            reflexivity.
          + unfold u64. symmetry.
            apply Z.mod_unique with (q := 2 ^ 64 - 1); lia.
        - rewrite (Z.mod_small t) by lia. split.
          + rewrite (Z.div_small t) by lia. reflexivity.
          + rewrite u64_small; lia. }
      rewrite Eb.
      refine (conj _ (conj _ _)); cbn [fst snd].
      + apply wf_insert; [assumption | apply u64_range].
      + destruct (t <? 0); lia.
      + rewrite value_take_insert by (rewrite (wf_length _ Hres); lia).
        rewrite !value_take_S. fold x y. rewrite Ew, pow64_S.
        pose proof (pow64_gt0 k). subst t. destruct (_ <? 0); nia. }
  destruct (for_up _ _ _ _) as [res c].
  destruct HP as (Hwf & Hc & Hinv). cbn [fst snd] in *. split; [exact Hwf|].
  cbn [Nat.add] in Hinv. rewrite !take_wf in Hinv by assumption.
  rewrite MODULUS_words in Hinv.
  apply mod_eq_of_split with (c := - c); [apply MODULUS_pos | apply (wf_value_bound _ Hwf) |].
  rewrite <- Hinv. ring.
Qed.

Lemma pow64_add (i j : nat) :
  2 ^ (64 * Z.of_nat (i + j)) = 2 ^ (64 * Z.of_nat i) * 2 ^ (64 * Z.of_nat j).
Proof. rewrite <- Z.pow_add_r by lia. f_equal. lia. Qed.

Lemma value_take_drop a n :
  value a = value (take n a) + 2 ^ (64 * Z.of_nat (Nat.min n (length a))) * value (drop n a).
Proof.
  rewrite <- (take_drop n a) at 1. rewrite value_app. now rewrite length_take.
Qed.

Lemma mul_row_correct a b i res0 :
  wf a -> wf b -> wf res0 -> (i < NUM_WORDS)%nat ->
  wf (mul_row a b i res0) /\
  exists q, value (mul_row a b i res0) + q * MODULUS
            = value res0 + a.[i] * 2 ^ (64 * Z.of_nat i) * value b.
Proof.
  intros Ha Hb Hres0 Hi. unfold mul_row.
  pose proof (word_range a i (wf_words _ Ha)) as Hx. set (x := a.[i]) in *.
  pose (P := fun (j : nat) (s : list Z * Z) =>
    wf (fst s) /\ 0 <= snd s < 2 ^ 64 /\
    value (fst s) + snd s * 2 ^ (64 * Z.of_nat (i + j))
    = value res0 + x * 2 ^ (64 * Z.of_nat i) * value (take j b)).
  match goal with |- context [for_up ?n ?i ?f ?s] =>
    assert (P (0 + n)%nat (for_up n i f s)) as HP end.
  { apply for_up_ind.
    - refine (conj Hres0 (conj _ _)); cbn [fst snd]; [lia|].
      rewrite take_0. cbn [value]. lia.
    - intros j [res carry] Hj (Hres & Hc & Hinv); cbn [fst snd] in *.
      change NUM_WORDS with 64%nat in *.
      pose proof (word_range b j (wf_words _ Hb)) as Hy.
      pose proof (word_range res (i + j) (wf_words _ Hres)) as Hw.
      set (y := b.[j]) in *. set (w := res.[i + j]) in *.
      assert (0 <= x * y <= (2 ^ 64 - 1) * (2 ^ 64 - 1)) as Hxy by nia.
      assert (u128 (u128 (u128 (x * y) + w) + carry) = x * y + w + carry) as Em.
      { unfold u128. rewrite (Z.mod_small (x * y)) by lia.
        rewrite (Z.mod_small (x * y + w)) by lia. apply Z.mod_small. lia. }
      rewrite Em. clear Em.
      destruct (split_u128 (x * y + w + carry)) as [E Hq]; [lia|].
      rewrite (u64_small (Z.shiftr _ 64)) in * by lia.
      refine (conj _ (conj _ _)); cbn [fst snd].
      + apply wf_insert; [assumption | apply u64_range].
      + lia.
      + rewrite value_insert by (rewrite (wf_length _ Hres); change NUM_WORDS with 64%nat; lia).
        fold w. rewrite value_take_S. fold y.
        replace (i + S j)%nat with (S (i + j)) by lia.
        rewrite pow64_S. rewrite pow64_add in *.
        pose proof (pow64_gt0 i). pose proof (pow64_gt0 j). nia. }
  destruct (for_up _ _ _ _) as [res c].
  destruct HP as (Hwf & Hc & Hinv). cbn [fst snd] in *. split; [exact Hwf|].
  change NUM_WORDS with 64%nat in *.
  replace (i + (0 + (64 - i)))%nat with 64%nat in Hinv by lia.
  cbn [Nat.add] in Hinv.
  pose proof (value_take_drop b (64 - i)) as Hb'.
  rewrite (wf_length _ Hb) in Hb'. change NUM_WORDS with 64%nat in Hb'.
  rewrite Nat.min_l in Hb' by lia.
  exists (c + x * value (drop (64 - i) b)).
  rewrite Hb'.
  assert (2 ^ (64 * Z.of_nat i) * 2 ^ (64 * Z.of_nat (64 - i)) = MODULUS) as E.
  { rewrite <- pow64_add. replace (i + (64 - i))%nat with 64%nat by lia.
    apply MODULUS_words. }
  change (2 ^ (64 * Z.of_nat 64)) with (2 ^ (64 * Z.of_nat NUM_WORDS)) in Hinv.
  rewrite MODULUS_words in Hinv.
  set (p := 2 ^ (64 * Z.of_nat i)) in *. set (p' := 2 ^ (64 * Z.of_nat (64 - i))) in *.
  replace (value res0 + x * p * (value (take (64 - i) b) + p' * value (drop (64 - i) b)))
    with (value res0 + x * p * value (take (64 - i) b) + x * value (drop (64 - i) b) * (p * p'))
    by ring.
  rewrite E, <- Hinv. ring.
Qed.

Lemma mul_correct a b :
  wf a -> wf b ->
  wf (mul a b) /\ value (mul a b) = (value a * value b) mod MODULUS.
Proof.
  intros Ha Hb. unfold mul.
  pose (P := fun (i : nat) (res : list Z) =>
    wf res /\ exists q, value res + q * MODULUS = value (take i a) * value b).
  match goal with |- context [for_up ?n ?i ?f ?s] =>
    assert (P (0 + n)%nat (for_up n i f s)) as HP end.
  { apply for_up_ind.
    - split; [apply wf_zero|]. exists 0. rewrite take_0, value_zero. cbn [value]. lia.
    - intros i res Hi (Hres & q & Hinv). unfold P. rewrite value_take_S.
      destruct (Z.eqb_spec a.[i] 0) as [E0|E0].
      + split; [assumption|]. exists q. rewrite E0, Hinv. ring.
      + destruct (mul_row_correct a b i res Ha Hb Hres) as (Hwf & q' & Hrow); [lia|].
        split; [assumption|]. exists (q + q'). lia. }
  destruct HP as (Hwf & q & Hinv). split; [exact Hwf|].
  cbn [Nat.add] in Hinv. rewrite take_wf in Hinv by assumption.
  apply mod_eq_of_split with (c := q);
    [apply MODULUS_pos | apply (wf_value_bound _ Hwf) | exact Hinv].
Qed.

(** * Comparison is comparison of values *)

Lemma value_take_bound a i :
  words_ok a -> 0 <= value (take i a) < 2 ^ (64 * Z.of_nat i).
Proof.
  intros Ha. pose proof (value_bound (take i a) (Forall_take _ i _ Ha)) as H.
  split; [lia|]. eapply Z.lt_le_trans; [apply H|].
  apply Z.pow_le_mono_r; [lia|]. rewrite length_take. lia.
Qed.

Lemma lt_loop_correct a b n :
  words_ok a -> words_ok b ->
  lt_loop n a b = (value (take n a) <? value (take n b)).
Proof.
  intros Ha Hb. induction n as [|i IH]; cbn [lt_loop].
  - now rewrite !take_0.
  - rewrite !value_take_S.
    pose proof (value_take_bound a i Ha). pose proof (value_take_bound b i Hb).
    pose proof (word_range a i Ha). pose proof (word_range b i Hb).
    set (p := 2 ^ (64 * Z.of_nat i)) in *.
    destruct (Z.ltb_spec a.[i] b.[i]) as [Hlt|Hge].
    + symmetry. apply Z.ltb_lt. nia.
    + rewrite Z.gtb_ltb. destruct (Z.ltb_spec b.[i] a.[i]) as [Hgt|Hle].
      * symmetry. apply Z.ltb_ge. nia.
      * assert (a.[i] = b.[i]) as E by lia. rewrite IH, E.
        destruct (Z.ltb_spec (value (take i a)) (value (take i b)));
          symmetry; [apply Z.ltb_lt | apply Z.ltb_ge]; lia.
Qed.

Lemma lt_correct a b : wf a -> wf b -> lt a b = (value a <? value b).
Proof.
  intros Ha Hb. unfold lt.
  rewrite lt_loop_correct by now apply wf_words.
  now rewrite !take_wf.
Qed.

Lemma ge_correct a b : wf a -> wf b -> ge a b = (value b <=? value a).
Proof.
  intros Ha Hb. unfold ge. rewrite lt_correct by assumption.
  destruct (Z.ltb_spec (value a) (value b)), (Z.leb_spec (value b) (value a));
    cbn; lia || reflexivity.
Qed.

Lemma le_correct a b : wf a -> wf b -> le a b = (value a <=? value b).
Proof.
  intros Ha Hb. unfold le. rewrite lt_correct by assumption.
  destruct (Z.ltb_spec (value b) (value a)), (Z.leb_spec (value a) (value b));
    cbn; lia || reflexivity.
Qed.

Lemma gt_correct a b : wf a -> wf b -> gt a b = (value b <? value a).
Proof. intros Ha Hb. unfold gt. now apply lt_correct. Qed.

Lemma neqb_value a b : wf a -> wf b -> neqb a b = negb (value a =? value b).
Proof. intros Ha Hb. unfold neqb. now rewrite eqb_value. Qed.

(** * Bits of a value *)

Lemma testbit_word_high w m : 0 <= w < 2 ^ 64 -> 64 <= m -> Z.testbit w m = false.
Proof.
  intros Hw Hm. destruct (Z.eq_dec w 0) as [->|Hw0]; [apply Z.bits_0|].
  apply Z.bits_above_log2; [lia|].
  apply Z.lt_le_trans with 64; [|exact Hm]. apply Z.log2_lt_pow2; lia.
Qed.

Lemma add_shift_lor w v :
  0 <= w < 2 ^ 64 -> w + 2 ^ 64 * v = Z.lor w (Z.shiftl v 64).
Proof.
  intros Hw.
  replace (2 ^ 64 * v) with (Z.shiftl v 64) by (rewrite Z.shiftl_mul_pow2; lia).
  rewrite <- Z.add_lor_land.
  replace (Z.land w (Z.shiftl v 64)) with 0; [lia|].
  symmetry. apply Z.bits_inj'. intros n Hn.
  rewrite Z.land_spec, Z.bits_0.
  destruct (Z.lt_ge_cases n 64) as [H|H].
  - rewrite (Z.shiftl_spec_low v 64 n) by lia. apply andb_false_r.
  - now rewrite testbit_word_high.
Qed.

Lemma testbit_value a (k : nat) m :
  words_ok a -> 0 <= m < 64 ->
  Z.testbit (value a) (64 * Z.of_nat k + m) = Z.testbit a.[k] m.
Proof.
  intros Ha Hm. revert k. induction Ha as [|w a Hw Ha IH]; intros k.
  - rewrite word_nil. cbn [value]. now rewrite !Z.bits_0.
  - cbn [value]. rewrite add_shift_lor by assumption. rewrite Z.lor_spec.
    destruct k as [|k].
    + rewrite word_cons_0. cbn [Z.of_nat]. rewrite Z.mul_0_r, Z.add_0_l.
      rewrite (Z.shiftl_spec_low _ 64 m) by lia. apply orb_false_r.
    + rewrite word_cons_S, testbit_word_high by (assumption || lia).
      rewrite Z.shiftl_spec by lia. cbn [orb]. rewrite <- IH. f_equal. lia.
Qed.

Lemma testbit_value_high a n :
  words_ok a -> 64 * Z.of_nat (length a) <= n -> Z.testbit (value a) n = false.
Proof.
  intros Ha Hn. pose proof (value_bound a Ha) as Hb.
  destruct (Z.eq_dec (value a) 0) as [->|H0]; [apply Z.bits_0|].
  apply Z.bits_above_log2; [lia|].
  eapply Z.lt_le_trans; [|exact Hn]. apply Z.log2_lt_pow2; lia.
Qed.

(** Splitting a bit index into a word index and a bit position. *)
Lemma bit_index n :
  0 <= n -> n = 64 * Z.of_nat (Z.to_nat (n / 64)) + n mod 64 /\ 0 <= n mod 64 < 64.
Proof.
  intros Hn. pose proof (Z.div_mod n 64). pose proof (Z.mod_pos_bound n 64).
  assert (0 <= n / 64) by (apply Z.div_pos; lia). lia.
Qed.

Lemma testbit_above z k n : 0 <= z < 2 ^ k -> k <= n -> Z.testbit z n = false.
Proof.
  intros Hz Hn. destruct (Z.eq_dec z 0) as [->|H0]; [apply Z.bits_0|].
  apply Z.bits_above_log2; [lia|].
  apply Z.lt_le_trans with k; [|exact Hn]. apply Z.log2_lt_pow2; lia.
Qed.

(** Two well-formed values with the same bits below 4096 are equal as numbers. *)
Lemma value_eq_bits a z :
  wf a -> 0 <= z < MODULUS ->
  (forall (k : nat) m, (k < NUM_WORDS)%nat -> 0 <= m < 64 ->
     Z.testbit a.[k] m = Z.testbit z (64 * Z.of_nat k + m)) ->
  value a = z.
Proof.
  intros Ha Hz H. apply Z.bits_inj'. intros n Hn.
  destruct (Z.lt_ge_cases n 4096) as [Hlt|Hge].
  - destruct (bit_index n Hn) as [E Hm].
    set (k := Z.to_nat (n / 64)) in *. set (m := n mod 64) in *.
    rewrite E, testbit_value by (try apply wf_words; assumption).
    apply H; [|assumption]. change NUM_WORDS with 64%nat. lia.
  - rewrite (testbit_above (value a) 4096 n (wf_value_bound a Ha) Hge).
    now rewrite (testbit_above z 4096 n Hz Hge).
Qed.

(** * Shifts *)

Lemma lor_range x y : 0 <= x < 2 ^ 64 -> 0 <= y < 2 ^ 64 -> 0 <= Z.lor x y < 2 ^ 64.
Proof.
  intros Hx Hy. assert (0 <= Z.lor x y) as H0 by (apply Z.lor_nonneg; lia).
  split; [exact H0|].
  destruct (Z.eq_dec (Z.lor x y) 0) as [->|Hne]; [reflexivity|].
  apply Z.log2_lt_pow2; [lia|]. rewrite Z.log2_lor by lia.
  apply Z.max_lub_lt.
  - destruct (Z.eq_dec x 0) as [->|Hx0]; [reflexivity | apply Z.log2_lt_pow2; lia].
  - destruct (Z.eq_dec y 0) as [->|Hy0]; [reflexivity | apply Z.log2_lt_pow2; lia].
Qed.

Lemma shiftr_range x n : 0 <= x < 2 ^ 64 -> 0 <= n -> 0 <= Z.shiftr x n < 2 ^ 64.
Proof.
  intros Hx Hn. rewrite Z.shiftr_div_pow2 by lia.
  assert (0 < 2 ^ n) by (apply Z.pow_pos_nonneg; lia).
  split; [apply Z.div_pos; lia|].
  apply Z.le_lt_trans with x; [|lia]. apply Z.div_le_upper_bound; nia.
Qed.

Lemma testbit_u64 x m : 0 <= m < 64 -> Z.testbit (u64 x) m = Z.testbit x m.
Proof. intros Hm. unfold u64. apply Z.mod_pow2_bits_low. lia. Qed.

Lemma shl_word_range a ws bs k :
  words_ok a -> 0 <= bs < 64 -> 0 <= shl_word a ws bs k < 2 ^ 64.
Proof.
  intros Ha Hbs. unfold shl_word. destruct (k <? ws)%nat; [lia|].
  apply lor_range; [apply u64_range|].
  destruct (negb (bs =? 0) && (ws + 1 <=? k)%nat); [|lia].
  apply shiftr_range; [now apply word_range | lia].
Qed.

Lemma shl_words a s :
  wf a -> 0 <= s ->
  wf (shl a s) /\
  forall k, (k < NUM_WORDS)%nat ->
    (shl a s).[k] = shl_word a (Z.to_nat (s / 64)) (s mod 64) k.
Proof.
  intros Ha Hs. unfold shl.
  set (ws := Z.to_nat (s / 64)). set (bs := s mod 64).
  assert (0 <= bs < 64) as Hbs by (apply Z.mod_pos_bound; lia).
  pose (P := fun (n : nat) (res : list Z) =>
    wf res /\ forall k, (k < NUM_WORDS)%nat ->
      res.[k] = if (n <=? k)%nat then shl_word a ws bs k else 0).
  match goal with |- context [for_down ?n ?f ?s] =>
    assert (P 0%nat (for_down n f s)) as HP end.
  { apply for_down_ind.
    - split; [apply wf_zero|]. intros k Hk.
      destruct (Nat.leb_spec NUM_WORDS k); [lia|].
      unfold word, zero. rewrite nth_lookup, lookup_replicate_2 by lia. reflexivity.
    - intros i res Hi [Hres Hw].
      assert (forall k, (k < NUM_WORDS)%nat -> k <> i ->
                res.[k] = if (i <=? k)%nat then shl_word a ws bs k else 0) as Hother.
      { intros k Hk Hne. rewrite Hw by assumption.
        destruct (Nat.leb_spec (S i) k), (Nat.leb_spec i k); try lia; reflexivity. }
      destruct (Nat.ltb_spec i ws) as [Hlt|Hge].
      + split; [assumption|]. intros k Hk.
        destruct (Nat.eq_dec k i) as [->|Hne]; [|now apply Hother].
        rewrite Hw by assumption. rewrite Nat.leb_refl.
        destruct (Nat.leb_spec (S i) i); [lia|].
        unfold shl_word. destruct (Nat.ltb_spec i ws); [reflexivity | lia].
      + pose proof (shl_word_range a ws bs i (wf_words _ Ha) Hbs) as Hr.
        unfold shl_word in Hr. destruct (Nat.ltb_spec i ws) as [|_]; [lia|].
        split; [now apply wf_insert|]. intros k Hk.
        destruct (Nat.eq_dec k i) as [->|Hne].
        * rewrite word_insert_eq by (rewrite (wf_length _ Hres); lia).
          rewrite Nat.leb_refl. unfold shl_word.
          destruct (Nat.ltb_spec i ws); [lia | reflexivity].
        * rewrite word_insert_ne by congruence. now apply Hother. }
  destruct HP as [Hwf Hw]. split; [exact Hwf|].
  intros k Hk. now rewrite Hw.
Qed.

Lemma shl_word_bit a ws bs (k : nat) m :
  words_ok a -> 0 <= bs < 64 -> 0 <= m < 64 ->
  Z.testbit (shl_word a ws bs k) m
  = Z.testbit (value a) (64 * Z.of_nat k + m - (64 * Z.of_nat ws + bs)).
Proof.
  intros Ha Hbs Hm. unfold shl_word.
  destruct (Nat.ltb_spec k ws) as [Hlt|Hge].
  - rewrite Z.bits_0. symmetry. apply Z.testbit_neg_r. lia.
  - rewrite Z.lor_spec, testbit_u64, Z.shiftl_spec by lia.
    destruct (Z.lt_ge_cases m bs) as [Hmb|Hmb].
    + rewrite (Z.testbit_neg_r _ (m - bs)) by lia. cbn [orb].
      destruct (Z.eqb_spec bs 0) as [?|_]; [lia|]. cbn [negb andb].
      destruct (Nat.leb_spec (ws + 1) k) as [H1|H1].
      * rewrite Z.shiftr_spec by lia.
        replace (64 * Z.of_nat k + m - (64 * Z.of_nat ws + bs))
          with (64 * Z.of_nat (k - ws - 1) + (m + (64 - bs))) by lia.
        now rewrite testbit_value by (assumption || lia).
      * rewrite Z.bits_0. symmetry. apply Z.testbit_neg_r. lia.
    + replace (64 * Z.of_nat k + m - (64 * Z.of_nat ws + bs))
        with (64 * Z.of_nat (k - ws) + (m - bs)) by lia.
      rewrite testbit_value by (assumption || lia).
      replace (Z.testbit _ m) with false; [apply orb_false_r|].
      destruct (negb (bs =? 0) && (ws + 1 <=? k)%nat); [|now rewrite Z.bits_0].
      rewrite Z.shiftr_spec by lia. symmetry.
      apply testbit_word_high; [now apply word_range | lia].
Qed.

Lemma shift_split s : 0 <= s -> 64 * Z.of_nat (Z.to_nat (s / 64)) + s mod 64 = s.
Proof. intros Hs. destruct (bit_index s Hs). lia. Qed.

Lemma shl_correct a s :
  wf a -> 0 <= s ->
  wf (shl a s) /\ value (shl a s) = (value a * 2 ^ s) mod MODULUS.
Proof.
  intros Ha Hs. destruct (shl_words a s Ha Hs) as [Hwf Hw]. split; [exact Hwf|].
  apply value_eq_bits; [exact Hwf | apply Z.mod_pos_bound, MODULUS_pos |].
  intros k m Hk Hm. rewrite Hw by assumption.
  rewrite shl_word_bit; [| now apply wf_words | apply Z.mod_pos_bound; lia | assumption].
  rewrite shift_split by assumption.
  change NUM_WORDS with 64%nat in Hk. unfold MODULUS.
  rewrite Z.mod_pow2_bits_low by lia.
  rewrite <- Z.shiftl_mul_pow2 by lia. now rewrite Z.shiftl_spec by lia.
Qed.

Lemma shr_word_range a ws bs k :
  words_ok a -> 0 <= bs < 64 -> 0 <= shr_word a ws bs k < 2 ^ 64.
Proof.
  intros Ha Hbs. unfold shr_word. destruct (NUM_WORDS <=? k + ws)%nat; [lia|].
  apply lor_range; [apply shiftr_range; [now apply word_range | lia]|].
  destruct (negb (bs =? 0) && (k + ws + 1 <? NUM_WORDS)%nat); [apply u64_range | lia].
Qed.

Lemma shr_words a s :
  wf a -> 0 <= s ->
  wf (shr a s) /\
  forall k, (k < NUM_WORDS)%nat ->
    (shr a s).[k] = shr_word a (Z.to_nat (s / 64)) (s mod 64) k.
Proof.
  intros Ha Hs. unfold shr.
  set (ws := Z.to_nat (s / 64)). set (bs := s mod 64).
  assert (0 <= bs < 64) as Hbs by (apply Z.mod_pos_bound; lia).
  pose (P := fun (n : nat) (res : list Z) =>
    wf res /\ forall k, (k < NUM_WORDS)%nat ->
      res.[k] = if (k <? n)%nat then shr_word a ws bs k else 0).
  match goal with |- context [for_up ?n ?i ?f ?s] =>
    assert (P (0 + n)%nat (for_up n i f s)) as HP end.
  { apply for_up_ind.
    - split; [apply wf_zero|]. intros k Hk. cbn [Nat.ltb Nat.leb].
      unfold word, zero. rewrite nth_lookup, lookup_replicate_2 by lia. reflexivity.
    - intros i res Hi [Hres Hw].
      assert (forall k, (k < NUM_WORDS)%nat -> k <> i ->
                res.[k] = if (k <? S i)%nat then shr_word a ws bs k else 0) as Hother.
      { intros k Hk Hne. rewrite Hw by assumption.
        destruct (Nat.ltb_spec k (S i)), (Nat.ltb_spec k i); try lia; reflexivity. }
      destruct (Nat.leb_spec NUM_WORDS (i + ws)) as [Hge|Hlt].
      + split; [assumption|]. intros k Hk.
        destruct (Nat.eq_dec k i) as [->|Hne]; [|now apply Hother].
        rewrite Hw by assumption. rewrite Nat.ltb_irrefl.
        destruct (Nat.ltb_spec i (S i)); [|lia].
        unfold shr_word. destruct (Nat.leb_spec NUM_WORDS (i + ws)); [reflexivity | lia].
      + pose proof (shr_word_range a ws bs i (wf_words _ Ha) Hbs) as Hr.
        unfold shr_word in Hr. destruct (Nat.leb_spec NUM_WORDS (i + ws)) as [|_]; [lia|].
        split; [now apply wf_insert|]. intros k Hk.
        destruct (Nat.eq_dec k i) as [->|Hne].
        * rewrite word_insert_eq by (rewrite (wf_length _ Hres); lia).
          destruct (Nat.ltb_spec i (S i)); [|lia]. unfold shr_word.
          destruct (Nat.leb_spec NUM_WORDS (i + ws)); [lia | reflexivity].
        * rewrite word_insert_ne by congruence. now apply Hother. }
  destruct HP as [Hwf Hw]. split; [exact Hwf|].
  intros k Hk. rewrite Hw by assumption. cbn [Nat.add].
  destruct (Nat.ltb_spec k NUM_WORDS); [reflexivity | lia].
Qed.

Lemma shr_word_bit a ws bs (k : nat) m :
  wf a -> 0 <= bs < 64 -> 0 <= m < 64 ->
  Z.testbit (shr_word a ws bs k) m
  = Z.testbit (value a) (64 * Z.of_nat k + m + (64 * Z.of_nat ws + bs)).
Proof.
  intros [Hl Ha] Hbs Hm. unfold shr_word. change NUM_WORDS with 64%nat in *.
  destruct (Nat.leb_spec 64 (k + ws)) as [Hge|Hlt].
  - rewrite Z.bits_0. symmetry. apply testbit_value_high; [assumption | lia].
  - rewrite Z.lor_spec, Z.shiftr_spec by lia.
    destruct (Z.lt_ge_cases (m + bs) 64) as [Hmb|Hmb].
    + replace (64 * Z.of_nat k + m + (64 * Z.of_nat ws + bs))
        with (64 * Z.of_nat (k + ws) + (m + bs)) by lia.
      rewrite testbit_value by (assumption || lia).
      destruct (negb (bs =? 0) && (k + ws + 1 <? 64)%nat);
        [|now rewrite Z.bits_0, orb_false_r].
      rewrite testbit_u64, Z.shiftl_spec by lia.
      rewrite (Z.testbit_neg_r _ (m - (64 - bs))) by lia. apply orb_false_r.
    + rewrite (testbit_word_high a.[k + ws]) by (try apply word_range; assumption || lia).
      cbn [orb]. destruct (Z.eqb_spec bs 0) as [?|_]; [lia|]. cbn [negb andb].
      replace (64 * Z.of_nat k + m + (64 * Z.of_nat ws + bs))
        with (64 * Z.of_nat (k + ws + 1) + (m - (64 - bs))) by lia.
      rewrite testbit_value by (assumption || lia).
      destruct (Nat.ltb_spec (k + ws + 1) 64) as [H1|H1].
      * now rewrite testbit_u64, Z.shiftl_spec by lia.
      * rewrite word_ge by lia. now rewrite !Z.bits_0.
Qed.

Lemma shr_correct a s :
  wf a -> 0 <= s ->
  wf (shr a s) /\ value (shr a s) = value a / 2 ^ s.
Proof.
  intros Ha Hs. destruct (shr_words a s Ha Hs) as [Hwf Hw]. split; [exact Hwf|].
  pose proof (wf_value_bound a Ha) as Hb.
  assert (0 < 2 ^ s) as Hp by (apply Z.pow_pos_nonneg; lia).
  apply value_eq_bits; [exact Hwf | |].
  - split; [apply Z.div_pos; lia|].
    apply Z.le_lt_trans with (value a); [|lia]. apply Z.div_le_upper_bound; nia.
  - intros k m Hk Hm. rewrite Hw by assumption.
    rewrite shr_word_bit; [| assumption | apply Z.mod_pos_bound; lia | assumption].
    rewrite shift_split by assumption.
    rewrite <- Z.shiftr_div_pow2 by lia. now rewrite Z.shiftr_spec by lia.
Qed.

(** * Restoring long division *)

Lemma nat_bit_index (i : nat) :
  Z.of_nat i = 64 * Z.of_nat (i / 64) + Z.of_nat (i mod 64) /\
  0 <= Z.of_nat (i mod 64) < 64.
Proof.
  pose proof (Nat.div_mod_eq i 64). pose proof (Nat.mod_upper_bound i 64). lia.
Qed.

Lemma land_1_bit x : Z.land x 1 = Z.b2z (Z.testbit x 0).
Proof.
  change 1 with (Z.ones 1). rewrite Z.land_ones by lia.
  rewrite Z.bit0_mod. reflexivity.
Qed.

Lemma dividend_bit a (i : nat) :
  words_ok a ->
  Z.land (Z.shiftr a.[i / 64] (Z.of_nat (i mod 64))) 1
  = Z.b2z (Z.testbit (value a) (Z.of_nat i)).
Proof.
  intros Ha. destruct (nat_bit_index i) as [E Hm].
  rewrite land_1_bit, Z.shiftr_spec by lia. rewrite E.
  rewrite testbit_value by assumption. reflexivity.
Qed.

Lemma lor_disjoint x y : Z.land x y = 0 -> Z.lor x y = x + y.
Proof. intros H. rewrite <- Z.add_lor_land, H. lia. Qed.

Lemma word0_even a : wf a -> Z.even (value a) = true -> Z.testbit a.[0] 0 = false.
Proof.
  intros Ha He. rewrite <- (testbit_value a 0 0) by (try apply wf_words; assumption || lia).
  cbn. rewrite Z.bit0_odd, <- Z.negb_even, He. reflexivity.
Qed.

Lemma next_current_correct a cur (i : nat) :
  wf a -> wf cur -> value cur < HALF_MODULUS ->
  wf (next_current a cur i) /\
  value (next_current a cur i)
  = 2 * value cur + Z.b2z (Z.testbit (value a) (Z.of_nat i)).
Proof.
  intros Ha Hc Hlt. unfold next_current.
  destruct (shl_correct cur 1 Hc) as [Hwf Hv]; [lia|].
  pose proof (wf_value_bound cur Hc) as Hb.
  rewrite Z.mod_small in Hv by (rewrite MODULUS_half; change (2 ^ 1) with 2; lia).
  rewrite dividend_bit by now apply wf_words.
  set (b := Z.b2z _).
  assert (0 <= b <= 1) as Hbit by (subst b; destruct (Z.testbit _ _); cbn; lia).
  set (w := (shl cur 1).[0]).
  assert (0 <= w < 2 ^ 64) as Hw by (apply word_range; now apply wf_words).
  assert (Z.land w b = 0) as Hland.
  { assert (b = 0 \/ b = 1) as [-> | ->] by lia; [apply Z.land_0_r|].
    rewrite land_1_bit. subst w. rewrite word0_even; [reflexivity | assumption |].
    rewrite Hv. change (2 ^ 1) with 2. rewrite Z.mul_comm. apply Z.even_mul. }
  assert (0 <= Z.lor w b < 2 ^ 64) as Hr by (apply lor_range; lia).
  split; [now apply wf_insert|].
  rewrite value_insert by (rewrite (wf_length _ Hwf); change NUM_WORDS with 64%nat; lia).
  fold w. rewrite lor_disjoint by assumption. rewrite Hv.
  change (2 ^ (64 * Z.of_nat 0)) with 1. change (2 ^ 1) with 2. lia.
Qed.

Lemma value_set_bit q (i : nat) :
  wf q -> (i < NUM_BITS)%nat -> Z.testbit (value q) (Z.of_nat i) = false ->
  let q' := <[(i / 64)%nat := Z.lor q.[i / 64] (u64 (Z.shiftl 1 (Z.of_nat (i mod 64))))]> q in
  wf q' /\ value q' = value q + 2 ^ Z.of_nat i.
Proof.
  intros Hq Hi Hbit q'. subst q'. destruct (nat_bit_index i) as [E Hm].
  set (k := (i / 64)%nat) in *. set (m := Z.of_nat (i mod 64)) in *.
  assert (k < 64)%nat as Hk by (change NUM_BITS with 4096%nat in Hi; lia).
  assert (0 <= q.[k] < 2 ^ 64) as Hw by (apply word_range; now apply wf_words).
  assert (0 < 2 ^ m < 2 ^ 64) as Hp.
  { split; [apply Z.pow_pos_nonneg; lia | apply Z.pow_lt_mono_r; lia]. }
  rewrite Z.shiftl_mul_pow2, Z.mul_1_l, u64_small by lia.
  assert (Z.land q.[k] (2 ^ m) = 0) as Hland.
  { apply Z.bits_inj'. intros n Hn. rewrite Z.land_spec, Z.bits_0.
    rewrite Z.pow2_bits_eqb by lia. destruct (Z.eqb_spec m n) as [<-|_]; [|apply andb_false_r].
    rewrite <- (testbit_value q k m) by (try apply wf_words; assumption).
    rewrite <- E, Hbit. reflexivity. }
  split; [apply wf_insert; [assumption | apply lor_range; lia]|].
  rewrite value_insert by (rewrite (wf_length _ Hq); exact Hk).
  rewrite lor_disjoint by assumption. rewrite E, Z.pow_add_r by lia. ring.
Qed.

Lemma shift_bit A i :
  0 <= i -> A / 2 ^ i = 2 * (A / 2 ^ (i + 1)) + Z.b2z (Z.testbit A i).
Proof.
  intros Hi. rewrite Z.testbit_spec' by lia.
  rewrite Z.pow_add_r, <- Z.div_div by lia || (try apply Z.pow_pos_nonneg; lia).
  change (2 ^ 1) with 2. pose proof (Z.div_mod (A / 2 ^ i) 2). lia.
Qed.

Lemma div_step D X b :
  0 < D -> 0 <= X -> 0 <= b <= 1 ->
  let n := 2 * (X mod D) + b in
  (2 * X + b) mod D = (if D <=? n then n - D else n) /\
  (2 * X + b) / D = 2 * (X / D) + (if D <=? n then 1 else 0).
Proof.
  intros HD HX Hb n. pose proof (Z.div_mod X D ltac:(lia)) as E.
  pose proof (Z.mod_pos_bound X D HD) as Hc.
  set (c := X mod D) in *. set (Q := X / D) in *.
  destruct (Z.leb_spec D n) as [Hle|Hgt].
  - assert (2 * X + b = D * (2 * Q + 1) + (n - D)) as E' by (subst n; lia).
    split; symmetry.
    + apply Z.mod_unique with (q := 2 * Q + 1); [subst n; lia | exact E'].
    + apply Z.div_unique with (r := n - D); [subst n; lia | exact E'].
  - assert (2 * X + b = D * (2 * Q) + n) as E' by (subst n; lia).
    split; symmetry.
    + apply Z.mod_unique with (q := 2 * Q); [subst n; lia | exact E'].
    + rewrite Z.add_0_r. apply Z.div_unique with (r := n); [subst n; lia | exact E'].
Qed.

(** One iteration of the division loop, on values: [X] is the part of the
    dividend above bit [i]. *)
Lemma long_division_step a d cur (i : nat) :
  wf a -> wf d -> wf cur -> 0 < value d -> (i < NUM_BITS)%nat ->
  value cur = (value a / 2 ^ (Z.of_nat i + 1)) mod value d ->
  let cur1 := next_current a cur i in
  let X := value a / 2 ^ (Z.of_nat i + 1) in
  let X' := value a / 2 ^ Z.of_nat i in
  wf cur1 /\
  (if ge cur1 d
   then wf (sub cur1 d) /\ value (sub cur1 d) = X' mod value d /\
        X' / value d = 2 * (X / value d) + 1
   else value cur1 = X' mod value d /\ X' / value d = 2 * (X / value d)).
Proof.
  intros Ha Hd Hc HD Hi Hcur cur1 X X'.
  pose proof (wf_value_bound a Ha) as HA.
  assert (0 < 2 ^ (Z.of_nat i + 1)) as Hp by (apply Z.pow_pos_nonneg; lia).
  assert (0 <= X < HALF_MODULUS) as HX.
  { subst X. split; [apply Z.div_pos; lia|].
    apply Z.div_lt_upper_bound; [lia|].
    apply Z.lt_le_trans with (MODULUS); [lia|].
    rewrite MODULUS_half. change 2 with (2 ^ 1) at 1.
    pose proof HALF_MODULUS_pos.
    apply Z.mul_le_mono_nonneg_r; [lia|]. apply Z.pow_le_mono_r; lia. }
  assert (value cur < HALF_MODULUS) as Hlt.
  { rewrite Hcur. fold X. apply Z.le_lt_trans with X; [apply Z.mod_le; lia | lia]. }
  destruct (next_current_correct a cur i Ha Hc Hlt) as [Hwf1 Hv1]. fold cur1 in Hwf1, Hv1.
  split; [exact Hwf1|].
  set (b := Z.b2z _) in Hv1.
  assert (0 <= b <= 1) as Hbit by (subst b; destruct (Z.testbit _ _); cbn; lia).
  assert (X' = 2 * X + b) as EX by (subst X X' b; apply shift_bit; lia).
  destruct (div_step (value d) X b HD ltac:(lia) Hbit) as [Em Eq].
  fold X in Hcur. rewrite <- Hcur, <- Hv1, <- EX in Em, Eq.
  rewrite ge_correct by assumption.
  destruct (Z.leb_spec (value d) (value cur1)) as [Hle|Hgt].
  - destruct (sub_correct cur1 d Hwf1 Hd) as [Hwfs Hvs].
    pose proof (wf_value_bound cur1 Hwf1).
    rewrite Z.mod_small in Hvs by lia.
    repeat split; [apply Hwfs .. | lia | lia].
  - split; lia.
Qed.

Lemma eqb_zero a : wf a -> eqb a (of_u64 0) = (value a =? 0).
Proof.
  intros Ha. rewrite eqb_value, value_of_u64 by (assumption || apply wf_of_u64).
  reflexivity.
Qed.

Lemma div_top a : wf a -> value a / 2 ^ Z.of_nat NUM_BITS = 0.
Proof. intros Ha. apply Z.div_small. exact (wf_value_bound a Ha). Qed.

Lemma rem_correct a b :
  wf a -> wf b -> value b <> 0 ->
  exists r, rem a b = Ok r /\ wf r /\ value r = value a mod value b.
Proof.
  intros Ha Hb Hnz. unfold rem. rewrite eqb_zero by assumption.
  destruct (Z.eqb_spec (value b) 0) as [?|_]; [contradiction|].
  pose proof (wf_value_bound b Hb) as HB.
  eexists. split; [reflexivity|].
  pose (P := fun (n : nat) (cur : list Z) =>
    wf cur /\ value cur = (value a / 2 ^ Z.of_nat n) mod value b).
  match goal with |- context [for_down ?n ?f ?s] =>
    assert (P 0%nat (for_down n f s)) as HP end.
  { apply for_down_ind.
    - split; [apply wf_zero|]. rewrite div_top by assumption. now rewrite value_zero.
    - intros i cur Hi [Hc Hv]. rewrite Nat2Z.inj_succ, <- Z.add_1_r in Hv.
      destruct (long_division_step a b cur i Ha Hb Hc ltac:(lia) Hi Hv) as [Hwf1 Hstep].
      destruct (ge _ b); [destruct Hstep as (? & ? & _) | destruct Hstep as (? & _)];
        now split. }
  destruct HP as [Hwf Hv]. split; [exact Hwf|].
  rewrite Hv. change (2 ^ Z.of_nat 0) with 1. now rewrite Z.div_1_r.
Qed.

Lemma div_correct a b :
  wf a -> wf b -> value b <> 0 ->
  exists q, div a b = Ok q /\ wf q /\ value q = value a / value b.
Proof.
  intros Ha Hb Hnz. unfold div. rewrite eqb_zero by assumption.
  destruct (Z.eqb_spec (value b) 0) as [?|_]; [contradiction|].
  pose proof (wf_value_bound b Hb) as HB.
  eexists. split; [reflexivity|].
  pose (P := fun (n : nat) (s : list Z * list Z) =>
    wf (fst s) /\ wf (snd s) /\
    value (snd s) = (value a / 2 ^ Z.of_nat n) mod value b /\
    value (fst s) = (value a / 2 ^ Z.of_nat n) / value b * 2 ^ Z.of_nat n).
  match goal with |- context [for_down ?n ?f ?s] =>
    assert (P 0%nat (for_down n f s)) as HP end.
  { apply for_down_ind.
    - refine (conj wf_zero (conj wf_zero (conj _ _))); cbn [fst snd];
        rewrite div_top by assumption; now rewrite value_zero.
    - intros i [quo cur] Hi (Hq & Hc & Hv & Hqv); cbn [fst snd] in *.
      rewrite Nat2Z.inj_succ, <- Z.add_1_r in Hv, Hqv.
      destruct (long_division_step a b cur i Ha Hb Hc ltac:(lia) Hi Hv) as [Hwf1 Hstep].
      assert (2 ^ (Z.of_nat i + 1) = 2 * 2 ^ Z.of_nat i) as Ep
        by (rewrite Z.pow_add_r by lia; change (2 ^ 1) with 2; ring).
      destruct (ge _ b).
      + destruct Hstep as (Hws & Hvs & Eq).
        destruct (value_set_bit quo i Hq Hi) as [Hq' Hqv'].
        { rewrite Hqv. apply Z.mul_pow2_bits_low. lia. }
        refine (conj Hq' (conj Hws (conj Hvs _))); cbn [fst snd].
        rewrite Hqv', Hqv, Eq, Ep. ring.
      + destruct Hstep as (Hvs & Eq).
        refine (conj Hq (conj Hwf1 (conj Hvs _))); cbn [fst snd].
        rewrite Hqv, Eq, Ep. ring. }
  destruct (for_down _ _ _) as [quo cur].
  destruct HP as (Hwf & _ & _ & Hv). cbn [fst snd] in *. split; [exact Hwf|].
  rewrite Hv. change (2 ^ Z.of_nat 0) with 1. rewrite Z.div_1_r. ring.
Qed.

(** * modExp and isPrime agree with their value-level forms *)

Lemma bind_refines_eq {B : Type} o oz (k : list Z -> outcome B) kz :
  refines o oz ->
  (forall a, wf a -> k a = kz (value a)) ->
  bind o k = bind oz kz.
Proof.
  intros Ho Hk. destruct o, oz; cbn in *; try contradiction; try congruence.
  destruct Ho as [Hwf <-]. now apply Hk.
Qed.

Lemma low_bit_odd a : wf a -> negb (Z.land a.[0] 1 =? 0) = Z.odd (value a).
Proof.
  intros Ha. rewrite land_1_bit.
  rewrite <- (testbit_value a 0 0) by (try apply wf_words; assumption || lia).
  cbn [Z.of_nat Z.mul Z.add]. rewrite Z.bit0_odd.
  now destruct (Z.odd (value a)).
Qed.

Lemma rem_mul_correct a b m :
  wf a -> wf b -> wf m -> value m <> 0 ->
  exists r, rem (mul a b) m = Ok r /\ wf r /\
            value r = ((value a * value b) mod MODULUS) mod value m.
Proof.
  intros Ha Hb Hm Hnz. destruct (mul_correct a b Ha Hb) as [Hwf Hv].
  rewrite <- Hv. now apply rem_correct.
Qed.

Lemma modExp_loop_refines fuel :
  forall result base exp m,
    wf result -> wf base -> wf exp -> wf m -> value m <> 0 ->
    refines (modExp_loop fuel result base exp m)
            (modExp_loop_Z fuel (value result) (value base) (value exp) (value m)).
Proof.
  induction fuel as [|fuel IH]; intros result base exp m Hr Hb He Hm Hnz;
    cbn [modExp_loop modExp_loop_Z]; [exact I|].
  rewrite neqb_value, value_of_u64 by (assumption || apply wf_of_u64).
  change (u64 0) with 0.
  destruct (negb (value exp =? 0)); [|now split].
  rewrite low_bit_odd by assumption.
  destruct (shr_correct exp 1 He ltac:(lia)) as [Hwe Hve].
  change (2 ^ 1) with 2 in Hve. rewrite <- Hve.
  destruct (rem_mul_correct base base m Hb Hb Hm Hnz) as (b' & Eb & Hwb & <-).
  destruct (Z.odd (value exp)).
  - destruct (rem_mul_correct result base m Hr Hb Hm Hnz) as (r' & -> & Hwr & <-).
    cbn [bind]. rewrite Eb. cbn [bind]. now apply IH.
  - cbn [bind]. rewrite Eb. cbn [bind]. now apply IH.
Qed.

Lemma modExp_refines base exp m :
  wf base -> wf exp -> wf m ->
  refines (modExp base exp m) (modExp_Z (value base) (value exp) (value m)).
Proof.
  intros Hb He Hm. unfold modExp, modExp_Z. rewrite eqb_zero by assumption.
  destruct (Z.eqb_spec (value m) 0) as [Hz|Hnz]; [reflexivity|].
  destruct (rem_correct base m Hb Hm Hnz) as (b' & -> & Hwb & <-). cbn [bind].
  change 1 with (u64 1) at 1. rewrite <- value_of_u64.
  apply modExp_loop_refines; assumption || apply wf_of_u64.
Qed.

Lemma eqb_small a v : wf a -> 0 <= v < 2 ^ 64 -> eqb a (of_u64 v) = (value a =? v).
Proof.
  intros Ha Hv. rewrite eqb_value, value_of_u64, u64_small by (assumption || apply wf_of_u64).
  reflexivity.
Qed.

Lemma pred_correct n :
  wf n -> wf (sub n (of_u64 1)) /\ value (sub n (of_u64 1)) = (value n - 1) mod MODULUS.
Proof.
  intros Hn. destruct (sub_correct n (of_u64 1) Hn (wf_of_u64 1)) as [Hwf Hv].
  split; [exact Hwf|]. now rewrite Hv, value_of_u64.
Qed.

Lemma eqb_pred x n :
  wf x -> wf n -> eqb x (sub n (of_u64 1)) = (value x =? (value n - 1) mod MODULUS).
Proof.
  intros Hx Hn. destruct (pred_correct n Hn) as [Hwf Hv].
  now rewrite eqb_value, Hv.
Qed.

Lemma halve_loop_refines fuel :
  forall d r, wf d ->
    match halve_loop fuel d r, halve_loop_Z fuel (value d) r with
    | Ok (d', r'), Ok (z, rz) => wf d' /\ value d' = z /\ r' = rz
    | OutOfFuel, OutOfFuel => True
    | _, _ => False
    end.
Proof.
  induction fuel as [|fuel IH]; intros d r Hd; cbn [halve_loop halve_loop_Z]; [exact I|].
  rewrite <- (low_bit_odd d Hd).
  destruct (Z.land d.[0] 1 =? 0); cbn [negb]; [|auto].
  destruct (shr_correct d 1 Hd ltac:(lia)) as [Hwf Hv].
  change (2 ^ 1) with 2 in Hv. rewrite <- Hv. now apply IH.
Qed.

Lemma square_loop_refines k :
  forall x n, wf x -> wf n -> square_loop k x n = square_loop_Z k (value x) (value n).
Proof.
  induction k as [|k IH]; intros x n Hx Hn; cbn [square_loop square_loop_Z]; [reflexivity|].
  apply bind_refines_eq.
  - replace 2 with (value (of_u64 2)) by (rewrite value_of_u64; reflexivity).
    apply modExp_refines; assumption || apply wf_of_u64.
  - intros x' Hx'. rewrite eqb_pred by assumption.
    destruct (_ =? _); [reflexivity | now apply IH].
Qed.

Lemma witness_loop_refines k :
  forall i n d r, wf n -> wf d ->
    witness_loop k i n d r = witness_loop_Z k i (value n) (value d) r.
Proof.
  induction k as [|k IH]; intros i n d r Hn Hd; cbn [witness_loop witness_loop_Z]; [reflexivity|].
  destruct (basePrimes !! i) as [p|]; [|reflexivity].
  apply bind_refines_eq.
  - rewrite <- value_of_u64. apply modExp_refines; assumption || apply wf_of_u64.
  - intros x Hx. rewrite eqb_pred, eqb_small by (assumption || lia).
    destruct (_ || _); [now apply IH|].
    rewrite square_loop_refines by assumption.
    destruct (square_loop_Z _ _ _) as [[|]| | |]; cbn [bind negb]; try reflexivity.
    now apply IH.
Qed.

Theorem isPrime_refines n rounds :
  wf n -> isPrime n rounds = isPrime_Z (value n) rounds.
Proof.
  intros Hn. unfold isPrime, isPrime_Z.
  rewrite le_correct, value_of_u64 by (assumption || apply wf_of_u64).
  change (u64 1) with 1. destruct (value n <=? 1); [reflexivity|].
  rewrite !eqb_small by (assumption || lia).
  destruct (_ || _); [reflexivity|].
  rewrite <- (low_bit_odd n Hn), negb_involutive.
  destruct (Z.land n.[0] 1 =? 0); [reflexivity|].
  destruct (pred_correct n Hn) as [Hwf Hv]. rewrite <- Hv.
  pose proof (halve_loop_refines NUM_BITS (sub n (of_u64 1)) 0 Hwf) as H.
  destruct (halve_loop _ _ _) as [[d r]| | |], (halve_loop_Z _ _ _) as [[z rz]| | |];
    try contradiction; cbn [bind]; try reflexivity.
  destruct H as (Hd & <- & <-). now apply witness_loop_refines.
Qed.

(** * What the value-level loops compute *)

Lemma half_bound e (f : nat) : 0 <= e < 2 ^ Z.of_nat (S f) -> 0 <= e / 2 < 2 ^ Z.of_nat f.
Proof.
  intros He. rewrite Nat2Z.inj_succ, Z.pow_succ_r in He by lia.
  split; [apply Z.div_pos; lia | apply Z.div_lt_upper_bound; lia].
Qed.

Lemma odd_half e : e = 2 * (e / 2) + (if Z.odd e then 1 else 0).
Proof. rewrite <- Zmod_odd. apply Z.div_mod. lia. Qed.

Lemma modExp_loop_Z_total (f : nat) :
  forall result base exp m,
    0 <= exp < 2 ^ Z.of_nat f ->
    exists z, modExp_loop_Z (S f) result base exp m = Ok z.
Proof.
  induction f as [|f IH]; intros result base exp m He.
  - assert (exp = 0) as -> by (change (2 ^ Z.of_nat 0) with 1 in He; lia).
    cbn. eauto.
  - cbn [modExp_loop_Z]. destruct (exp =? 0); cbn [negb]; [eauto|].
    apply IH. now apply half_bound.
Qed.

Lemma sq_pow b k : 0 <= k -> (b * b) ^ k = b ^ (2 * k).
Proof.
  intros Hk. rewrite Z.pow_mul_l, <- Z.pow_add_r by lia. f_equal. lia.
Qed.

Lemma modExp_loop_Z_S fuel result base exp m :
  modExp_loop_Z (S fuel) result base exp m
  = if negb (exp =? 0) then
      modExp_loop_Z fuel
        (if Z.odd exp then ((result * base) mod MODULUS) mod m else result)
        (((base * base) mod MODULUS) mod m) (exp / 2) m
    else Ok result.
Proof. reflexivity. Qed.

Lemma modExp_loop_Z_correct (f : nat) :
  forall result base exp m,
    0 < m <= SQRT_MODULUS -> 0 <= result < SQRT_MODULUS -> 0 <= base < m ->
    0 <= exp < 2 ^ Z.of_nat f ->
    modExp_loop_Z (S f) result base exp m
    = Ok (if exp =? 0 then result else (result * base ^ exp) mod m).
Proof.
  induction f as [|f IH]; intros result base exp m Hm Hr Hb He.
  - assert (exp = 0) as -> by (change (2 ^ Z.of_nat 0) with 1 in He; lia).
    reflexivity.
  - rewrite modExp_loop_Z_S.
    destruct (Z.eqb_spec exp 0) as [E0|E0]; cbn [negb]; [reflexivity|].
    pose proof (half_bound exp f He) as Hh. pose proof (odd_half exp) as Eh.
    set (h := exp / 2) in *.
    assert (0 <= result * base < MODULUS) as Hrb
      by (rewrite MODULUS_sqrt; nia).
    assert (0 <= base * base < MODULUS) as Hbb
      by (rewrite MODULUS_sqrt; nia).
    rewrite (Z.mod_small (result * base)), (Z.mod_small (base * base)) by assumption.
    pose proof (Z.mod_pos_bound (result * base) m ltac:(lia)) as Hr'.
    pose proof (Z.mod_pos_bound (base * base) m ltac:(lia)) as Hb'.
    rewrite IH; [| lia | destruct (Z.odd exp); lia | lia | lia].
    f_equal. destruct (Z.eqb_spec h 0) as [Eh0|Eh0].
    + destruct (Z.odd exp); [|lia].
      replace exp with 1 by lia. now rewrite Z.pow_1_r.
    + rewrite <- Z.mul_mod_idemp_r, <- Zpower_mod, sq_pow, Z.mul_mod_idemp_r by lia.
      destruct (Z.odd exp).
      * rewrite Z.mul_mod_idemp_l by lia. f_equal.
        rewrite Eh. rewrite Z.pow_add_r, Z.pow_1_r by lia. ring.
      * f_equal. rewrite Eh. now rewrite Z.add_0_r.
Qed.

Lemma modExp_Z_total base exp m :
  0 <= exp < MODULUS -> m <> 0 -> exists z, modExp_Z base exp m = Ok z.
Proof.
  intros He Hm. unfold modExp_Z. destruct (Z.eqb_spec m 0); [contradiction|].
  now apply modExp_loop_Z_total.
Qed.

Lemma modExp_Z_correct base exp m :
  0 <= exp < MODULUS -> 0 < m <= SQRT_MODULUS -> (m = 1 -> exp <> 0) ->
  modExp_Z base exp m = Ok (base ^ exp mod m).
Proof.
  intros He Hm H1. unfold modExp_Z. destruct (Z.eqb_spec m 0); [lia|].
  pose proof (Z.mod_pos_bound base m ltac:(lia)).
  assert (1 < SQRT_MODULUS) by reflexivity.
  rewrite modExp_loop_Z_correct by (assumption || lia). f_equal.
  destruct (Z.eqb_spec exp 0) as [->|Hne].
  - rewrite Z.pow_0_r, Z.mod_small; lia.
  - rewrite Z.mul_1_l, <- Zpower_mod; lia.
Qed.

Lemma halve_loop_Z_total (f : nat) :
  forall d r, 0 < d < 2 ^ Z.of_nat f ->
    exists d' r', halve_loop_Z f d r = Ok (d', r') /\ 0 < d' <= d.
Proof.
  induction f as [|f IH]; intros d r Hd.
  - change (2 ^ Z.of_nat 0) with 1 in Hd. lia.
  - cbn [halve_loop_Z]. pose proof (odd_half d) as Eh.
    destruct (Z.odd d); [exists d, r; split; [reflexivity | lia]|].
    pose proof (half_bound d f ltac:(lia)).
    destruct (IH (d / 2) (r + 1)) as (d' & r' & E & Hd'); [lia|].
    exists d', r'. split; [exact E | lia].
Qed.

Lemma square_loop_Z_total k :
  forall x n, n <> 0 -> exists b, square_loop_Z k x n = Ok b.
Proof.
  induction k as [|k IH]; intros x n Hn; cbn [square_loop_Z]; [eauto|].
  destruct (modExp_Z_total x 2 n) as [z ->]; [split; [lia | reflexivity] | assumption|].
  cbn [bind]. destruct (_ =? _); eauto.
Qed.

(** The witness loop either returns, or reads [basePrimes] past its end;
    the latter needs more than five iterations. *)
Lemma witness_loop_Z_outcome k :
  forall i n d r, n <> 0 -> 0 <= d < MODULUS ->
    (exists b, witness_loop_Z k i n d r = Ok b) \/
    (witness_loop_Z k i n d r = Undefined /\ (5 < i + k)%nat).
Proof.
  induction k as [|k IH]; intros i n d r Hn Hd; cbn [witness_loop_Z]; [eauto|].
  destruct (basePrimes !! i) as [p|] eqn:Hp.
  - assert (i < 5)%nat as Hi by (apply lookup_lt_Some in Hp; exact Hp).
    destruct (modExp_Z_total (u64 p) d n Hd Hn) as [x ->]. cbn [bind].
    assert ((exists b, witness_loop_Z k (S i) n d r = Ok b) \/
            (witness_loop_Z k (S i) n d r = Undefined /\ (5 < i + S k)%nat)) as Hrec.
    { destruct (IH (S i) n d r Hn Hd) as [?|[? ?]]; [now left | right; split; [assumption | lia]]. }
    destruct (_ || _); [exact Hrec|].
    destruct (square_loop_Z_total (Z.to_nat (r - 1)) x n Hn) as [[|] ->]; cbn [bind negb];
      [exact Hrec | eauto].
  - right. split; [reflexivity|]. apply lookup_ge_None in Hp. cbn in Hp. lia.
Qed.

Lemma isPrime_Z_outcome n rounds :
  0 <= n < MODULUS ->
  (exists b, isPrime_Z n rounds = Ok b) \/
  (isPrime_Z n rounds = Undefined /\ 5 < rounds).
Proof.
  intros Hn. unfold isPrime_Z.
  destruct (Z.leb_spec n 1) as [|H1]; [eauto|].
  destruct (_ || _); [eauto|].
  destruct (negb (Z.odd n)); [eauto|].
  rewrite (Z.mod_small (n - 1)) by lia.
  destruct (halve_loop_Z_total NUM_BITS (n - 1) 0) as (d & r & -> & Hd).
  { change (2 ^ Z.of_nat NUM_BITS) with (MODULUS). lia. }
  cbn [bind].
  destruct (witness_loop_Z_outcome (Z.to_nat rounds) 0 n d r) as [?|[? ?]];
    [lia | lia | now left | right; split; [assumption | lia]].
Qed.

Lemma isPrime_Z_no_rounds n rounds :
  5 <= n < MODULUS -> Z.odd n = true -> rounds <= 0 -> isPrime_Z n rounds = Ok true.
Proof.
  intros Hn Hodd Hr. unfold isPrime_Z.
  destruct (Z.leb_spec n 1); [lia|].
  destruct (Z.eqb_spec n 2); [lia|]. destruct (Z.eqb_spec n 3); [lia|]. cbn [orb].
  rewrite Hodd. cbn [negb].
  rewrite (Z.mod_small (n - 1)) by lia.
  destruct (halve_loop_Z_total NUM_BITS (n - 1) 0) as (d & r & -> & Hd).
  { change (2 ^ Z.of_nat NUM_BITS) with (MODULUS). lia. }
  cbn [bind]. replace (Z.to_nat rounds) with 0%nat by lia. reflexivity.
Qed.

(** * Decimal text *)

Lemma from_string_fold s : from_string s = fold_left from_string_step s zero.
Proof. reflexivity. Qed.

Lemma from_string_snoc s c : from_string (s ++ [c]) = from_string_step (from_string s) c.
Proof. rewrite !from_string_fold, fold_left_app. reflexivity. Qed.

Lemma word0_value a : wf a -> value a < 2 ^ 64 -> a.[0] = value a.
Proof.
  intros [Hl Ha] Hv. destruct Ha as [|w a Hw Ha]; [discriminate|].
  rewrite word_cons_0. cbn [value] in *. pose proof (value_bound a Ha). nia.
Qed.

Lemma digit_char_code d : 0 <= d < 10 -> Z.of_N (N_of_ascii (digit_char d)) = 48 + d.
Proof.
  intros Hd. unfold digit_char. rewrite u64_small by lia.
  rewrite Z.mod_small by lia. rewrite N_ascii_embedding by lia. lia.
Qed.

Lemma from_string_step_digit this d :
  wf this -> 0 <= d < 10 -> value this * 10 + d < MODULUS ->
  wf (from_string_step this (digit_char d)) /\
  value (from_string_step this (digit_char d)) = value this * 10 + d.
Proof.
  intros Ht Hd Hb. unfold from_string_step. rewrite digit_char_code by assumption.
  destruct (Z.ltb_spec (48 + d) 48); [lia|]. rewrite Z.gtb_ltb.
  destruct (Z.ltb_spec 57 (48 + d)); [lia|]. cbn [orb].
  pose proof (wf_value_bound this Ht).
  destruct (mul_correct this (of_u64 10) Ht (wf_of_u64 10)) as [Hwm Hvm].
  rewrite value_of_u64, (u64_small 10), Z.mod_small in Hvm by lia.
  destruct (add_correct (mul this (of_u64 10)) (of_u64 (48 + d - 48)) Hwm (wf_of_u64 _))
    as [Hwa Hva].
  rewrite value_of_u64, u64_small, Hvm, Z.mod_small in Hva by lia.
  split; [exact Hwa | lia].
Qed.

Lemma render_loop_S fuel temp out :
  render_loop (S fuel) temp out
  = if neqb temp (of_u64 0) then
      let! digit := rem temp (of_u64 10) in
      let! temp' := div temp (of_u64 10) in
      render_loop fuel temp' (out ++ [digit_char digit.[0]])
    else Ok out.
Proof. reflexivity. Qed.

Lemma digit_char_nonzero d : 0 < d < 10 -> digit_char d <> "0"%char.
Proof.
  intros Hd E. pose proof (digit_char_code d ltac:(lia)) as H.
  rewrite E in H. cbn in H. lia.
Qed.

Lemma render_loop_correct (f : nat) :
  forall temp out, wf temp -> value temp < 2 ^ Z.of_nat f ->
    exists t, render_loop (S f) temp out = Ok (out ++ t) /\
              from_string (rev t) = temp /\
              (value temp = 0 -> t = []) /\
              (value temp <> 0 -> exists c t', rev t = c :: t' /\ c <> "0"%char).
Proof.
  assert (forall temp out f', wf temp -> value temp = 0 ->
            exists t, render_loop (S f') temp out = Ok (out ++ t) /\
              from_string (rev t) = temp /\ (value temp = 0 -> t = []) /\
              (value temp <> 0 -> exists c t', rev t = c :: t' /\ c <> "0"%char)) as Hzero.
  { intros temp out f' Ht Hz. exists []. rewrite render_loop_S, neqb_value, value_of_u64, Hz
      by (assumption || apply wf_of_u64). cbn [negb Z.eqb u64 Z.modulo Z.div_eucl].
    rewrite app_nil_r. repeat split; try reflexivity; try contradiction.
    change (from_string (rev [])) with zero.
    apply wf_value_inj; [apply wf_zero | assumption |]. now rewrite value_zero, Hz. }
  induction f as [|f IH]; intros temp out Ht Hlt; pose proof (wf_value_bound temp Ht) as Hb.
  - apply Hzero; [assumption|]. change (2 ^ Z.of_nat 0) with 1 in Hlt. lia.
  - destruct (Z.eq_dec (value temp) 0) as [Hz|Hnz]; [now apply Hzero|].
    rewrite render_loop_S, neqb_value, value_of_u64 by (assumption || apply wf_of_u64).
    change (u64 0) with 0. destruct (Z.eqb_spec (value temp) 0) as [?|_]; [contradiction|].
    cbn [negb].
    assert (value (of_u64 10) = 10) as E10 by (now rewrite value_of_u64).
    destruct (rem_correct temp (of_u64 10) Ht (wf_of_u64 10)) as (dg & -> & Hwd & Hvd);
      [lia|].
    destruct (div_correct temp (of_u64 10) Ht (wf_of_u64 10)) as (q & -> & Hwq & Hvq);
      [lia|].
    cbn [bind]. rewrite E10 in Hvd, Hvq.
    pose proof (Z.mod_pos_bound (value temp) 10 ltac:(lia)) as Hd.
    pose proof (Z.div_mod (value temp) 10 ltac:(lia)) as Edm.
    rewrite word0_value by (assumption || lia). rewrite Hvd.
    set (d := value temp mod 10) in *.
    destruct (IH q (out ++ [digit_char d]) Hwq) as (t' & Er & Ef & Hz' & Hnz').
    { rewrite Nat2Z.inj_succ, Z.pow_succ_r in Hlt by lia. lia. }
    exists (digit_char d :: t'). rewrite Er, <- app_assoc. cbn [app].
    split; [reflexivity|]. cbn [rev]. rewrite from_string_snoc, Ef.
    destruct (from_string_step_digit q d Hwq Hd ltac:(lia)) as [Hws Hvs].
    split; [apply wf_value_inj; [assumption | assumption | lia]|].
    split; [contradiction|]. intros _.
    destruct (Z.eq_dec (value q) 0) as [Hq0|Hq0].
    + rewrite (Hz' Hq0). cbn [rev app]. exists (digit_char d), []. split; [reflexivity|].
      apply digit_char_nonzero. lia.
    + destruct (Hnz' Hq0) as (c & t'' & -> & Hc). exists c, (t'' ++ [digit_char d]).
      split; [reflexivity | exact Hc].
Qed.

(** * Values of the class from numbers *)

Lemma wf_of_Z x : wf (of_Z x).
Proof.
  unfold of_Z. split.
  - now rewrite length_map, length_seq.
  - apply Forall_map, Forall_forall. intros i _. cbn beta.
    apply Z.mod_pos_bound. reflexivity.
Qed.

Lemma value_of_Z_from x n : forall i,
  value (map (fun k => (x / 2 ^ (64 * Z.of_nat k)) mod 2 ^ 64) (seq i n))
  = (x / 2 ^ (64 * Z.of_nat i)) mod 2 ^ (64 * Z.of_nat n).
Proof.
  induction n as [|n IH]; intros i; cbn [seq map value].
  - change (2 ^ (64 * Z.of_nat 0)) with 1. now rewrite Z.mod_1_r.
  - rewrite IH, (pow64_S n), (pow64_S i).
    pose proof (pow64_gt0 i). pose proof (pow64_gt0 n).
    replace (x / (2 ^ 64 * 2 ^ (64 * Z.of_nat i)))
      with (x / 2 ^ (64 * Z.of_nat i) / 2 ^ 64)
      by (rewrite Z.div_div, (Z.mul_comm (2 ^ 64)) by lia; reflexivity).
    now rewrite Z.rem_mul_r by lia.
Qed.

Lemma value_of_Z x : value (of_Z x) = x mod MODULUS.
Proof.
  unfold of_Z. rewrite value_of_Z_from.
  change (2 ^ (64 * Z.of_nat 0)) with 1. rewrite Z.div_1_r. now rewrite MODULUS_words.
Qed.

(** * The specification's properties *)

(** C5: addition, subtraction and multiplication return the sum, the
    difference and the product of the operands' values reduced modulo
    [2^4096], so overflow and subtraction underflow wrap silently; the
    results are again values of the class. *)
Theorem arithmetic_wraps_mod_2_4096 a b :
  wf a -> wf b ->
  (wf (add a b) /\ value (add a b) = (value a + value b) mod 2 ^ 4096) /\
  (wf (sub a b) /\ value (sub a b) = (value a - value b) mod 2 ^ 4096) /\
  (wf (mul a b) /\ value (mul a b) = (value a * value b) mod 2 ^ 4096).
Proof.
  intros Ha Hb. change (2 ^ 4096) with MODULUS.
  exact (conj (add_correct a b Ha Hb) (conj (sub_correct a b Ha Hb) (mul_correct a b Ha Hb))).
Qed.

Lemma arithmetic_wraps_mod_2_4096_witness :
  wf (of_u64 3) /\ wf (of_u64 5) /\
  value (sub (of_u64 3) (of_u64 5)) = (value (of_u64 3) - value (of_u64 5)) mod 2 ^ 4096.
Proof.
  split; [apply wf_of_u64|]. split; [apply wf_of_u64|].
  apply (arithmetic_wraps_mod_2_4096 (of_u64 3) (of_u64 5)); apply wf_of_u64.
Defined.

(** C3: for a divisor other than zero, quotient and remainder are returned,
    [a == (a / b) * b + (a % b)] holds with the class's own operators, and
    [0 <= a % b < b]. *)
Theorem division_identity a b :
  wf a -> wf b -> eqb b (of_u64 0) = false ->
  exists q r,
    div a b = Ok q /\ rem a b = Ok r /\
    eqb a (add (mul q b) r) = true /\
    le (of_u64 0) r = true /\ lt r b = true.
Proof.
  intros Ha Hb Hnz. rewrite eqb_zero in Hnz by assumption.
  apply Z.eqb_neq in Hnz.
  destruct (div_correct a b Ha Hb Hnz) as (q & Eq & Hwq & Hvq).
  destruct (rem_correct a b Ha Hb Hnz) as (r & Er & Hwr & Hvr).
  exists q, r. split; [exact Eq|]. split; [exact Er|].
  pose proof (wf_value_bound a Ha) as HA. pose proof (wf_value_bound b Hb) as HB.
  pose proof (Z.div_mod (value a) (value b) Hnz) as Edm.
  pose proof (Z.mod_pos_bound (value a) (value b) ltac:(lia)) as Hr.
  assert (0 <= value a / value b) as Hq by (apply Z.div_pos; lia).
  destruct (mul_correct q b Hwq Hb) as [Hwm Hvm].
  rewrite Hvq, Z.mod_small in Hvm by nia.
  destruct (add_correct (mul q b) r Hwm Hwr) as [Hwa Hva].
  rewrite Hvm, Hvr, Z.mod_small in Hva by lia.
  rewrite eqb_value, le_correct, lt_correct, value_of_u64
    by (assumption || apply wf_of_u64).
  change (u64 0) with 0. rewrite Hva, Hvr.
  split; [apply Z.eqb_eq; lia|]. split; [apply Z.leb_le | apply Z.ltb_lt]; lia.
Qed.

Lemma division_identity_witness :
  wf (of_u64 17) /\ wf (of_u64 5) /\ eqb (of_u64 5) (of_u64 0) = false /\
  exists q r,
    div (of_u64 17) (of_u64 5) = Ok q /\ rem (of_u64 17) (of_u64 5) = Ok r /\
    eqb (of_u64 17) (add (mul q (of_u64 5)) r) = true /\
    le (of_u64 0) r = true /\ lt r (of_u64 5) = true.
Proof.
  split; [apply wf_of_u64|]. split; [apply wf_of_u64|]. split; [reflexivity|].
  apply (division_identity (of_u64 17) (of_u64 5));
    [apply wf_of_u64 | apply wf_of_u64 | reflexivity].
Defined.

(** C7: a left shift that loses no significant bit is undone by the right
    shift by the same count, and a left shift by 4096 or more gives zero. *)
Theorem shift_round_trip a s s' :
  wf a -> 0 <= s < 2 ^ 64 -> value a < 2 ^ (4096 - s) ->
  4096 <= s' < 2 ^ 64 ->
  eqb (shr (shl a s) s) a = true /\ eqb (shl a s') (of_u64 0) = true.
Proof.
  intros Ha Hs Hlt Hs'.
  pose proof (wf_value_bound a Ha) as HA.
  destruct (shl_correct a s Ha) as [Hw1 Hv1]; [lia|].
  destruct (shr_correct (shl a s) s Hw1) as [Hw2 Hv2]; [lia|].
  destruct (shl_correct a s' Ha) as [Hw3 Hv3]; [lia|].
  rewrite eqb_value, eqb_zero by assumption. split; apply Z.eqb_eq.
  - assert (s <= 4096) as Hle.
    { destruct (Z.le_gt_cases s 4096) as [|Hgt]; [assumption|].
      rewrite Z.pow_neg_r in Hlt by lia. lia. }
    assert (0 < 2 ^ s) as Hp by (apply Z.pow_pos_nonneg; lia).
    assert (MODULUS = 2 ^ (4096 - s) * 2 ^ s) as EM.
    { rewrite <- Z.pow_add_r by lia. unfold MODULUS. f_equal. lia. }
    rewrite Hv2, Hv1, Z.mod_small, Z.div_mul by (rewrite ?EM; nia). reflexivity.
  - assert (2 ^ s' = 2 ^ (s' - 4096) * MODULUS) as E.
    { unfold MODULUS. rewrite <- Z.pow_add_r by lia. f_equal. lia. }
    rewrite Hv3, E, Z.mul_assoc, Z.mod_mul; [reflexivity|].
    pose proof MODULUS_pos. lia.
Qed.

Lemma shift_round_trip_witness :
  wf (of_u64 5) /\ 0 <= 100 < 2 ^ 64 /\ value (of_u64 5) < 2 ^ (4096 - 100) /\
  4096 <= 5000 < 2 ^ 64 /\
  eqb (shr (shl (of_u64 5) 100) 100) (of_u64 5) = true /\
  eqb (shl (of_u64 5) 5000) (of_u64 0) = true.
Proof.
  split; [apply wf_of_u64|]. split; [lia|]. split; [reflexivity|]. split; [lia|].
  apply (shift_round_trip (of_u64 5) 100 5000);
    [apply wf_of_u64 | lia | reflexivity | lia].
Defined.

Lemma modExp_returns base exp m :
  wf base -> wf exp -> wf m -> value m <> 0 ->
  exists r, modExp base exp m = Ok r /\ wf r /\
            modExp_Z (value base) (value exp) (value m) = Ok (value r).
Proof.
  intros Hb He Hm Hnz. pose proof (modExp_refines base exp m Hb He Hm) as H.
  destruct (modExp_Z_total (value base) (value exp) (value m)
              (wf_value_bound exp He) Hnz) as [z Ez].
  rewrite Ez in H. destruct (modExp base exp m) as [r| | |]; try contradiction.
  destruct H as [Hwf <-]. exists r. split; [reflexivity|]. split; [exact Hwf | exact Ez].
Qed.

Lemma isPrime_outcome n rounds :
  wf n ->
  (exists b, isPrime n rounds = Ok b) \/ (isPrime n rounds = Undefined /\ 5 < rounds).
Proof.
  intros Hn. rewrite isPrime_refines by assumption.
  apply isPrime_Z_outcome, wf_value_bound, Hn.
Qed.

(** C4: division, modulo and [modExp] with a zero divisor or modulus throw
    the one exception kind of the class and return nothing; with any other
    divisor or modulus they return a value, and [isPrime] never throws. *)
Theorem division_by_zero_is_the_only_error a b e rounds :
  wf a -> wf b -> wf e ->
  (div a (of_u64 0) = Throw (runtime_error "Modulo by zero") /\
   rem a (of_u64 0) = Throw (runtime_error "Modulo by zero") /\
   modExp a e (of_u64 0) = Throw (runtime_error "modulo by zero")) /\
  (if eqb b (of_u64 0)
   then div a b = Throw (runtime_error "Modulo by zero") /\
        rem a b = Throw (runtime_error "Modulo by zero") /\
        modExp a e b = Throw (runtime_error "modulo by zero")
   else (exists q, div a b = Ok q) /\ (exists r, rem a b = Ok r) /\
        (exists x, modExp a e b = Ok x)) /\
  (forall ex, isPrime a rounds <> Throw ex).
Proof.
  intros Ha Hb He. split; [repeat split|]. split.
  - destruct (eqb b (of_u64 0)) eqn:Hz.
    + unfold div, rem, modExp. rewrite Hz. repeat split.
    + rewrite eqb_zero in Hz by assumption. apply Z.eqb_neq in Hz.
      destruct (div_correct a b Ha Hb Hz) as (q & Eq & _).
      destruct (rem_correct a b Ha Hb Hz) as (r & Er & _).
      destruct (modExp_returns a e b Ha He Hb Hz) as (x & Ex & _).
      split; [exists q; exact Eq | split; [exists r; exact Er | exists x; exact Ex]].
  - intros ex. destruct (isPrime_outcome a rounds Ha) as [[bo ->]|[-> _]]; discriminate.
Qed.

Lemma division_by_zero_is_the_only_error_witness :
  wf (of_u64 17) /\ wf (of_u64 5) /\ wf (of_u64 3) /\
  div (of_u64 17) (of_u64 0) = Throw (runtime_error "Modulo by zero") /\
  (exists q, div (of_u64 17) (of_u64 5) = Ok q).
Proof.
  split; [apply wf_of_u64|]. split; [apply wf_of_u64|]. split; [apply wf_of_u64|].
  pose proof (division_by_zero_is_the_only_error (of_u64 17) (of_u64 5) (of_u64 3) 5
                (wf_of_u64 17) (wf_of_u64 5) (wf_of_u64 3)) as [[Hd _] [Hok _]].
  split; [exact Hd|].
  change (eqb (of_u64 5) (of_u64 0)) with false in Hok. exact (proj1 Hok).
Defined.

(** C6: rendering a value and parsing the text gives the value back, and
    the text starts with the digit zero only when it is the one-character
    text of the value zero. *)
Theorem render_round_trip x :
  wf x ->
  exists s,
    render x = Ok s /\ from_string s = x /\
    match s with
    | [] => False
    | c :: t => c = "0"%char -> t = [] /\ value x = 0
    end.
Proof.
  intros Hx. unfold render. rewrite eqb_zero by assumption.
  destruct (Z.eqb_spec (value x) 0) as [Hz|Hnz].
  - exists ["0"%char]. split; [reflexivity|]. split; [|now split].
    apply wf_value_inj; [| assumption |].
    + change (from_string ["0"%char]) with (add (mul zero (of_u64 10)) (of_u64 0)).
      apply add_correct; [apply mul_correct; [apply wf_zero | apply wf_of_u64] | apply wf_of_u64].
    + change (from_string ["0"%char]) with (from_string_step zero (digit_char 0)).
      destruct (from_string_step_digit zero 0 wf_zero) as [_ ->];
        rewrite ?value_zero; pose proof MODULUS_pos; lia.
  - destruct (render_loop_correct NUM_BITS x [] Hx) as (t & -> & Ef & _ & Hlead).
    { rewrite MODULUS_bits. apply wf_value_bound, Hx. }
    cbn [bind app]. exists (rev t). split; [reflexivity|]. split; [exact Ef|].
    destruct (Hlead Hnz) as (c & t' & -> & Hc). intros E. contradiction.
Qed.

Lemma render_round_trip_witness :
  wf (of_u64 1205) /\
  exists s, render (of_u64 1205) = Ok s /\ from_string s = of_u64 1205 /\
    match s with
    | [] => False
    | c :: t => c = "0"%char -> t = [] /\ value (of_u64 1205) = 0
    end.
Proof.
  split; [apply wf_of_u64|]. apply (render_round_trip (of_u64 1205)). apply wf_of_u64.
Defined.

(** C8: with [0 <= rounds <= 5] every index at which the witness loop reads
    [basePrimes] is below its five entries, and [isPrime] returns a result. *)
Theorem isPrime_reads_in_bounds n rounds :
  wf n -> 0 <= rounds <= 5 ->
  (forall i, (i < Z.to_nat rounds)%nat -> exists p, basePrimes !! i = Some p) /\
  exists b, isPrime n rounds = Ok b.
Proof.
  intros Hn Hr. split.
  - intros i Hi. apply lookup_lt_is_Some_2. cbn. lia.
  - destruct (isPrime_outcome n rounds Hn) as [H|[_ H]]; [exact H | lia].
Qed.

(** With six rounds the loop reads [basePrimes[5]] once the five witnesses
    have passed: 13 is the smallest such input. *)
Example isPrime_six_rounds_reads_past_the_table :
  isPrime (of_u64 13) 6 = Undefined /\ isPrime (of_u64 15) 6 = Ok false.
Proof.
  rewrite !isPrime_refines by apply wf_of_u64. vm_compute. split; reflexivity.
Qed.

Lemma isPrime_reads_in_bounds_witness :
  wf (of_u64 13) /\ 0 <= 5 <= 5 /\ exists b, isPrime (of_u64 13) 5 = Ok b.
Proof.
  split; [apply wf_of_u64|]. split; [lia|].
  apply (isPrime_reads_in_bounds (of_u64 13) 5); [apply wf_of_u64 | lia].
Defined.

(** C10: with [rounds <= 0] the witness loop does not run, and every odd
    number from 5 on is reported prime. *)
Theorem isPrime_without_rounds n rounds :
  wf n -> 5 <= value n -> Z.odd (value n) = true -> rounds <= 0 ->
  isPrime n rounds = Ok true.
Proof.
  intros Hn H5 Hodd Hr. rewrite isPrime_refines by assumption.
  pose proof (wf_value_bound n Hn). apply isPrime_Z_no_rounds; [lia | assumption | assumption].
Qed.

Lemma isPrime_without_rounds_witness :
  wf (of_u64 9) /\ 5 <= value (of_u64 9) /\ Z.odd (value (of_u64 9)) = true /\ 0 <= 0 /\
  isPrime (of_u64 9) 0 = Ok true.
Proof.
  split; [apply wf_of_u64|]. split; [vm_compute; discriminate|].
  split; [reflexivity|]. split; [lia|].
  apply (isPrime_without_rounds (of_u64 9) 0);
    [apply wf_of_u64 | vm_compute; discriminate | reflexivity | lia].
Defined.

Lemma of_Z_value r : wf r -> of_Z (value r) = r.
Proof.
  intros Hr. apply wf_value_inj; [apply wf_of_Z | assumption |].
  rewrite value_of_Z. apply Z.mod_small, wf_value_bound, Hr.
Qed.

Lemma of_u64_of_Z z : 0 <= z < 2 ^ 64 -> of_Z z = of_u64 z.
Proof.
  intros Hz. apply wf_value_inj; [apply wf_of_Z | apply wf_of_u64 |].
  rewrite value_of_Z, value_of_u64, u64_small by assumption.
  apply Z.mod_small. split; [lia|].
  apply Z.lt_trans with (2 ^ 64); [lia | reflexivity].
Qed.

(** Running [modExp] by running its value-level form. *)
Lemma modExp_eval base exp m z :
  wf base -> wf exp -> wf m ->
  modExp_Z (value base) (value exp) (value m) = Ok z ->
  modExp base exp m = Ok (of_Z z).
Proof.
  intros Hb He Hm Ez. pose proof (modExp_refines base exp m Hb He Hm) as H.
  rewrite Ez in H. destruct (modExp base exp m) as [r| | |]; try contradiction.
  destruct H as [Hwf <-]. now rewrite of_Z_value.
Qed.

Lemma modExp_eval_u64 b e m z :
  modExp_Z (value (of_u64 b)) (value (of_u64 e)) (value (of_u64 m)) = Ok z ->
  0 <= z < 2 ^ 64 ->
  modExp (of_u64 b) (of_u64 e) (of_u64 m) = Ok (of_u64 z).
Proof.
  intros Ez Hz. rewrite <- (of_u64_of_Z z Hz).
  apply modExp_eval; assumption || apply wf_of_u64.
Qed.

(** [modExp] on three one-word operands, by evaluation. *)
Ltac eval_modExp :=
  apply modExp_eval_u64;
  [vm_compute; reflexivity | vm_compute; split; discriminate || reflexivity].

Lemma modExp_correct b e m :
  wf b -> wf e -> wf m ->
  0 < value m <= SQRT_MODULUS -> (value m = 1 -> value e <> 0) ->
  exists r, modExp b e m = Ok r /\ wf r /\ value r = value b ^ value e mod value m.
Proof.
  intros Hb He Hm Hr H1.
  destruct (modExp_returns b e m Hb He Hm ltac:(lia)) as (r & Er & Hwr & Ez).
  rewrite (modExp_Z_correct _ _ _ (wf_value_bound e He) Hr H1) in Ez.
  exists r. split; [exact Er|]. split; [exact Hwr|]. congruence.
Qed.

Lemma wf_two_pow_2048 : wf two_pow_2048.
Proof. apply wf_insert; [apply wf_zero | split; [discriminate | reflexivity]]. Qed.

Lemma wf_all_ones : wf all_ones.
Proof.
  split; [apply length_replicate|].
  apply Forall_replicate. split; [discriminate | reflexivity].
Qed.

(** The counterexample to C2 as stated: [modExp(0, 0, 1)] returns 1 where
    [0^0 mod 1] is 0, and [modExp(2^2048, 2, 2^4096 - 1)] returns 0 where
    the power modulo the modulus is 1, the square having wrapped. *)
Lemma modExp_differs_from_power :
  (wf (of_u64 0) /\ wf (of_u64 1) /\ value (of_u64 1) <> 0 /\
   exists r, modExp (of_u64 0) (of_u64 0) (of_u64 1) = Ok r /\ value r = 1 /\
             value (of_u64 0) ^ value (of_u64 0) mod value (of_u64 1) = 0) /\
  (wf two_pow_2048 /\ wf (of_u64 2) /\ wf all_ones /\
   value two_pow_2048 = 2 ^ 2048 /\ value all_ones = 2 ^ 4096 - 1 /\
   value all_ones <> 0 /\
   exists r, modExp two_pow_2048 (of_u64 2) all_ones = Ok r /\
             value r = 0 /\
             value two_pow_2048 ^ value (of_u64 2) mod value all_ones = 1).
Proof.
  split.
  - split; [apply wf_of_u64|]. split; [apply wf_of_u64|]. split; [vm_compute; discriminate|].
    exists (of_u64 1). split; [|split; vm_compute; reflexivity].
    eval_modExp.
  - split; [apply wf_two_pow_2048|]. split; [apply wf_of_u64|]. split; [apply wf_all_ones|].
    split; [vm_compute; reflexivity|]. split; [vm_compute; reflexivity|].
    split; [vm_compute; discriminate|].
    exists (of_Z 0). split; [|split; vm_compute; reflexivity].
    apply modExp_eval; [apply wf_two_pow_2048 | apply wf_of_u64 | apply wf_all_ones |].
    vm_compute. reflexivity.
Qed.

(** C2, amended: for a modulus from 1 to [2^2048], other than modulus 1 with
    exponent 0, [modExp] returns [base^exp mod m], itself a value of the
    class; the two sample values hold, and exponent 0 gives 1 for every
    modulus above 1.  Up to [2^2048] no product of two residues wraps; the
    first result stays 1 when the exponent is 0, whatever the modulus. *)
Theorem modExp_power_mod b e m :
  wf b -> wf e -> wf m ->
  0 < value m <= 2 ^ 2048 -> (value m = 1 -> value e <> 0) ->
  (exists r, modExp b e m = Ok r /\ wf r /\ value r = value b ^ value e mod value m) /\
  modExp (of_u64 4) (of_u64 13) (of_u64 497) = Ok (of_u64 445) /\
  modExp (of_u64 2) (of_u64 10) (of_u64 1000) = Ok (of_u64 24) /\
  (forall m', wf m' -> 1 < value m' -> modExp b (of_u64 0) m' = Ok (of_u64 1)).
Proof.
  intros Hb He Hm Hr H1. change (2 ^ 2048) with SQRT_MODULUS in Hr.
  split; [now apply modExp_correct|].
  split; [eval_modExp|]. split; [eval_modExp|].
  intros m' Hm' Hgt.
  rewrite <- (of_u64_of_Z 1) by (split; [discriminate | reflexivity]).
  apply modExp_eval; [assumption | apply wf_of_u64 | assumption |].
  unfold modExp_Z. destruct (Z.eqb_spec (value m') 0); [lia|].
  rewrite modExp_loop_Z_S. now rewrite value_of_u64.
Qed.

Lemma modExp_power_mod_witness :
  wf (of_u64 4) /\ wf (of_u64 13) /\ wf (of_u64 497) /\
  0 < value (of_u64 497) <= 2 ^ 2048 /\
  (value (of_u64 497) = 1 -> value (of_u64 13) <> 0) /\
  exists r, modExp (of_u64 4) (of_u64 13) (of_u64 497) = Ok r /\ wf r /\
            value r = value (of_u64 4) ^ value (of_u64 13) mod value (of_u64 497).
Proof.
  assert (0 < value (of_u64 497) <= 2 ^ 2048) as Hr
    by (vm_compute; split; [reflexivity | discriminate]).
  assert (value (of_u64 497) = 1 -> value (of_u64 13) <> 0) as H1
    by (vm_compute; discriminate).
  split; [apply wf_of_u64|]. split; [apply wf_of_u64|]. split; [apply wf_of_u64|].
  split; [exact Hr|]. split; [exact H1|].
  apply (modExp_power_mod (of_u64 4) (of_u64 13) (of_u64 497));
    [apply wf_of_u64 | apply wf_of_u64 | apply wf_of_u64 | exact Hr | exact H1].
Defined.

Lemma pow_self_mod n d : n <> 0 -> 0 < d -> n ^ d mod n = 0.
Proof.
  intros Hn Hd. replace d with (1 + (d - 1)) by lia.
  rewrite Z.pow_add_r, Z.pow_1_r, Z.mul_comm by lia. now apply Z.mod_mul.
Qed.

(** A base equal to the modulus: the result is zero for every exponent
    other than zero. *)
Lemma modExp_base_is_modulus n d :
  wf n -> wf d -> 1 < value n <= SQRT_MODULUS -> value d <> 0 ->
  modExp n d n = Ok zero.
Proof.
  intros Hn Hd Hr Hnz. pose proof (wf_value_bound d Hd).
  destruct (modExp_correct n d n Hn Hd Hn) as (r & -> & Hwr & Hv); [lia | lia|].
  rewrite pow_self_mod in Hv by lia. f_equal.
  apply wf_value_inj; [assumption | apply wf_zero | now rewrite value_zero].
Qed.

Lemma square_loop_from_zero k n :
  wf n -> 2 < value n <= SQRT_MODULUS -> square_loop k zero n = Ok false.
Proof.
  intros Hn Hr. induction k as [|k IH]; cbn [square_loop]; [reflexivity|].
  destruct (modExp_correct zero (of_u64 2) n wf_zero (wf_of_u64 2) Hn) as (r & -> & Hwr & Hv);
    [lia | lia|].
  rewrite value_zero, value_of_u64 in Hv. change (u64 2) with 2 in Hv.
  change (0 ^ 2) with 0 in Hv. rewrite Z.mod_0_l in Hv by lia.
  assert (r = zero) as ->
    by (apply wf_value_inj; [assumption | apply wf_zero | now rewrite value_zero]).
  cbn [bind]. rewrite eqb_pred, value_zero by (assumption || apply wf_zero).
  pose proof (wf_value_bound n Hn).
  rewrite Z.mod_small by lia.
  destruct (Z.eqb_spec 0 (value n - 1)); [lia | exact IH].
Qed.

(** C9: 5, 7 and 11 are in the witness table and are reported composite
    under the default five rounds: with the number itself as base [modExp]
    returns zero for every exponent other than zero, zero is neither 1 nor
    [n - 1], and squaring zero never gives [n - 1]. *)
Theorem isPrime_rejects_its_own_witnesses n :
  In n [5; 7; 11] ->
  In n basePrimes /\
  isPrime (of_u64 n) 5 = Ok false /\
  (forall d, wf d -> value d <> 0 -> modExp (of_u64 n) d (of_u64 n) = Ok zero) /\
  eqb zero (of_u64 1) = false /\
  eqb zero (sub (of_u64 n) (of_u64 1)) = false /\
  (forall k, square_loop k zero (of_u64 n) = Ok false).
Proof.
  intros Hin.
  assert (n = 5 \/ n = 7 \/ n = 11) as Hn by (cbn in Hin; intuition congruence).
  assert (2 < value (of_u64 n) <= SQRT_MODULUS) as Hr.
  { destruct Hn as [->|[->| ->]]; vm_compute; split; reflexivity || discriminate. }
  split; [destruct Hn as [->|[->| ->]]; cbn; tauto|].
  split; [destruct Hn as [->|[->| ->]];
          rewrite isPrime_refines by apply wf_of_u64; vm_compute; reflexivity|].
  split; [intros d Hd Hnz; apply modExp_base_is_modulus;
          [apply wf_of_u64 | assumption | lia | assumption]|].
  split; [reflexivity|].
  split; [destruct Hn as [->|[->| ->]]; rewrite eqb_pred by (apply wf_zero || apply wf_of_u64);
          vm_compute; reflexivity|].
  intros k. apply square_loop_from_zero; [apply wf_of_u64 | exact Hr].
Qed.

Lemma isPrime_rejects_its_own_witnesses_witness :
  In 7 [5; 7; 11] /\ isPrime (of_u64 7) 5 = Ok false.
Proof.
  assert (In 7 [5; 7; 11]) as Hin by (right; left; reflexivity).
  split; [exact Hin|].
  exact (proj1 (proj2 (isPrime_rejects_its_own_witnesses 7 Hin))).
Defined.

(** C1, on the code: under the default five rounds [isPrime] returns true
    for 2, 3, 17, 97 and 7919 and false for 0, 1, 4, 9, 100, 9999 and 561,
    but false for the prime 5. *)
Theorem isPrime_default_rounds_table :
  (isPrime (of_u64 2) 5 = Ok true /\ isPrime (of_u64 3) 5 = Ok true /\
   isPrime (of_u64 17) 5 = Ok true /\ isPrime (of_u64 97) 5 = Ok true /\
   isPrime (of_u64 7919) 5 = Ok true) /\
  (isPrime (of_u64 0) 5 = Ok false /\ isPrime (of_u64 1) 5 = Ok false /\
   isPrime (of_u64 4) 5 = Ok false /\ isPrime (of_u64 9) 5 = Ok false /\
   isPrime (of_u64 100) 5 = Ok false /\ isPrime (of_u64 9999) 5 = Ok false) /\
  isPrime (of_u64 561) 5 = Ok false /\
  isPrime (of_u64 5) 5 = Ok false.
Proof.
  rewrite !isPrime_refines by apply wf_of_u64. vm_compute.
  repeat split; reflexivity.
Qed.

(** * Bitwise operators *)

Lemma bits_below z n :
  0 <= n -> 0 <= z -> (forall m, n <= m -> Z.testbit z m = false) -> z < 2 ^ n.
Proof.
  intros Hn Hz H. assert (z = z mod 2 ^ n) as ->.
  { apply Z.bits_inj'. intros m Hm. destruct (Z.lt_ge_cases m n).
    - now rewrite Z.mod_pow2_bits_low.
    - rewrite Z.mod_pow2_bits_high by lia. now apply H. }
  apply Z.mod_pos_bound. apply Z.pow_pos_nonneg; lia.
Qed.

Lemma bits_range z k :
  0 <= k -> 0 <= z < 2 ^ k <-> (0 <= z /\ forall m, k <= m -> Z.testbit z m = false).
Proof.
  intros Hk. split.
  - intros Hz. split; [lia|]. intros m Hm. now apply (testbit_above z k m).
  - intros [Hz H]. split; [exact Hz | now apply bits_below].
Qed.

(** A loop that writes [f i] to word [i] for every [i]. *)
Lemma for_up_words (f : nat -> Z) :
  (forall i, (i < NUM_WORDS)%nat -> 0 <= f i < 2 ^ 64) ->
  let res := for_up NUM_WORDS 0 (fun i res => <[i := f i]> res) zero in
  wf res /\ forall k, (k < NUM_WORDS)%nat -> res.[k] = f k.
Proof.
  intros Hf res. subst res.
  pose (P := fun (n : nat) (res : list Z) =>
    wf res /\ forall k, (k < n)%nat -> res.[k] = f k).
  assert (P (0 + NUM_WORDS)%nat
            (for_up NUM_WORDS 0 (fun i res => <[i := f i]> res) zero)) as HP.
  { apply for_up_ind.
    - split; [apply wf_zero|]. intros k Hk. lia.
    - intros i res Hi [Hres Hw]. split; [apply wf_insert; [assumption | apply Hf; lia]|].
      intros k Hk. destruct (Nat.eq_dec k i) as [->|Hne].
      + apply word_insert_eq. rewrite (wf_length _ Hres). lia.
      + rewrite word_insert_ne by congruence. apply Hw. lia. }
  exact HP.
Qed.

Lemma bitwise_correct (op : Z -> Z -> Z) (bop : bool -> bool -> bool) a b :
  (forall x y m, Z.testbit (op x y) m = bop (Z.testbit x m) (Z.testbit y m)) ->
  (forall x y, 0 <= x -> 0 <= y -> 0 <= op x y) ->
  bop false false = false ->
  wf a -> wf b ->
  let res := for_up NUM_WORDS 0 (fun i res => <[i := op a.[i] b.[i]]> res) zero in
  wf res /\ value res = op (value a) (value b).
Proof.
  intros Hbit Hnn Hff Ha Hb res.
  assert (forall x y, 0 <= x < 2 ^ 64 -> 0 <= y < 2 ^ 64 -> 0 <= op x y < 2 ^ 64) as Hr.
  { intros x y Hx Hy. apply bits_range; [lia|]. split; [apply Hnn; lia|].
    intros m Hm. rewrite Hbit, !testbit_word_high by (assumption || lia). exact Hff. }
  destruct (for_up_words (fun i => op a.[i] b.[i])) as [Hwf Hw].
  { intros i _. apply Hr; apply word_range; now apply wf_words. }
  fold res in Hwf, Hw. split; [exact Hwf|].
  pose proof (wf_value_bound a Ha) as HA. pose proof (wf_value_bound b Hb) as HB.
  apply value_eq_bits; [exact Hwf | |].
  - apply (bits_range _ 4096); [lia|]. split; [apply Hnn; lia|].
    intros m Hm. rewrite Hbit.
    rewrite (testbit_above (value a) 4096 m HA Hm), (testbit_above (value b) 4096 m HB Hm).
    exact Hff.
  - intros k m Hk Hm. rewrite Hw, !Hbit by assumption.
    now rewrite !testbit_value by (try apply wf_words; assumption).
Qed.

Lemma band_correct a b :
  wf a -> wf b -> wf (band a b) /\ value (band a b) = Z.land (value a) (value b).
Proof.
  intros Ha Hb. apply (bitwise_correct Z.land andb); try assumption.
  - intros. apply Z.land_spec.
  - intros. apply Z.land_nonneg. now left.
  - reflexivity.
Qed.

Lemma bor_correct a b :
  wf a -> wf b -> wf (bor a b) /\ value (bor a b) = Z.lor (value a) (value b).
Proof.
  intros Ha Hb. apply (bitwise_correct Z.lor orb); try assumption.
  - intros. apply Z.lor_spec.
  - intros. now apply Z.lor_nonneg.
  - reflexivity.
Qed.

Lemma bxor_correct a b :
  wf a -> wf b -> wf (bxor a b) /\ value (bxor a b) = Z.lxor (value a) (value b).
Proof.
  intros Ha Hb. apply (bitwise_correct Z.lxor xorb); try assumption.
  - intros. apply Z.lxor_spec.
  - intros. now apply Z.lxor_nonneg.
  - reflexivity.
Qed.

Lemma u64_lnot x : 0 <= x < 2 ^ 64 -> u64 (Z.lnot x) = 2 ^ 64 - 1 - x.
Proof.
  intros Hx. unfold u64, Z.lnot. symmetry.
  apply Z.mod_unique with (q := -1); lia.
Qed.

Lemma bnot_correct a :
  wf a -> wf (bnot a) /\ value (bnot a) = MODULUS - 1 - value a.
Proof.
  intros Ha. unfold bnot.
  destruct (for_up_words (fun i => u64 (Z.lnot a.[i]))) as [Hwf Hw];
    [intros i _; apply u64_range|].
  split; [exact Hwf|].
  set (res := for_up _ _ _ _) in *.
  assert (forall n, (n <= NUM_WORDS)%nat ->
            value (take n res) = 2 ^ (64 * Z.of_nat n) - 1 - value (take n a)) as H.
  { induction n as [|n IH]; intros Hn.
    - now rewrite !take_0.
    - rewrite !value_take_S, IH, Hw, u64_lnot, pow64_S by
        (lia || apply word_range; now apply wf_words).
      ring. }
  specialize (H NUM_WORDS (Nat.le_refl _)).
  rewrite !take_wf, MODULUS_words in H by assumption. exact H.
Qed.

Lemma to_bool_correct a : wf a -> to_bool a = negb (value a =? 0).
Proof.
  intros [_ Ha]. unfold to_bool. induction Ha as [|w a Hw Ha IH]; [reflexivity|].
  cbn [existsb value]. rewrite IH. pose proof (value_bound a Ha).
  destruct (Z.eqb_spec w 0), (Z.eqb_spec (value a) 0), (Z.eqb_spec (w + 2 ^ 64 * value a) 0);
    cbn; try reflexivity; lia.
Qed.

(** * Further properties of the class *)

Lemma wf_eq_by_value a b : wf a -> wf b -> value a = value b -> eqb a b = true.
Proof. intros Ha Hb E. apply eqb_eq. now apply wf_value_inj. Qed.

Lemma value_one : value (of_u64 1) = 1.
Proof. now rewrite value_of_u64. Qed.

(** X1: addition and subtraction undo each other for all operands, wrapped
    or not, and zero is neutral. *)
Theorem add_sub_inverse a b :
  wf a -> wf b ->
  sub (add a b) b = a /\ add (sub a b) b = a /\
  add a (of_u64 0) = a /\ sub a a = of_u64 0 /\ add a b = add b a.
Proof.
  intros Ha Hb. pose proof (wf_value_bound a Ha) as HA.
  destruct (add_correct a b Ha Hb) as [Hw1 Hv1].
  destruct (sub_correct (add a b) b Hw1 Hb) as [Hw2 Hv2].
  destruct (sub_correct a b Ha Hb) as [Hw3 Hv3].
  destruct (add_correct (sub a b) b Hw3 Hb) as [Hw4 Hv4].
  destruct (add_correct a (of_u64 0) Ha (wf_of_u64 0)) as [Hw5 Hv5].
  destruct (sub_correct a a Ha Ha) as [Hw6 Hv6].
  destruct (add_correct b a Hb Ha) as [Hw7 Hv7].
  pose proof MODULUS_pos as HM.
  repeat split; apply wf_value_inj; try assumption; try apply wf_of_u64.
  - rewrite Hv2, Hv1, Zminus_mod_idemp_l.
    replace (value a + value b - value b) with (value a) by ring. now apply Z.mod_small.
  - rewrite Hv4, Hv3, Zplus_mod_idemp_l.
    replace (value a - value b + value b) with (value a) by ring. now apply Z.mod_small.
  - rewrite Hv5, value_of_u64. change (u64 0) with 0. rewrite Z.add_0_r. now apply Z.mod_small.
  - rewrite Hv6, value_of_u64, Z.sub_diag. reflexivity.
  - rewrite Hv1, Hv7. f_equal. ring.
Qed.

Lemma add_sub_inverse_witness :
  wf all_ones /\ wf (of_u64 5) /\ sub (add all_ones (of_u64 5)) (of_u64 5) = all_ones.
Proof.
  split; [apply wf_all_ones|]. split; [apply wf_of_u64|].
  exact (proj1 (add_sub_inverse all_ones (of_u64 5) wf_all_ones (wf_of_u64 5))).
Defined.

(** X2: multiplication is commutative and associative, distributes over
    addition and has one as its unit, all modulo [2^4096]; the skipping of
    zero words of the left operand does not show in the result. *)
Theorem mul_ring_laws a b c :
  wf a -> wf b -> wf c ->
  mul a b = mul b a /\
  mul (mul a b) c = mul a (mul b c) /\
  mul a (add b c) = add (mul a b) (mul a c) /\
  mul a (of_u64 1) = a /\ mul a (of_u64 0) = of_u64 0.
Proof.
  intros Ha Hb Hc. pose proof (wf_value_bound a Ha) as HA. pose proof MODULUS_pos as HM.
  destruct (mul_correct a b Ha Hb) as [Hwab Hvab].
  destruct (mul_correct b a Hb Ha) as [Hwba Hvba].
  destruct (mul_correct b c Hb Hc) as [Hwbc Hvbc].
  destruct (mul_correct a c Ha Hc) as [Hwac Hvac].
  destruct (add_correct b c Hb Hc) as [Hwb_c Hvb_c].
  destruct (mul_correct (mul a b) c Hwab Hc) as [Hw1 Hv1].
  destruct (mul_correct a (mul b c) Ha Hwbc) as [Hw2 Hv2].
  destruct (mul_correct a (add b c) Ha Hwb_c) as [Hw3 Hv3].
  destruct (add_correct (mul a b) (mul a c) Hwab Hwac) as [Hw4 Hv4].
  destruct (mul_correct a (of_u64 1) Ha (wf_of_u64 1)) as [Hw5 Hv5].
  destruct (mul_correct a (of_u64 0) Ha (wf_of_u64 0)) as [Hw6 Hv6].
  repeat split; apply wf_value_inj; try assumption; try apply wf_of_u64.
  - rewrite Hvab, Hvba. f_equal. ring.
  - rewrite Hv1, Hv2, Hvab, Hvbc, Z.mul_mod_idemp_l, Z.mul_mod_idemp_r by lia.
    f_equal. ring.
  - rewrite Hv3, Hv4, Hvb_c, Hvab, Hvac, Z.mul_mod_idemp_r, <- Z.add_mod by lia.
    f_equal. ring.
  - rewrite Hv5, value_one, Z.mul_1_r. now apply Z.mod_small.
  - rewrite Hv6, value_of_u64. change (u64 0) with 0. now rewrite Z.mul_0_r.
Qed.

Lemma mul_ring_laws_witness :
  wf all_ones /\ wf (of_u64 3) /\ wf two_pow_2048 /\
  mul all_ones (add (of_u64 3) two_pow_2048)
  = add (mul all_ones (of_u64 3)) (mul all_ones two_pow_2048).
Proof.
  split; [apply wf_all_ones|]. split; [apply wf_of_u64|]. split; [apply wf_two_pow_2048|].
  exact (proj1 (proj2 (proj2 (mul_ring_laws all_ones (of_u64 3) two_pow_2048
                                wf_all_ones (wf_of_u64 3) wf_two_pow_2048)))).
Defined.

(** X3: [&], [|] and [^] are the bitwise and, or and exclusive or of the
    operands' values. *)
Theorem bitwise_operators_on_values a b :
  wf a -> wf b ->
  (wf (band a b) /\ value (band a b) = Z.land (value a) (value b)) /\
  (wf (bor a b) /\ value (bor a b) = Z.lor (value a) (value b)) /\
  (wf (bxor a b) /\ value (bxor a b) = Z.lxor (value a) (value b)).
Proof.
  intros Ha Hb.
  exact (conj (band_correct a b Ha Hb) (conj (bor_correct a b Ha Hb) (bxor_correct a b Ha Hb))).
Qed.

Lemma bitwise_operators_on_values_witness :
  wf (of_u64 12) /\ wf (of_u64 10) /\
  value (bxor (of_u64 12) (of_u64 10)) = Z.lxor (value (of_u64 12)) (value (of_u64 10)).
Proof.
  split; [apply wf_of_u64|]. split; [apply wf_of_u64|].
  exact (proj2 (proj2 (proj2 (bitwise_operators_on_values (of_u64 12) (of_u64 10)
                                (wf_of_u64 12) (wf_of_u64 10))))).
Defined.

(** X4: [~a] is [2^4096 - 1 - a], complementing twice gives [a] back, and
    subtraction is addition of the two's complement [~b + 1]. *)
Theorem complement_and_subtraction a b :
  wf a -> wf b ->
  (wf (bnot a) /\ value (bnot a) = 2 ^ 4096 - 1 - value a) /\
  bnot (bnot a) = a /\
  sub a b = add a (add (bnot b) (of_u64 1)).
Proof.
  intros Ha Hb. change (2 ^ 4096) with MODULUS.
  pose proof (wf_value_bound a Ha) as HA. pose proof (wf_value_bound b Hb) as HB.
  pose proof MODULUS_pos as HM.
  destruct (bnot_correct a Ha) as [Hw1 Hv1].
  destruct (bnot_correct (bnot a) Hw1) as [Hw2 Hv2].
  destruct (bnot_correct b Hb) as [Hw3 Hv3].
  destruct (add_correct (bnot b) (of_u64 1) Hw3 (wf_of_u64 1)) as [Hw4 Hv4].
  destruct (add_correct a (add (bnot b) (of_u64 1)) Ha Hw4) as [Hw5 Hv5].
  destruct (sub_correct a b Ha Hb) as [Hw6 Hv6].
  split; [now split|]. split; apply wf_value_inj; try assumption.
  - rewrite Hv2, Hv1. ring.
  - rewrite Hv6, Hv5, Hv4, Hv3, value_one, Z.add_mod_idemp_r by lia.
    replace (value a + (MODULUS - 1 - value b + 1)) with (value a - value b + 1 * MODULUS) by ring.
    now rewrite Z.mod_add by lia.
Qed.

Lemma complement_and_subtraction_witness :
  wf (of_u64 3) /\ wf (of_u64 5) /\
  sub (of_u64 3) (of_u64 5) = add (of_u64 3) (add (bnot (of_u64 5)) (of_u64 1)).
Proof.
  split; [apply wf_of_u64|]. split; [apply wf_of_u64|].
  exact (proj2 (proj2 (complement_and_subtraction (of_u64 3) (of_u64 5)
                         (wf_of_u64 3) (wf_of_u64 5)))).
Defined.

(** X5: the conversion to [bool] is true exactly for the values other than
    zero, and agrees with [!= 0]. *)
Theorem to_bool_is_nonzero a :
  wf a -> to_bool a = negb (value a =? 0) /\ to_bool a = neqb a (of_u64 0).
Proof.
  intros Ha. rewrite to_bool_correct, neqb_value, value_of_u64 by (assumption || apply wf_of_u64).
  now split.
Qed.

Lemma to_bool_is_nonzero_witness :
  wf two_pow_2048 /\ to_bool two_pow_2048 = negb (value two_pow_2048 =? 0).
Proof.
  split; [apply wf_two_pow_2048|].
  exact (proj1 (to_bool_is_nonzero two_pow_2048 wf_two_pow_2048)).
Defined.

(** X6: the six comparison operators are the comparisons of the operands'
    values, so exactly one of [a < b], [a == b], [a > b] holds. *)
Theorem comparisons_on_values a b :
  wf a -> wf b ->
  lt a b = (value a <? value b) /\ gt a b = (value b <? value a) /\
  le a b = (value a <=? value b) /\ ge a b = (value b <=? value a) /\
  eqb a b = (value a =? value b) /\ neqb a b = negb (value a =? value b) /\
  (if lt a b then eqb a b = false /\ gt a b = false
   else if eqb a b then gt a b = false else gt a b = true).
Proof.
  intros Ha Hb.
  rewrite lt_correct, gt_correct, le_correct, ge_correct, neqb_value, eqb_value by assumption.
  repeat split.
  destruct (Z.ltb_spec (value a) (value b)), (Z.eqb_spec (value a) (value b)),
    (Z.ltb_spec (value b) (value a)); try split; reflexivity || lia.
Qed.

Lemma comparisons_on_values_witness :
  wf two_pow_2048 /\ wf all_ones /\ lt two_pow_2048 all_ones = true.
Proof.
  split; [apply wf_two_pow_2048|]. split; [apply wf_all_ones|].
  destruct (comparisons_on_values two_pow_2048 all_ones wf_two_pow_2048 wf_all_ones)
    as [E _].
  rewrite E. vm_compute. reflexivity.
Defined.

(** X7: a left shift multiplies the value by [2^s] modulo [2^4096] and a
    right shift divides it by [2^s], rounding down, for every shift count. *)
Theorem shifts_on_values a s :
  wf a -> 0 <= s < 2 ^ 64 ->
  (wf (shl a s) /\ value (shl a s) = (value a * 2 ^ s) mod 2 ^ 4096) /\
  (wf (shr a s) /\ value (shr a s) = value a / 2 ^ s).
Proof.
  intros Ha Hs. change (2 ^ 4096) with MODULUS.
  split; [apply shl_correct | apply shr_correct]; assumption || lia.
Qed.

Lemma shifts_on_values_witness :
  wf all_ones /\ 0 <= 70 < 2 ^ 64 /\
  value (shr all_ones 70) = value all_ones / 2 ^ 70.
Proof.
  split; [apply wf_all_ones|]. split; [lia|].
  exact (proj2 (proj2 (shifts_on_values all_ones 70 wf_all_ones ltac:(lia)))).
Defined.

(** X8: for a divisor other than zero [/] and [%] return the quotient
    rounded down and the remainder of the operands' values; a dividend
    below the divisor gives quotient 0 and itself as remainder. *)
Theorem division_on_values a b :
  wf a -> wf b -> value b <> 0 ->
  exists q r,
    div a b = Ok q /\ rem a b = Ok r /\ wf q /\ wf r /\
    value q = value a / value b /\ value r = value a mod value b /\
    (value a < value b -> q = of_u64 0 /\ r = a).
Proof.
  intros Ha Hb Hnz.
  destruct (div_correct a b Ha Hb Hnz) as (q & Eq & Hwq & Hvq).
  destruct (rem_correct a b Ha Hb Hnz) as (r & Er & Hwr & Hvr).
  exists q, r. split; [exact Eq|]. split; [exact Er|]. split; [exact Hwq|].
  split; [exact Hwr|]. split; [exact Hvq|]. split; [exact Hvr|].
  intros Hlt. pose proof (wf_value_bound a Ha) as HA. split.
  - apply wf_value_inj; [exact Hwq | apply wf_of_u64|].
    rewrite Hvq, value_of_u64. apply Z.div_small. lia.
  - apply wf_value_inj; [exact Hwr | exact Ha|].
    rewrite Hvr. apply Z.mod_small. lia.
Qed.

Lemma division_on_values_witness :
  wf (of_u64 100) /\ wf (of_u64 7) /\ value (of_u64 7) <> 0 /\
  exists q r, div (of_u64 100) (of_u64 7) = Ok q /\ rem (of_u64 100) (of_u64 7) = Ok r /\
              value q = value (of_u64 100) / value (of_u64 7) /\
              value r = value (of_u64 100) mod value (of_u64 7).
Proof.
  assert (value (of_u64 7) <> 0) as Hnz by (vm_compute; discriminate).
  split; [apply wf_of_u64|]. split; [apply wf_of_u64|]. split; [exact Hnz|].
  destruct (division_on_values (of_u64 100) (of_u64 7) (wf_of_u64 100) (wf_of_u64 7) Hnz)
    as (q & r & Eq & Er & _ & _ & Hq & Hr & _).
  exists q, r. split; [exact Eq|]. split; [exact Er|]. split; [exact Hq | exact Hr].
Defined.

(** * More on decimal text *)

Lemma is_digit_code c : is_digit c = true <-> 48 <= Z.of_N (N_of_ascii c) <= 57.
Proof.
  unfold is_digit. rewrite Z.gtb_ltb.
  destruct (Z.ltb_spec (Z.of_N (N_of_ascii c)) 48), (Z.ltb_spec 57 (Z.of_N (N_of_ascii c)));
    cbn; split; intros; lia || discriminate || reflexivity.
Qed.

Lemma from_string_step_value this v c :
  wf this -> value this = v mod MODULUS ->
  wf (from_string_step this c) /\
  value (from_string_step this c)
  = (if is_digit c then v * 10 + (Z.of_N (N_of_ascii c) - 48) else v) mod MODULUS.
Proof.
  intros Ht Hv. unfold from_string_step, is_digit.
  set (code := Z.of_N (N_of_ascii c)).
  destruct (Z.ltb_spec code 48) as [H1|H1]; cbn [orb negb]; [now split|].
  rewrite Z.gtb_ltb. destruct (Z.ltb_spec 57 code) as [H2|H2]; cbn [negb]; [now split|].
  pose proof MODULUS_pos as HM.
  destruct (mul_correct this (of_u64 10) Ht (wf_of_u64 10)) as [Hwm Hvm].
  destruct (add_correct (mul this (of_u64 10)) (of_u64 (code - 48)) Hwm (wf_of_u64 _))
    as [Hwa Hva].
  split; [exact Hwa|].
  rewrite Hva, Hvm, Hv, !value_of_u64, (u64_small 10), (u64_small (code - 48)) by lia.
  rewrite Z.mul_mod_idemp_l, Z.add_mod_idemp_l by lia. reflexivity.
Qed.

Lemma from_string_fold_value s :
  forall this v, wf this -> value this = v mod MODULUS ->
    wf (fold_left from_string_step s this) /\
    value (fold_left from_string_step s this)
    = fold_left (fun v c => if is_digit c then v * 10 + (Z.of_N (N_of_ascii c) - 48) else v)
        s v mod MODULUS.
Proof.
  induction s as [|c s IH]; intros this v Ht Hv; cbn [fold_left]; [now split|].
  destruct (from_string_step_value this v c Ht Hv) as [Hw Hs]. now apply IH.
Qed.

Lemma from_string_value s :
  wf (from_string s) /\ value (from_string s) = decimal_value s mod MODULUS.
Proof.
  apply from_string_fold_value; [apply wf_zero|]. now rewrite value_zero.
Qed.

Lemma decimal_value_filter s : decimal_value (List.filter is_digit s) = decimal_value s.
Proof.
  unfold decimal_value. generalize 0.
  induction s as [|c s IH]; intros v; [reflexivity|].
  cbn [List.filter fold_left]. destruct (is_digit c) eqn:Hc; cbn [fold_left]; [|apply IH].
  rewrite Hc. apply IH.
Qed.

Lemma decimal_value_snoc s c :
  decimal_value (s ++ [c])
  = if is_digit c then decimal_value s * 10 + (Z.of_N (N_of_ascii c) - 48)
    else decimal_value s.
Proof. unfold decimal_value. now rewrite fold_left_app. Qed.

Lemma decimal_value_nonneg s : 0 <= decimal_value s.
Proof.
  induction s as [|c s IH] using rev_ind; [reflexivity|].
  rewrite decimal_value_snoc. destruct (is_digit c) eqn:Hc; [|exact IH].
  apply is_digit_code in Hc. lia.
Qed.

Lemma is_digit_digit_char d : 0 <= d < 10 -> is_digit (digit_char d) = true.
Proof. intros Hd. apply is_digit_code. rewrite digit_char_code by assumption. lia. Qed.

Lemma decimal_value_digit_char s d :
  0 <= d < 10 -> decimal_value (s ++ [digit_char d]) = decimal_value s * 10 + d.
Proof.
  intros Hd. rewrite decimal_value_snoc, is_digit_digit_char, digit_char_code by assumption.
  ring.
Qed.

(** The characters appended by the rendering loop are digits and, read from
    the last to the first, write the value being rendered. *)
Lemma render_loop_digits (f : nat) :
  forall temp out, wf temp -> value temp < 2 ^ Z.of_nat f ->
    exists t, render_loop (S f) temp out = Ok (out ++ t) /\
              Forall (fun c => is_digit c = true) t /\
              decimal_value (rev t) = value temp.
Proof.
  induction f as [|f IH]; intros temp out Ht Hlt; pose proof (wf_value_bound temp Ht) as Hb;
    rewrite render_loop_S, neqb_value, value_of_u64 by (assumption || apply wf_of_u64);
    change (u64 0) with 0;
    (destruct (Z.eqb_spec (value temp) 0) as [Hz|Hnz]; cbn [negb];
     [exists []; rewrite app_nil_r, Hz; now repeat split|]).
  - change (2 ^ Z.of_nat 0) with 1 in Hlt. lia.
  - assert (value (of_u64 10) = 10) as E10 by (now rewrite value_of_u64).
    destruct (rem_correct temp (of_u64 10) Ht (wf_of_u64 10)) as (dg & -> & Hwd & Hvd);
      [lia|].
    destruct (div_correct temp (of_u64 10) Ht (wf_of_u64 10)) as (q & -> & Hwq & Hvq);
      [lia|].
    cbn [bind]. rewrite E10 in Hvd, Hvq.
    pose proof (Z.mod_pos_bound (value temp) 10 ltac:(lia)) as Hd.
    pose proof (Z.div_mod (value temp) 10 ltac:(lia)) as Edm.
    rewrite word0_value by (assumption || lia). rewrite Hvd.
    destruct (IH q (out ++ [digit_char (value temp mod 10)]) Hwq) as (t' & Er & Hdig & Hval).
    { rewrite Nat2Z.inj_succ, Z.pow_succ_r in Hlt by lia. lia. }
    exists (digit_char (value temp mod 10) :: t'). rewrite Er, <- app_assoc.
    split; [reflexivity|].
    split; [constructor; [now apply is_digit_digit_char | exact Hdig]|].
    cbn [rev]. rewrite decimal_value_digit_char, Hval by assumption. lia.
Qed.

Lemma ascii_code_inj c c' : N_of_ascii c = N_of_ascii c' -> c = c'.
Proof.
  intros E. rewrite <- (ascii_N_embedding c), <- (ascii_N_embedding c'). now f_equal.
Qed.

Lemma zero_char_code c : c <> "0"%char -> Z.of_N (N_of_ascii c) <> 48.
Proof.
  intros Hc E. apply Hc, ascii_code_inj. change (N_of_ascii "0") with 48%N. lia.
Qed.

Lemma no_leading_zero_prefix s c : no_leading_zero (s ++ [c]) -> no_leading_zero s.
Proof. destruct s; [easy | now cbn]. Qed.

Lemma decimal_value_positive s :
  s <> [] -> Forall (fun c => is_digit c = true) s -> no_leading_zero s ->
  1 <= decimal_value s.
Proof.
  induction s as [|c s IH] using rev_ind; intros Hne Hd Hl; [contradiction|].
  apply Forall_app in Hd as [Hds Hdc]. apply Forall_inv in Hdc.
  rewrite decimal_value_snoc, Hdc. pose proof (proj1 (is_digit_code c) Hdc) as Hc.
  destruct s as [|c0 s].
  - cbn in Hl. apply zero_char_code in Hl. cbn. lia.
  - specialize (IH ltac:(discriminate) Hds (no_leading_zero_prefix _ _ Hl)). lia.
Qed.

(** Two digit strings without leading zero that write the same number are
    the same string. *)
Lemma decimal_value_inj s :
  forall t,
    Forall (fun c => is_digit c = true) s -> Forall (fun c => is_digit c = true) t ->
    no_leading_zero s -> no_leading_zero t ->
    decimal_value s = decimal_value t -> s = t.
Proof.
  induction s as [|c s IH] using rev_ind; intros t Hs Ht Ls Lt E.
  - destruct t as [|c t]; [reflexivity|].
    pose proof (decimal_value_positive (c :: t) ltac:(discriminate) Ht Lt).
    change (decimal_value []) with 0 in E. lia.
  - destruct (exists_last (l := t)) as (t' & c' & ->).
    { intros ->.
      pose proof (decimal_value_positive (s ++ [c]) ltac:(now destruct s) Hs Ls).
      change (decimal_value []) with 0 in E. lia. }
    apply Forall_app in Hs as [Hs Hc]. apply Forall_inv in Hc.
    apply Forall_app in Ht as [Ht Hc']. apply Forall_inv in Hc'.
    rewrite !decimal_value_snoc, Hc, Hc' in E.
    pose proof (proj1 (is_digit_code c) Hc). pose proof (proj1 (is_digit_code c') Hc').
    assert (decimal_value s = decimal_value t' /\ N_of_ascii c = N_of_ascii c') as [Ev Ec] by lia.
    apply ascii_code_inj in Ec. subst c'. f_equal.
    apply IH; eauto using no_leading_zero_prefix.
Qed.

Lemma decimal_value_no_digit s :
  forallb (fun c => negb (is_digit c)) s = true -> decimal_value s = 0.
Proof.
  enough (forall v, forallb (fun c => negb (is_digit c)) s = true ->
            fold_left (fun v c => if is_digit c then v * 10 + (Z.of_N (N_of_ascii c) - 48)
                                  else v) s v = v) as H by apply H.
  induction s as [|c s IH]; intros v Hnd; [reflexivity|].
  cbn [forallb] in Hnd. apply andb_true_iff in Hnd as [Hc Hs].
  cbn [fold_left]. apply negb_true_iff in Hc. rewrite Hc. now apply IH.
Qed.

(** X9: the constructor from text returns the number written by the digits
    of the text reduced modulo [2^4096]; characters other than digits do
    not count, and a text without digits gives zero. *)
Theorem from_string_decimal_value s :
  wf (from_string s) /\
  value (from_string s) = decimal_value s mod 2 ^ 4096 /\
  from_string s = from_string (List.filter is_digit s) /\
  (forallb (fun c => negb (is_digit c)) s = true -> from_string s = of_u64 0).
Proof.
  change (2 ^ 4096) with MODULUS.
  destruct (from_string_value s) as [Hw Hv].
  split; [exact Hw|]. split; [exact Hv|]. split.
  - destruct (from_string_value (List.filter is_digit s)) as [Hw' Hv'].
    apply wf_value_inj; [assumption | assumption|].
    now rewrite Hv, Hv', decimal_value_filter.
  - intros Hnd. apply wf_value_inj; [assumption | apply wf_of_u64|].
    now rewrite Hv, value_of_u64, decimal_value_no_digit.
Qed.

Lemma forallb_Forall {A : Type} (f : A -> bool) l :
  forallb f l = true <-> Forall (fun c => f c = true) l.
Proof.
  induction l as [|c l IH]; cbn [forallb].
  - split; [constructor | reflexivity].
  - rewrite andb_true_iff, IH. split.
    + intros [Hc Hl]. now constructor.
    + intros H. apply Forall_cons_1 in H. exact H.
Qed.

Lemma render_nonzero x :
  wf x -> value x <> 0 ->
  exists s, render x = Ok s /\ s <> [] /\ Forall (fun c => is_digit c = true) s /\
            no_leading_zero s /\ decimal_value s = value x.
Proof.
  intros Hx Hnz. unfold render. rewrite eqb_zero by assumption.
  destruct (Z.eqb_spec (value x) 0) as [?|_]; [contradiction|].
  assert (value x < 2 ^ Z.of_nat NUM_BITS) as Hb
    by (rewrite MODULUS_bits; apply wf_value_bound, Hx).
  destruct (render_loop_correct NUM_BITS x [] Hx Hb) as (t & Et & _ & _ & Hlead).
  destruct (render_loop_digits NUM_BITS x [] Hx Hb) as (t' & Et' & Hdig & Hval).
  rewrite Et in Et'. injection Et' as <-.
  rewrite Et. cbn [bind app]. exists (rev t).
  destruct (Hlead Hnz) as (c & u & Eu & Hc).
  split; [reflexivity|]. split; [rewrite Eu; discriminate|].
  split; [now apply Forall_rev|]. split; [|exact Hval].
  rewrite Eu. exact Hc.
Qed.

(** X10: the rendering is never empty, consists of decimal digits only and
    writes the value in base ten. *)
Theorem render_writes_the_value x :
  wf x ->
  exists s, render x = Ok s /\ s <> [] /\
            forallb is_digit s = true /\ decimal_value s = value x.
Proof.
  intros Hx. destruct (Z.eq_dec (value x) 0) as [Hz|Hnz].
  - exists ["0"%char]. unfold render. rewrite eqb_zero, Hz by assumption.
    repeat split. discriminate.
  - destruct (render_nonzero x Hx Hnz) as (s & Es & Hne & Hd & _ & Hv).
    exists s. repeat split; try assumption. now apply forallb_Forall.
Qed.

Lemma render_writes_the_value_witness :
  wf two_pow_2048 /\
  exists s, render two_pow_2048 = Ok s /\ s <> [] /\
            forallb is_digit s = true /\ decimal_value s = value two_pow_2048.
Proof.
  split; [apply wf_two_pow_2048|].
  exact (render_writes_the_value two_pow_2048 wf_two_pow_2048).
Defined.

(** X11: a text of digits without a leading zero (or the text "0") that
    writes a number below [2^4096] is given back by parsing and rendering. *)
Theorem render_of_from_string s :
  forallb is_digit s = true ->
  match s with [] => False | c :: t => c = "0"%char -> t = [] end ->
  decimal_value s < 2 ^ 4096 ->
  render (from_string s) = Ok s.
Proof.
  intros Hd Hlead Hlt. change (2 ^ 4096) with MODULUS in Hlt.
  destruct (from_string_value s) as [Hw Hv].
  rewrite Z.mod_small in Hv by (split; [apply decimal_value_nonneg | exact Hlt]).
  assert (Forall (fun c => is_digit c = true) s) as Hd' by (now apply forallb_Forall).
  destruct s as [|c t]; [contradiction|].
  destruct (ascii_dec c "0"%char) as [->|Hc].
  - rewrite (Hlead eq_refl) in *. unfold render. rewrite eqb_zero, Hv by assumption.
    reflexivity.
  - assert (1 <= decimal_value (c :: t)) as Hpos
      by (apply decimal_value_positive; [discriminate | assumption | exact Hc]).
    destruct (render_nonzero (from_string (c :: t)) Hw ltac:(lia))
      as (s' & -> & _ & Hd2 & Hl2 & Hv2).
    f_equal. apply decimal_value_inj; try assumption. lia.
Qed.

Lemma render_of_from_string_witness :
  forallb is_digit (list_ascii_of_string "24691357802469135780") = true /\
  match list_ascii_of_string "24691357802469135780" with
  | [] => False
  | c :: t => c = "0"%char -> t = []
  end /\
  decimal_value (list_ascii_of_string "24691357802469135780") < 2 ^ 4096 /\
  render (from_string (list_ascii_of_string "24691357802469135780"))
  = Ok (list_ascii_of_string "24691357802469135780").
Proof.
  assert (forallb is_digit (list_ascii_of_string "24691357802469135780") = true) as Hd
    by (vm_compute; reflexivity).
  assert (match list_ascii_of_string "24691357802469135780" with
          | [] => False
          | c :: t => c = "0"%char -> t = []
          end) as Hl by (cbn; discriminate).
  assert (decimal_value (list_ascii_of_string "24691357802469135780") < 2 ^ 4096) as Hlt
    by (vm_compute; reflexivity).
  split; [exact Hd|]. split; [exact Hl|]. split; [exact Hlt|].
  exact (render_of_from_string _ Hd Hl Hlt).
Defined.

(** * More on modExp and isPrime *)

Lemma modExp_loop_Z_below (fuel : nat) :
  forall result base exp m z,
    0 < m -> 0 <= result < m ->
    modExp_loop_Z fuel result base exp m = Ok z -> 0 <= z < m.
Proof.
  induction fuel as [|fuel IH]; intros result base exp m z Hm Hr E; [discriminate|].
  rewrite modExp_loop_Z_S in E. destruct (negb (exp =? 0)).
  - apply IH in E; [exact E | exact Hm|].
    destruct (Z.odd exp); [apply Z.mod_pos_bound; lia | exact Hr].
  - now injection E as <-.
Qed.

(** X12: for every modulus above 1, whatever its size, [modExp] returns a
    value below the modulus. *)
Theorem modExp_below_modulus b e m :
  wf b -> wf e -> wf m -> 1 < value m ->
  exists r, modExp b e m = Ok r /\ wf r /\ value r < value m.
Proof.
  intros Hb He Hm Hgt.
  destruct (modExp_returns b e m Hb He Hm ltac:(lia)) as (r & Er & Hwr & Ez).
  exists r. split; [exact Er|]. split; [exact Hwr|].
  unfold modExp_Z in Ez. destruct (Z.eqb_spec (value m) 0); [lia|].
  apply modExp_loop_Z_below in Ez; lia.
Qed.

Lemma modExp_below_modulus_witness :
  wf all_ones /\ wf all_ones /\ wf two_pow_2048 /\ 1 < value two_pow_2048 /\
  exists r, modExp all_ones all_ones two_pow_2048 = Ok r /\ wf r /\
            value r < value two_pow_2048.
Proof.
  assert (1 < value two_pow_2048) as Hgt by (vm_compute; reflexivity).
  split; [apply wf_all_ones|]. split; [apply wf_all_ones|]. split; [apply wf_two_pow_2048|].
  split; [exact Hgt|].
  exact (modExp_below_modulus all_ones all_ones two_pow_2048
           wf_all_ones wf_all_ones wf_two_pow_2048 Hgt).
Defined.

(** X13: for [n <= 3] and for even [n] the answer does not depend on
    [rounds] and no witness is read: true for 2 and 3, false otherwise. *)
Theorem isPrime_fast_paths n rounds :
  wf n -> value n <= 3 \/ Z.even (value n) = true ->
  isPrime n rounds = Ok ((value n =? 2) || (value n =? 3)).
Proof.
  intros Hn H. rewrite isPrime_refines by assumption. unfold isPrime_Z.
  pose proof (wf_value_bound n Hn) as Hb.
  destruct (Z.leb_spec (value n) 1) as [H1|H1].
  - destruct (Z.eqb_spec (value n) 2), (Z.eqb_spec (value n) 3); try lia. reflexivity.
  - destruct ((value n =? 2) || (value n =? 3)) eqn:E; [reflexivity|].
    apply orb_false_iff in E as [E2 E3]. apply Z.eqb_neq in E2, E3.
    destruct H as [H|H]; [lia|]. now rewrite <- Z.negb_even, H.
Qed.

Lemma isPrime_fast_paths_witness :
  wf (of_u64 100) /\ (value (of_u64 100) <= 3 \/ Z.even (value (of_u64 100)) = true) /\
  isPrime (of_u64 100) 9 = Ok ((value (of_u64 100) =? 2) || (value (of_u64 100) =? 3)).
Proof.
  assert (value (of_u64 100) <= 3 \/ Z.even (value (of_u64 100)) = true) as H
    by (right; vm_compute; reflexivity).
  split; [apply wf_of_u64|]. split; [exact H|].
  exact (isPrime_fast_paths (of_u64 100) 9 (wf_of_u64 100) H).
Defined.

Lemma witness_loop_Z_app k k' :
  forall i n d r,
    witness_loop_Z (k + k') i n d r
    = match witness_loop_Z k i n d r with
      | Ok true => witness_loop_Z k' (i + k) n d r
      | o => o
      end.
Proof.
  induction k as [|k IH]; intros i n d r; cbn [Nat.add witness_loop_Z].
  - now rewrite Nat.add_0_r.
  - destruct (basePrimes !! i) as [p|]; [|reflexivity].
    destruct (modExp_Z (u64 p) d n) as [x| | |]; cbn [bind]; try reflexivity.
    replace (i + S k)%nat with (S i + k)%nat by lia.
    destruct (_ || _); [apply IH|].
    destruct (square_loop_Z _ x n) as [[|]| | |]; cbn [bind negb]; try reflexivity.
    apply IH.
Qed.

Lemma isPrime_Z_rounds n r1 r2 :
  r1 <= r2 ->
  (isPrime_Z n r1 = Ok false -> isPrime_Z n r2 = Ok false) /\
  (isPrime_Z n r2 = Ok true -> isPrime_Z n r1 = Ok true).
Proof.
  intros Hle. unfold isPrime_Z.
  destruct (n <=? 1); [auto|]. destruct (_ || _); [auto|]. destruct (negb (Z.odd n)); [auto|].
  destruct (halve_loop_Z _ _ _) as [[d r]| | |]; cbn [bind]; auto.
  replace (Z.to_nat r2) with (Z.to_nat r1 + (Z.to_nat r2 - Z.to_nat r1))%nat by lia.
  rewrite witness_loop_Z_app.
  destruct (witness_loop_Z (Z.to_nat r1) 0 n d r) as [[|]| | |]; split; auto; discriminate.
Qed.

(** X14: a further round never turns a rejection into an acceptance: what
    is rejected with [r1] rounds is rejected with every [r2 >= r1], and what
    is accepted with [r2] rounds is accepted with every [r1 <= r2]. *)
Theorem isPrime_more_rounds n r1 r2 :
  wf n -> r1 <= r2 ->
  (isPrime n r1 = Ok false -> isPrime n r2 = Ok false) /\
  (isPrime n r2 = Ok true -> isPrime n r1 = Ok true).
Proof.
  intros Hn Hle. rewrite !isPrime_refines by assumption. now apply isPrime_Z_rounds.
Qed.

Lemma isPrime_more_rounds_witness :
  wf (of_u64 9) /\ 1 <= 7 /\
  (isPrime (of_u64 9) 1 = Ok false -> isPrime (of_u64 9) 7 = Ok false).
Proof.
  split; [apply wf_of_u64|]. split; [lia|].
  exact (proj1 (isPrime_more_rounds (of_u64 9) 1 7 (wf_of_u64 9) ltac:(lia))).
Defined.

(** * The Miller-Rabin rounds *)

Lemma SQRT_lt_MODULUS : SQRT_MODULUS < MODULUS.
Proof. reflexivity. Qed.

Lemma pow_mod_eq n x y k : 0 < n -> x mod n = y mod n -> x ^ k mod n = y ^ k mod n.
Proof. intros Hn E. rewrite (Zpower_mod x), (Zpower_mod y), E by assumption. reflexivity. Qed.

Lemma pow_pow2 a d j : 0 <= d -> 0 <= j -> (a ^ d) ^ (2 ^ j) = a ^ (d * 2 ^ j).
Proof.
  intros Hd Hj. rewrite <- Z.pow_mul_r; [reflexivity | assumption|].
  apply Z.pow_nonneg. lia.
Qed.

Lemma pred_pow2_mod n k : 1 < n -> 1 <= k -> (n - 1) ^ (2 ^ k) mod n = 1.
Proof.
  intros Hn Hk. replace k with (1 + (k - 1)) by lia.
  rewrite Z.pow_add_r, Z.pow_1_r, Z.pow_mul_r by (lia || apply Z.pow_nonneg; lia).
  rewrite (pow_mod_eq n ((n - 1) ^ 2) 1) by
    (try lia; replace ((n - 1) ^ 2) with (1 + (n - 2) * n) by ring;
     now rewrite Z.mod_add by lia).
  rewrite Z.pow_1_l by (apply Z.pow_nonneg; lia). apply Z.mod_small. lia.
Qed.

(** A strong probable prime to base [a] passes the Fermat test to base [a]. *)
Lemma strong_probable_prime_fermat n d r a :
  1 < n -> 0 <= d -> 1 <= r -> n - 1 = d * 2 ^ r ->
  strong_probable_prime n d r a -> a ^ (n - 1) mod n = 1.
Proof.
  intros Hn Hd Hr E [H1|(j & Hj & Hm)]; rewrite E.
  - rewrite <- pow_pow2 by lia.
    rewrite (pow_mod_eq n (a ^ d) 1) by (try lia; rewrite H1; symmetry; apply Z.mod_small; lia).
    rewrite Z.pow_1_l by (apply Z.pow_nonneg; lia). apply Z.mod_small. lia.
  - assert (0 <= d * 2 ^ j) as Hdj
      by (apply Z.mul_nonneg_nonneg; [lia | apply Z.pow_nonneg; lia]).
    assert (d * 2 ^ r = d * 2 ^ j * 2 ^ (r - j)) as ->
      by (rewrite <- Z.mul_assoc, <- Z.pow_add_r by lia; do 2 f_equal; lia).
    rewrite <- (pow_pow2 a (d * 2 ^ j) (r - j)) by lia.
    rewrite (pow_mod_eq n (a ^ (d * 2 ^ j)) (n - 1))
      by (try lia; rewrite Hm; symmetry; apply Z.mod_small; lia).
    apply pred_pow2_mod; lia.
Qed.

Lemma halve_loop_Z_spec (f : nat) :
  forall d0 r0 d r,
    halve_loop_Z f d0 r0 = Ok (d, r) ->
    Z.odd d = true /\ r0 <= r /\ d0 = d * 2 ^ (r - r0).
Proof.
  induction f as [|f IH]; intros d0 r0 d r E; [discriminate|].
  cbn [halve_loop_Z] in E. destruct (Z.odd d0) eqn:Hodd.
  - injection E as <- <-. rewrite Z.sub_diag. repeat split; [assumption | lia | lia].
  - apply IH in E as (Ho & Hr & Ed). split; [exact Ho|]. split; [lia|].
    pose proof (odd_half d0) as Eh. rewrite Hodd, Ed in Eh.
    replace (r - r0) with (1 + (r - (r0 + 1))) by lia.
    rewrite Z.pow_add_r, Z.pow_1_r by lia. lia.
Qed.

(** Past the fast paths [isPrime] is the witness loop on [d] and [r] with
    [n - 1 = d * 2^r], [d] odd and [r >= 1]. *)
Lemma isPrime_Z_decompose n rounds :
  3 < n < MODULUS -> Z.odd n = true ->
  exists d r, n - 1 = d * 2 ^ r /\ Z.odd d = true /\ 1 <= r /\ 0 < d < n /\
              isPrime_Z n rounds = witness_loop_Z (Z.to_nat rounds) 0 n d r.
Proof.
  intros Hn Hodd. unfold isPrime_Z.
  destruct (Z.leb_spec n 1); [lia|].
  destruct (Z.eqb_spec n 2); [lia|]. destruct (Z.eqb_spec n 3); [lia|]. cbn [orb].
  rewrite Hodd. cbn [negb]. rewrite (Z.mod_small (n - 1)) by lia.
  destruct (halve_loop_Z_total NUM_BITS (n - 1) 0) as (d & r & E & Hd).
  { rewrite MODULUS_bits. lia. }
  rewrite E. cbn [bind]. exists d, r.
  apply halve_loop_Z_spec in E as (Ho & Hr & Ed). rewrite Z.sub_0_r in Ed.
  assert (1 <= r) as Hr1.
  { destruct (Z.eq_dec r 0) as [->|]; [|lia]. rewrite Z.pow_0_r, Z.mul_1_r in Ed. subst d.
    rewrite Z.sub_1_r, Z.odd_pred, <- Z.negb_odd, Hodd in Ho. discriminate. }
  repeat split; try assumption; lia.
Qed.

Lemma square_loop_Z_spec k :
  forall x n, 2 < n <= SQRT_MODULUS ->
    square_loop_Z k x n = Ok true <->
    exists j, 1 <= j <= Z.of_nat k /\ x ^ (2 ^ j) mod n = n - 1.
Proof.
  induction k as [|k IH]; intros x n Hn; cbn [square_loop_Z].
  - split; [discriminate | intros (j & Hj & _); lia].
  - pose proof SQRT_lt_MODULUS.
    rewrite modExp_Z_correct by (lia || (split; [lia | reflexivity])).
    cbn [bind]. rewrite (Z.mod_small (n - 1)) by lia.
    assert (forall j, 0 <= j -> (x ^ 2 mod n) ^ (2 ^ j) mod n = x ^ (2 ^ (j + 1)) mod n) as Hsq.
    { intros j Hj. rewrite <- Zpower_mod by lia.
      rewrite <- Z.pow_mul_r, (Z.add_comm j 1), Z.pow_add_r by (lia || apply Z.pow_nonneg; lia).
      reflexivity. }
    destruct (Z.eqb_spec (x ^ 2 mod n) (n - 1)) as [E|E].
    + split; [intros _|reflexivity]. exists 1. split; [lia|exact E].
    + rewrite IH by assumption. split; intros (j & Hj & Hm).
      * exists (j + 1). split; [lia|]. now rewrite <- Hsq by lia.
      * destruct (Z.eq_dec j 1) as [->|Hj1]; [now rewrite Z.pow_1_r in Hm|].
        exists (j - 1). split; [lia|]. rewrite Hsq by lia. now replace (j - 1 + 1) with j by lia.
Qed.

(** One iteration of the witness loop goes on exactly for a strong probable
    prime to the witness. *)
Lemma witness_round n d r a :
  2 < n <= SQRT_MODULUS -> 0 < d < n -> 1 <= r ->
  let x := a ^ d mod n in
  ((x =? 1) || (x =? (n - 1) mod MODULUS) = true \/
   square_loop_Z (Z.to_nat (r - 1)) x n = Ok true)
  <-> strong_probable_prime n d r a.
Proof.
  intros Hn Hd Hr x. pose proof SQRT_lt_MODULUS.
  rewrite (Z.mod_small (n - 1)) by lia. rewrite square_loop_Z_spec by assumption.
  rewrite orb_true_iff, !Z.eqb_eq. unfold strong_probable_prime. fold x.
  assert (forall j, 0 <= j -> x ^ (2 ^ j) mod n = a ^ (d * 2 ^ j) mod n) as Hx.
  { intros j Hj. subst x. rewrite <- Zpower_mod by lia. now rewrite pow_pow2 by lia. }
  split.
  - intros [[H1|H2]|(j & Hj & Hm)].
    + now left.
    + right. exists 0. split; [lia|]. rewrite <- Hx by lia. rewrite Z.pow_0_r, Z.pow_1_r.
      subst x. rewrite Z.mod_mod by lia. exact H2.
    + right. exists j. split; [lia|]. now rewrite <- Hx by lia.
  - intros [H1|(j & Hj & Hm)]; [now left; left|].
    rewrite <- Hx in Hm by lia. destruct (Z.eq_dec j 0) as [->|Hj0].
    + left. right. rewrite Z.pow_0_r, Z.pow_1_r in Hm. subst x.
      now rewrite Z.mod_mod in Hm by lia.
    + right. exists j. split; [lia | exact Hm].
Qed.

Lemma witness_loop_Z_spec n d r :
  2 < n <= SQRT_MODULUS -> 0 < d < n -> 1 <= r ->
  forall k i,
    witness_loop_Z k i n d r = Ok true <->
    forall j, (j < k)%nat ->
      exists p, basePrimes !! (i + j)%nat = Some p /\ strong_probable_prime n d r (u64 p).
Proof.
  intros Hn Hd Hr. pose proof SQRT_lt_MODULUS.
  induction k as [|k IH]; intros i; cbn [witness_loop_Z].
  - split; [intros _ j Hj; lia | reflexivity].
  - assert ((forall j, (j < S k)%nat -> exists p, basePrimes !! (i + j)%nat = Some p /\
                        strong_probable_prime n d r (u64 p))
            <-> (exists p, basePrimes !! i = Some p /\ strong_probable_prime n d r (u64 p)) /\
                (forall j, (j < k)%nat -> exists p, basePrimes !! (S i + j)%nat = Some p /\
                        strong_probable_prime n d r (u64 p))) as ->.
    { split.
      - intros Hall. split.
        + specialize (Hall 0%nat ltac:(lia)). now rewrite Nat.add_0_r in Hall.
        + intros j Hj. specialize (Hall (S j) ltac:(lia)).
          now replace (i + S j)%nat with (S i + j)%nat in Hall by lia.
      - intros [H0 Hrest] [|j] Hj; [now rewrite Nat.add_0_r|].
        replace (i + S j)%nat with (S i + j)%nat by lia. apply Hrest. lia. }
    rewrite <- IH.
    destruct (basePrimes !! i) as [p|]; [|split; [discriminate | intros [(p & Hp & _) _]; discriminate]].
    rewrite modExp_Z_correct by lia. cbn [bind].
    pose proof (witness_round n d r (u64 p) Hn Hd Hr) as Hround. cbv zeta in Hround.
    destruct (_ || _) eqn:Hfast.
    + split; [intros Hk; split; [exists p; split; [reflexivity|]; apply Hround; now left | exact Hk]
             | now intros [_ Hk]].
    + destruct (square_loop_Z_total (Z.to_nat (r - 1)) (u64 p ^ d mod n) n ltac:(lia))
        as [b Eb].
      rewrite Eb in *. cbn [bind]. destruct b; cbn [negb].
      * split; [intros Hk; split; [exists p; split; [reflexivity|]; apply Hround; now right
               | exact Hk] | now intros [_ Hk]].
      * split; [discriminate|]. intros [(p' & Hp' & Hs) _]. injection Hp' as <-.
        apply Hround in Hs as [Hs|Hs]; discriminate.
Qed.

Lemma basePrimes_entry i p :
  basePrimes !! i = Some p -> (i < 5)%nat /\ 2 <= p <= 11 /\ u64 p = p.
Proof.
  intros Hp. do 5 (destruct i as [|i]; [injection Hp as <-; repeat split; lia|]).
  discriminate.
Qed.

(** X15: what [isPrime] accepts above 3 passes the Fermat test to every
    witness it was run with, and so is a multiple of none of them. *)
Theorem isPrime_accepts_only_fermat_probable_primes n rounds i p :
  wf n -> 3 < value n <= 2 ^ 2048 ->
  isPrime n rounds = Ok true ->
  Z.of_nat i < rounds -> basePrimes !! i = Some p ->
  p ^ (value n - 1) mod value n = 1 /\ ~ (p | value n).
Proof.
  intros Hn Hr Hacc Hi Hp. change (2 ^ 2048) with SQRT_MODULUS in Hr.
  pose proof SQRT_lt_MODULUS as HS.
  rewrite isPrime_refines in Hacc by assumption.
  assert (Z.odd (value n) = true) as Hodd.
  { destruct (Z.odd (value n)) eqn:Ho; [reflexivity|]. exfalso.
    unfold isPrime_Z in Hacc. destruct (Z.leb_spec (value n) 1); [lia|].
    destruct (Z.eqb_spec (value n) 2); [lia|]. destruct (Z.eqb_spec (value n) 3); [lia|].
    cbn [orb] in Hacc. rewrite Ho in Hacc. discriminate. }
  destruct (isPrime_Z_decompose (value n) rounds ltac:(lia) Hodd)
    as (d & r & Ed & _ & Hr1 & Hd & E).
  rewrite E in Hacc.
  apply (witness_loop_Z_spec (value n) d r ltac:(lia) Hd Hr1) with (j := i) in Hacc; [|lia].
  destruct Hacc as (p' & Hp' & Hs). cbn [Nat.add] in Hp'. rewrite Hp in Hp'. injection Hp' as <-.
  destruct (basePrimes_entry i p Hp) as (_ & Hp2 & Eu). rewrite Eu in Hs.
  apply strong_probable_prime_fermat in Hs; [|lia ..|exact Ed].
  split; [exact Hs|]. intros Hdiv.
  assert ((p | p ^ (value n - 1))) as Hpp.
  { replace (value n - 1) with (1 + (value n - 2)) by lia.
    rewrite Z.pow_add_r, Z.pow_1_r by lia. now apply Z.divide_mul_l, Z.divide_refl. }
  pose proof (Z.div_mod (p ^ (value n - 1)) (value n) ltac:(lia)) as Edm. rewrite Hs in Edm.
  assert ((p | 1)) as H1.
  { apply (Z.divide_add_cancel_r _ (value n * (p ^ (value n - 1) / value n)));
      [now apply Z.divide_mul_l | now rewrite <- Edm]. }
  apply Z.divide_1_r_nonneg in H1; lia.
Qed.

Lemma isPrime_accepts_only_fermat_probable_primes_witness :
  wf (of_u64 97) /\ 3 < value (of_u64 97) <= 2 ^ 2048 /\
  isPrime (of_u64 97) 5 = Ok true /\ Z.of_nat 1 < 5 /\ basePrimes !! 1%nat = Some 3 /\
  3 ^ (value (of_u64 97) - 1) mod value (of_u64 97) = 1 /\ ~ (3 | value (of_u64 97)).
Proof.
  assert (3 < value (of_u64 97) <= 2 ^ 2048) as Hr
    by (vm_compute; split; [reflexivity | discriminate]).
  assert (isPrime (of_u64 97) 5 = Ok true) as Hacc
    by (rewrite isPrime_refines by apply wf_of_u64; vm_compute; reflexivity).
  split; [apply wf_of_u64|]. split; [exact Hr|]. split; [exact Hacc|].
  split; [reflexivity|]. split; [reflexivity|].
  exact (isPrime_accepts_only_fermat_probable_primes (of_u64 97) 5 1 3
           (wf_of_u64 97) Hr Hacc eq_refl eq_refl).
Defined.

Lemma sqrt_one_mod_prime n z :
  Z.prime n -> 0 <= z < n -> z * z mod n = 1 -> z = 1 \/ z = n - 1.
Proof.
  intros Hp Hz Hsq. pose proof (Z.prime_ge_2 _ Hp) as Hn.
  assert ((n | (z - 1) * (z + 1))) as Hdiv.
  { exists (z * z / n). pose proof (Z.div_mod (z * z) n ltac:(lia)) as E.
    rewrite Hsq in E. lia. }
  apply (Z.divide_prime_mul _ _ n Hp) in Hdiv as [[q Hq]|[q Hq]].
  - left. assert (q = 0) by nia. lia.
  - right. assert (q = 1) by nia. lia.
Qed.

(** A prime is a strong probable prime to every base it does not divide. *)
Lemma prime_strong_probable_prime n d r a :
  Z.prime n -> a mod n <> 0 -> 0 <= d -> 0 <= r -> n - 1 = d * 2 ^ r ->
  strong_probable_prime n d r a.
Proof.
  intros Hp Ha Hd Hr E. pose proof (Z.prime_ge_2 _ Hp) as Hn.
  assert (forall j : nat, Z.of_nat j <= r -> a ^ (d * 2 ^ Z.of_nat j) mod n = 1 ->
            strong_probable_prime n d r a) as Hdown.
  { induction j as [|j IH]; intros Hj H1.
    - left. now rewrite Z.pow_0_r, Z.mul_1_r in H1.
    - rewrite Nat2Z.inj_succ in Hj, H1.
      set (z := a ^ (d * 2 ^ Z.of_nat j) mod n).
      assert (z * z mod n = 1) as Hsq.
      { assert (0 <= d * 2 ^ Z.of_nat j) as Hdj
          by (apply Z.mul_nonneg_nonneg; [lia | apply Z.pow_nonneg; lia]).
        subst z. rewrite <- Z.mul_mod, <- Z.pow_add_r by lia.
        rewrite <- H1. do 2 f_equal. rewrite Z.pow_succ_r by lia. ring. }
      destruct (sqrt_one_mod_prime n z Hp (Z.mod_pos_bound _ n ltac:(lia)) Hsq) as [H|H].
      + apply IH; [lia | exact H].
      + right. exists (Z.of_nat j). split; [lia | exact H]. }
  apply (Hdown (Z.to_nat r)); rewrite Z2Nat.id by lia; [lia|].
  rewrite <- E. now apply Z.fermat_nz.
Qed.

Lemma isPrime_Z_accepts_prime p rounds :
  Z.prime p -> 11 < p <= SQRT_MODULUS -> rounds <= 5 -> isPrime_Z p rounds = Ok true.
Proof.
  intros Hp Hr Hk. pose proof SQRT_lt_MODULUS as HS.
  assert (Z.odd p = true) as Hodd.
  { destruct (Z.odd p) eqn:Ho; [reflexivity|]. exfalso.
    apply (proj2 Hp 2 ltac:(lia)). exists (p / 2).
    pose proof (odd_half p) as Eh. rewrite Ho in Eh. lia. }
  destruct (isPrime_Z_decompose p rounds ltac:(lia) Hodd)
    as (d & r & Ed & _ & Hr1 & Hd & ->).
  apply (witness_loop_Z_spec p d r ltac:(lia) Hd Hr1).
  intros j Hj. cbn [Nat.add].
  destruct (lookup_lt_is_Some_2 basePrimes j) as [q Hq]; [cbn; lia|].
  exists q. split; [exact Hq|].
  destruct (basePrimes_entry j q Hq) as (_ & Hq2 & ->).
  apply prime_strong_probable_prime; try assumption; try lia.
  rewrite Z.mod_small; lia.
Qed.

(** X16: with at most five rounds no prime above 11 and up to [2^2048] is
    rejected. *)
Theorem isPrime_accepts_primes_above_11 n rounds :
  wf n -> Z.prime (value n) -> 11 < value n <= 2 ^ 2048 -> rounds <= 5 ->
  isPrime n rounds = Ok true.
Proof.
  intros Hn Hp Hr Hk. change (2 ^ 2048) with SQRT_MODULUS in Hr.
  rewrite isPrime_refines by assumption. now apply isPrime_Z_accepts_prime.
Qed.

Lemma prime_13 : Z.prime 13.
Proof.
  split; [reflexivity|]. intros k Hk [q Hq].
  assert (k = 2 \/ k = 3 \/ k = 4 \/ k = 5 \/ k = 6 \/ k = 7 \/ k = 8 \/ k = 9 \/
          k = 10 \/ k = 11 \/ k = 12) as H by lia.
  repeat (destruct H as [->|H]; [lia|]). lia.
Qed.

Lemma isPrime_accepts_primes_above_11_witness :
  wf (of_u64 13) /\ Z.prime (value (of_u64 13)) /\
  11 < value (of_u64 13) <= 2 ^ 2048 /\ 5 <= 5 /\
  isPrime (of_u64 13) 5 = Ok true.
Proof.
  assert (Z.prime (value (of_u64 13))) as Hp by exact prime_13.
  assert (11 < value (of_u64 13) <= 2 ^ 2048) as Hr
    by (vm_compute; split; [reflexivity | discriminate]).
  split; [apply wf_of_u64|]. split; [exact Hp|]. split; [exact Hr|].
  split; [apply Z.le_refl|].
  exact (isPrime_accepts_primes_above_11 (of_u64 13) 5 (wf_of_u64 13) Hp Hr (Z.le_refl 5)).
Defined.

(** * Reading the command line *)

Lemma isspace_not_digit c : isspace c = true -> is_digit c = false.
Proof.
  unfold isspace, is_digit. intros H.
  destruct (Z.eqb_spec (Z.of_N (N_of_ascii c)) 32),
           (Z.leb_spec 9 (Z.of_N (N_of_ascii c))),
           (Z.leb_spec (Z.of_N (N_of_ascii c)) 13),
           (Z.ltb_spec (Z.of_N (N_of_ascii c)) 48),
           (Z.gtb_spec (Z.of_N (N_of_ascii c)) 57);
    cbn in *; lia || discriminate || reflexivity.
Qed.

Lemma skip_space_split s :
  exists ws, s = ws ++ skip_space s /\ forallb isspace ws = true.
Proof.
  induction s as [|c s (ws & E & Hws)]; [exists []; now split|].
  cbn [skip_space]. destruct (isspace c) eqn:Hc.
  - exists (c :: ws). cbn [app forallb]. rewrite Hc, Hws. split; [|reflexivity].
    now rewrite <- E.
  - exists []. now split.
Qed.

Lemma skip_space_head s c r : skip_space s = c :: r -> isspace c = false.
Proof.
  induction s as [|x s IH]; [discriminate|]. cbn [skip_space].
  destruct (isspace x) eqn:Hx; [exact IH|]. intros E. now inversion E; subst.
Qed.

Lemma skip_space_app ws tok :
  forallb isspace ws = true -> skip_space (ws ++ tok) = skip_space tok.
Proof.
  induction ws as [|c ws IH]; [reflexivity|]. cbn [forallb app skip_space].
  intros H. apply andb_true_iff in H as [-> H]. now apply IH.
Qed.

Lemma skip_space_token tok :
  forallb (fun c => negb (isspace c)) tok = true -> skip_space tok = tok.
Proof.
  destruct tok as [|c tok]; [reflexivity|]. cbn [forallb skip_space]. intros H.
  apply andb_true_iff in H as [H _]. apply negb_true_iff in H. now rewrite H.
Qed.

Lemma take_token_split s :
  s = fst (take_token s) ++ snd (take_token s) /\
  forallb (fun c => negb (isspace c)) (fst (take_token s)) = true.
Proof.
  induction s as [|c s [E H]]; [now split|]. cbn [take_token].
  destruct (isspace c) eqn:Hc; [now split|].
  destruct (take_token s) as [tok rest]. cbn [fst snd] in *.
  cbn [app forallb]. rewrite Hc, H. split; [|reflexivity]. now rewrite <- E.
Qed.

Lemma take_token_all s :
  forallb (fun c => negb (isspace c)) s = true -> take_token s = (s, []).
Proof.
  induction s as [|c s IH]; [reflexivity|]. cbn [forallb take_token]. intros H.
  apply andb_true_iff in H as [Hc H]. apply negb_true_iff in Hc.
  now rewrite Hc, IH.
Qed.

Lemma from_string_same_digits s t :
  decimal_value s = decimal_value t -> from_string s = from_string t.
Proof.
  intros E. destruct (from_string_value s) as [Hs Vs], (from_string_value t) as [Ht Vt].
  apply wf_value_inj; [assumption | assumption|]. now rewrite Vs, Vt, E.
Qed.

Lemma decimal_value_skip ws s :
  forallb isspace ws = true -> decimal_value (ws ++ s) = decimal_value s.
Proof.
  intros H. unfold decimal_value. rewrite fold_left_app.
  fold (decimal_value ws). rewrite decimal_value_no_digit; [reflexivity|].
  clear s. induction ws as [|c ws IH]; [reflexivity|]. cbn [forallb] in *.
  apply andb_true_iff in H as [Hc H]. now rewrite (isspace_not_digit c Hc), IH.
Qed.

(** What [parse_BigInt4096] returns is decided by the shape of the text
    alone. *)
Lemma parse_BigInt4096_shape ws tok :
  forallb isspace ws = true -> tok <> [] ->
  forallb (fun c => negb (isspace c)) tok = true ->
  parse_BigInt4096 (ws ++ tok) = (true, from_string (ws ++ tok)).
Proof.
  intros Hws Hne Htok. unfold parse_BigInt4096, read_BigInt4096.
  rewrite skip_space_app, skip_space_token by assumption.
  destruct tok as [|c tok]; [congruence|].
  rewrite take_token_all by assumption. cbn [negb andb].
  f_equal. apply from_string_same_digits. now rewrite decimal_value_skip.
Qed.

Lemma parse_BigInt4096_true arg :
  fst (parse_BigInt4096 arg) = true ->
  exists ws tok, arg = ws ++ tok /\ forallb isspace ws = true /\ tok <> [] /\
                 forallb (fun c => negb (isspace c)) tok = true.
Proof.
  unfold parse_BigInt4096, read_BigInt4096.
  destruct (skip_space_split arg) as (ws & E & Hws).
  destruct (skip_space arg) as [|c s'] eqn:Hs; [discriminate|].
  pose proof (take_token_split (c :: s')) as [E' Htok].
  destruct (take_token (c :: s')) as [tok rest]. cbn [fst snd] in *.
  destruct rest; [|discriminate]. intros _.
  rewrite app_nil_r in E'. subst tok.
  exists ws, (c :: s'). repeat split; [exact E | exact Hws | discriminate | exact Htok].
Qed.

Lemma parse_BigInt4096_out arg :
  fst (parse_BigInt4096 arg) = true -> snd (parse_BigInt4096 arg) = from_string arg.
Proof.
  intros Hok. destruct (parse_BigInt4096_true arg Hok) as (ws & tok & -> & Hws & Hne & Htok).
  now rewrite parse_BigInt4096_shape.
Qed.

(** X17: [parse_BigInt4096] accepts exactly the texts that consist of a
    single run of characters other than white space, white space allowed in
    front of it but not after it; what it then stores is the number written
    by the digits of the text, so a run without any digit, such as a word or
    a lone minus sign, is accepted as 0.  Accepted or not, the value left
    in [out] is well formed. *)
Theorem parse_BigInt4096_accepts arg :
  wf (snd (parse_BigInt4096 arg)) /\
  (fst (parse_BigInt4096 arg) = true <->
   exists ws tok, arg = ws ++ tok /\ forallb isspace ws = true /\ tok <> [] /\
                  forallb (fun c => negb (isspace c)) tok = true) /\
  (fst (parse_BigInt4096 arg) = true ->
   snd (parse_BigInt4096 arg) = from_string arg /\
   value (snd (parse_BigInt4096 arg)) = decimal_value arg mod 2 ^ 4096) /\
  (arg <> [] -> forallb (fun c => negb (isspace c) && negb (is_digit c)) arg = true ->
   parse_BigInt4096 arg = (true, of_u64 0)).
Proof.
  change (2 ^ 4096) with MODULUS.
  split; [|split; [|split]].
  - unfold parse_BigInt4096, read_BigInt4096.
    destruct (skip_space arg) as [|c s']; [apply from_string_value|].
    destruct (take_token (c :: s')) as [tok rest]. apply from_string_value.
  - split; [apply parse_BigInt4096_true|].
    intros (ws & tok & -> & Hws & Hne & Htok).
    now rewrite parse_BigInt4096_shape.
  - intros Hok. rewrite parse_BigInt4096_out by assumption.
    split; [reflexivity | apply from_string_value].
  - intros Hne Hall.
    assert (forallb (fun c => negb (isspace c)) arg = true /\
            forallb (fun c => negb (is_digit c)) arg = true) as [Hs Hd].
    { clear Hne. induction arg as [|c s IH]; [now split|]. cbn [forallb] in *.
      apply andb_true_iff in Hall as [Hc Hall]. apply andb_true_iff in Hc as [-> ->].
      destruct (IH Hall) as [-> ->]. now split. }
    pose proof (parse_BigInt4096_shape [] arg eq_refl Hne Hs) as E. cbn [app] in E.
    rewrite E. f_equal.
    apply wf_value_inj; [apply from_string_value | apply wf_of_u64|].
    rewrite (proj2 (from_string_value arg)), value_of_u64, decimal_value_no_digit by assumption.
    reflexivity.
Qed.

Lemma from_string_nil : from_string [] = of_u64 0.
Proof.
  apply wf_value_inj; [apply from_string_value | apply wf_of_u64|].
  now rewrite (proj2 (from_string_value [])), value_of_u64.
Qed.

(** [parse_arguments] from any state of the object. *)
Lemma parse_arguments_spec opts : forall app,
  timeout (snd (parse_arguments opts app)) = timeout app /\
  fst (parse_arguments opts app)
  = forallb accepted_option opts &&
    (Z.b2z (has_n app || given 110 opts) + Z.b2z (has_le app || given 1000 opts)
     + Z.b2z (has_all app || given 1002 opts) =? 1) /\
  (forallb accepted_option opts = true ->
   has_n (snd (parse_arguments opts app)) = has_n app || given 110 opts /\
   has_le (snd (parse_arguments opts app)) = has_le app || given 1000 opts /\
   has_all (snd (parse_arguments opts app)) = has_all app || given 1002 opts /\
   show_runtime (snd (parse_arguments opts app)) = show_runtime app || given 1001 opts /\
   n_value (snd (parse_arguments opts app))
   = (if given 110 opts then from_string (last_given 110 opts) else n_value app) /\
   le_value (snd (parse_arguments opts app))
   = (if given 1000 opts then from_string (last_given 1000 opts) else le_value app) /\
   all_value (snd (parse_arguments opts app))
   = (if given 1002 opts then from_string (last_given 1002 opts) else all_value app)).
Proof.
  induction opts as [|[opt optarg] opts IH]; intros app.
  - cbn [parse_arguments fst snd forallb given existsb last_given andb].
    rewrite !orb_false_r. repeat split; reflexivity.
  - cbn [parse_arguments]. unfold accepted_option at 1 2.
    cbn [forallb given existsb last_given fst snd]. fold (given 110 opts) (given 1000 opts)
      (given 1001 opts) (given 1002 opts).
    destruct (Z.eqb_spec opt 110) as [->|N1].
    { pose proof (parse_BigInt4096_out optarg) as Hout.
      destruct (parse_BigInt4096 optarg) as [ok out]. cbn [fst snd] in *.
      change (110 =? 1000) with false. change (110 =? 1001) with false.
      change (110 =? 1002) with false. cbn [orb andb].
      destruct ok; cbn [negb andb]; [|now split].
      specialize (IH (set_has_n true (set_n_value out app))).
      cbn [set_has_n set_n_value has_n has_le has_all show_runtime n_value le_value
           all_value timeout] in IH.
      destruct IH as (Ht & Hf & Hs). split; [exact Ht|]. split.
      { rewrite Hf. now rewrite orb_true_r. }
      intros Hall. destruct (Hs Hall) as (-> & -> & -> & -> & -> & -> & ->).
      rewrite ?orb_true_r, (Hout eq_refl). cbn [orb].
      destruct (given 110 opts), (given 1000 opts), (given 1002 opts);
        repeat split; reflexivity. }
    destruct (Z.eqb_spec opt 1000) as [->|N2].
    { pose proof (parse_BigInt4096_out optarg) as Hout.
      destruct (parse_BigInt4096 optarg) as [ok out]. cbn [fst snd] in *.
      change (1000 =? 110) with false. change (1000 =? 1001) with false.
      change (1000 =? 1002) with false. cbn [orb andb].
      destruct ok; cbn [negb andb]; [|now split].
      specialize (IH (set_has_le true (set_le_value out app))).
      cbn [set_has_le set_le_value has_n has_le has_all show_runtime n_value le_value
           all_value timeout] in IH.
      destruct IH as (Ht & Hf & Hs). split; [exact Ht|]. split.
      { rewrite Hf. now rewrite orb_true_r. }
      intros Hall. destruct (Hs Hall) as (-> & -> & -> & -> & -> & -> & ->).
      rewrite ?orb_true_r, (Hout eq_refl). cbn [orb].
      destruct (given 110 opts), (given 1000 opts), (given 1002 opts);
        repeat split; reflexivity. }
    destruct (Z.eqb_spec opt 1001) as [->|N3].
    { cbn [orb andb].
      specialize (IH (set_show_runtime true app)).
      cbn [set_show_runtime has_n has_le has_all show_runtime n_value le_value
           all_value timeout] in IH.
      destruct IH as (Ht & Hf & Hs). split; [exact Ht|]. split; [exact Hf|].
      intros Hall. destruct (Hs Hall) as (-> & -> & -> & -> & -> & -> & ->).
      rewrite ?orb_true_r. cbn [orb].
      destruct (given 110 opts), (given 1000 opts), (given 1002 opts);
        repeat split; reflexivity. }
    destruct (Z.eqb_spec opt 1002) as [->|N4].
    { pose proof (parse_BigInt4096_out optarg) as Hout.
      destruct (parse_BigInt4096 optarg) as [ok out]. cbn [fst snd] in *.
      cbn [orb andb].
      destruct ok; cbn [negb andb]; [|now split].
      specialize (IH (set_has_all true (set_all_value out app))).
      cbn [set_has_all set_all_value has_n has_le has_all show_runtime n_value le_value
           all_value timeout] in IH.
      destruct IH as (Ht & Hf & Hs). split; [exact Ht|]. split.
      { rewrite Hf. now rewrite orb_true_r. }
      intros Hall. destruct (Hs Hall) as (-> & -> & -> & -> & -> & -> & ->).
      rewrite ?orb_true_r, (Hout eq_refl). cbn [orb].
      destruct (given 110 opts), (given 1000 opts), (given 1002 opts);
        repeat split; reflexivity. }
    cbn [orb andb fst snd]. split; [reflexivity|]. split; [reflexivity|]. discriminate.
Qed.

Lemma run_cases opts :
  run opts
  = if forallb accepted_option opts &&
       (Z.b2z (given 110 opts) + Z.b2z (given 1000 opts) + Z.b2z (given 1002 opts) =? 1)
    then inr {| task_mode := if given 110 opts then NthPrime
                             else if given 1000 opts then LessThan else AllUpTo;
                task_value := from_string (if given 110 opts then last_given 110 opts
                                           else if given 1000 opts then last_given 1000 opts
                                           else last_given 1002 opts);
                task_timeout := 0;
                task_show_runtime := given 1001 opts |}
    else inl 1.
Proof.
  unfold run. destruct (parse_arguments_spec opts TimedTaskApp_new) as (Ht & Hf & Hs).
  destruct (parse_arguments opts TimedTaskApp_new) as [ok app]. cbn [fst snd] in *.
  cbn [TimedTaskApp_new has_n has_le has_all show_runtime n_value le_value all_value
       timeout orb] in *.
  subst ok. destruct (forallb accepted_option opts); cbn [andb negb]; [|reflexivity].
  destruct (Hs eq_refl) as (H1 & H2 & H3 & H4 & H5 & H6 & H7).
  rewrite H1, H2, H4, H5, H6, H7, Ht.
  destruct (given 110 opts), (given 1000 opts), (given 1002 opts);
    cbn [Z.b2z Z.add Z.eqb Pos.add Pos.eqb negb Pos.succ]; reflexivity.
Qed.

(** X18: a task that [run] starts never has a time limit: [timeout] is 0
    whatever the command line says.  Its mode is the one of the only mode
    option given, its value is the number read from the last occurrence of
    that option, and the run time is shown exactly when [--rt] was given. *)
Theorem run_starts_task_without_timeout opts task :
  run opts = inr task ->
  task_timeout task = 0 /\
  task_show_runtime task = given 1001 opts /\
  forallb accepted_option opts = true /\
  ((task_mode task = NthPrime /\ task_value task = from_string (last_given 110 opts) /\
    given 110 opts = true /\ given 1000 opts = false /\ given 1002 opts = false) \/
   (task_mode task = LessThan /\ task_value task = from_string (last_given 1000 opts) /\
    given 110 opts = false /\ given 1000 opts = true /\ given 1002 opts = false) \/
   (task_mode task = AllUpTo /\ task_value task = from_string (last_given 1002 opts) /\
    given 110 opts = false /\ given 1000 opts = false /\ given 1002 opts = true)).
Proof.
  rewrite run_cases. destruct (forallb accepted_option opts); [|discriminate].
  cbn [andb].
  destruct (given 110 opts), (given 1000 opts), (given 1002 opts);
    cbn [Z.b2z Z.add Z.eqb Pos.add Pos.eqb Pos.succ]; try discriminate;
    intros E; inversion E; subst task; cbn [task_mode task_value task_timeout task_show_runtime];
    (split; [reflexivity|]); (split; [reflexivity|]); (split; [reflexivity|]).
  - left. repeat split; reflexivity.
  - right; left. repeat split; reflexivity.
  - right; right. repeat split; reflexivity.
Qed.

Lemma run_starts_task_without_timeout_witness :
  let opts := [(1001, []); (110, ["7"%char]); (110, [" "%char; "1"%char; "2"%char])] in
  let task := {| task_mode := NthPrime; task_value := of_u64 12;
                 task_timeout := 0; task_show_runtime := true |} in
  run opts = inr task /\ task_timeout task = 0 /\ task_mode task = NthPrime.
Proof.
  cbv zeta.
  assert (run [(1001, []); (110, ["7"%char]); (110, [" "%char; "1"%char; "2"%char])]
          = inr {| task_mode := NthPrime; task_value := of_u64 12;
                   task_timeout := 0; task_show_runtime := true |}) as E
    by (vm_compute; reflexivity).
  split; [exact E|].
  pose proof (run_starts_task_without_timeout _ _ E) as H.
  split; [exact (proj1 H) | reflexivity].
Defined.

(** X19: [run] ends in [usage], with exit status 1, exactly when some option
    is not one of [-n], [--le], [--all] with an argument that
    [parse_BigInt4096] accepts or [--rt], or when the number of different
    mode options given is not one.  The option [-t] of the usage text is
    among the rejected ones: any command line with it ends in [usage]. *)
Theorem run_usage opts :
  (run opts = inl 1 <->
   forallb accepted_option opts &&
   (Z.b2z (given 110 opts) + Z.b2z (given 1000 opts) + Z.b2z (given 1002 opts) =? 1)
   = false) /\
  (forall optarg, In (116, optarg) opts -> run opts = inl 1) /\
  (forall arg1 arg2, run [(110, arg1); (1000, arg2)] = inl 1) /\
  run [] = inl 1.
Proof.
  split; [|split; [|split]].
  - rewrite run_cases. destruct (_ && _); split; congruence.
  - intros optarg Hin. rewrite run_cases.
    assert (forallb accepted_option opts = false) as ->; [|reflexivity].
    induction opts as [|o opts IH]; [destruct Hin|]. cbn [forallb].
    destruct Hin as [->|Hin]; [reflexivity|]. rewrite IH by assumption. apply andb_false_r.
  - intros arg1 arg2. rewrite run_cases.
    cbn [given existsb fst orb Z.eqb Pos.eqb Z.b2z Z.add Pos.add].
    change (1 + 1 + 0 =? 1) with false. now rewrite andb_false_r.
  - reflexivity.
Qed.

(** * The tasks *)

Lemma MODULUS_large : 2 ^ 64 < MODULUS.
Proof. reflexivity. Qed.

Lemma is_prime_value i : wf i -> is_prime i = isPrime_Z (value i) 5.
Proof. intros Hi. unfold is_prime. now apply isPrime_refines. Qed.

Lemma is_prime_accepts i : wf i -> is_prime i = Ok (accepts i).
Proof.
  intros Hi. unfold accepts.
  destruct (isPrime_outcome i 5 Hi) as [[b Hb]|[_ H]]; [|lia].
  unfold is_prime. rewrite Hb. now destruct b.
Qed.

Lemma is_prime_two i : wf i -> value i = 2 -> is_prime i = Ok true.
Proof. intros Hi Hv. rewrite is_prime_value, Hv by assumption. reflexivity. Qed.

Lemma succ_correct i :
  wf i -> wf (add i (of_u64 1)) /\ value (add i (of_u64 1)) = (value i + 1) mod MODULUS.
Proof.
  intros Hi. destruct (add_correct i (of_u64 1) Hi (wf_of_u64 1)) as [Hwf Hv].
  split; [exact Hwf|]. now rewrite Hv, value_of_u64.
Qed.

Lemma wf_candidate k : wf (candidate k).
Proof. apply wf_of_Z. Qed.

Lemma value_candidate k :
  2 + Z.of_nat k < MODULUS -> value (candidate k) = 2 + Z.of_nat k.
Proof. intros H. unfold candidate. rewrite value_of_Z. apply Z.mod_small. lia. Qed.

Lemma candidate_0 : candidate 0 = of_u64 2.
Proof. apply of_u64_of_Z. split; [discriminate | reflexivity]. Qed.

Lemma candidate_succ k :
  2 + Z.of_nat (S k) < MODULUS -> add (candidate k) (of_u64 1) = candidate (S k).
Proof.
  intros H. destruct (succ_correct (candidate k) (wf_candidate k)) as [Hwf Hv].
  apply wf_value_inj; [exact Hwf | apply wf_candidate|].
  rewrite Hv, !value_candidate by lia. rewrite Z.mod_small; lia.
Qed.

(** ** compute_prime_less_than *)

Lemma prime_less_than_loop_spec timeout elapsed n :
  wf n ->
  forall fuel k i,
    wf i -> 2 <= value i <= value n -> value i - 1 <= Z.of_nat fuel ->
    Z.of_nat k = value n - value i ->
    (forall j, wf j -> value i < value j <= value n -> is_prime j = Ok false) ->
    exists v, prime_less_than_loop fuel timeout elapsed k i = Ok v /\ wf v /\
      ((2 <= value v <= value n /\ is_prime v = Ok true /\
        forall j, wf j -> value v < value j <= value n -> is_prime j = Ok false) \/
       (v = of_u64 0 /\ 0 < timeout /\
        exists k', timeout <= elapsed k' /\ Z.of_nat k' <= value n - 2 /\
          forall j, wf j -> value n - Z.of_nat k' <= value j <= value n ->
                    is_prime j = Ok false)).
Proof.
  intros Hn. induction fuel as [|fuel IH]; intros k i Hi Hr Hf Hk Hrej; [lia|].
  cbn [prime_less_than_loop].
  rewrite ge_correct, value_of_u64 by (assumption || apply wf_of_u64).
  change (u64 2) with 2. destruct (Z.leb_spec 2 (value i)) as [_|]; [|lia].
  rewrite is_prime_accepts by assumption. cbn [bind].
  destruct (accepts i) eqn:Hacc.
  { exists i. split; [reflexivity|]. split; [exact Hi|]. left.
    split; [exact Hr|]. split; [|exact Hrej].
    now rewrite is_prime_accepts, Hacc. }
  assert (is_prime i = Ok false) as Hno by now rewrite is_prime_accepts, Hacc.
  assert (value i <> 2) as Hi2.
  { intros E. rewrite (is_prime_two i Hi E) in Hno. discriminate. }
  assert (forall j, wf j -> value i <= value j <= value n -> is_prime j = Ok false) as Hrej'.
  { intros j Hj Hjr. destruct (Z.eq_dec (value j) (value i)) as [E|E].
    - now rewrite (wf_value_inj j i Hj Hi E).
    - apply Hrej; [exact Hj | lia]. }
  unfold timed_out. destruct (Z.gtb_spec timeout 0) as [Ht|Ht]; cbn [andb].
  - destruct (Z.geb_spec (elapsed k) timeout) as [He|He].
    + exists (of_u64 0). split; [reflexivity|]. split; [apply wf_of_u64|]. right.
      split; [reflexivity|]. split; [lia|]. exists k.
      split; [lia|]. split; [lia|]. intros j Hj Hjr. apply Hrej'; [exact Hj | lia].
    + destruct (pred_correct i Hi) as [Hwf Hv].
      pose proof (wf_value_bound i Hi) as Hb.
      rewrite Z.mod_small in Hv by lia.
      apply IH; [exact Hwf | lia | lia | lia |].
      intros j Hj Hjr. apply Hrej'; [exact Hj | lia].
  - destruct (pred_correct i Hi) as [Hwf Hv].
    pose proof (wf_value_bound i Hi) as Hb.
    rewrite Z.mod_small in Hv by lia.
    apply IH; [exact Hwf | lia | lia | lia |].
    intros j Hj Hjr. apply Hrej'; [exact Hj | lia].
Qed.

(** X20: [compute_prime_less_than] returns, with at most [n] turns of its
    loop.  The result is 0 when [n < 2]; otherwise it is the largest value
    of 2 .. n that [is_prime] accepts, unless the time limit is positive and
    ran out first, in which case it is 0 and every value tried was
    rejected. *)
Theorem compute_prime_less_than_result fuel timeout elapsed n :
  wf n -> value n <= Z.of_nat fuel ->
  exists v, compute_prime_less_than fuel timeout elapsed n = Ok v /\ wf v /\
    ((2 <= value v <= value n /\ is_prime v = Ok true /\
      forall j, wf j -> value v < value j <= value n -> is_prime j = Ok false) \/
     (v = of_u64 0 /\
      (value n < 2 \/
       0 < timeout /\
       exists k, timeout <= elapsed k /\ Z.of_nat k <= value n - 2 /\
         forall j, wf j -> value n - Z.of_nat k <= value j <= value n ->
                   is_prime j = Ok false))).
Proof.
  intros Hn Hf. unfold compute_prime_less_than.
  rewrite lt_correct, value_of_u64 by (assumption || apply wf_of_u64).
  change (u64 2) with 2. destruct (Z.ltb_spec (value n) 2) as [H2|H2].
  - exists (of_u64 0). split; [reflexivity|]. split; [apply wf_of_u64|].
    right. split; [reflexivity|]. now left.
  - destruct (prime_less_than_loop_spec timeout elapsed n Hn fuel 0%nat n Hn)
      as (v & Ev & Hv & Hcase); [lia | lia | cbn; lia | intros j _ Hj; lia |].
    exists v. split; [exact Ev|]. split; [exact Hv|].
    destruct Hcase as [H|(E & Ht & Hk)]; [now left|].
    right. split; [exact E|]. right. now split.
Qed.

Lemma compute_prime_less_than_result_witness :
  wf (of_u64 12) /\ value (of_u64 12) <= Z.of_nat 12 /\
  exists v, compute_prime_less_than 12 0 (fun _ => 0) (of_u64 12) = Ok v /\ wf v.
Proof.
  assert (value (of_u64 12) <= Z.of_nat 12) as Hf by (vm_compute; discriminate).
  split; [apply wf_of_u64|]. split; [exact Hf|].
  destruct (compute_prime_less_than_result 12 0 (fun _ => 0) (of_u64 12) (wf_of_u64 12) Hf)
    as (v & Ev & Hv & _).
  exists v. split; [exact Ev | exact Hv].
Defined.

Lemma accepts_small z :
  0 <= z <= 12 -> accepts (of_u64 z) = (z =? 2) || (z =? 3).
Proof.
  intros Hz. unfold accepts. rewrite is_prime_value by apply wf_of_u64.
  rewrite value_of_u64, u64_small by lia.
  assert (z = 0 \/ z = 1 \/ z = 2 \/ z = 3 \/ z = 4 \/ z = 5 \/ z = 6 \/ z = 7 \/ z = 8 \/
          z = 9 \/ z = 10 \/ z = 11 \/ z = 12) as H by lia.
  repeat (destruct H as [->|H]; [vm_compute; reflexivity|]). subst z. vm_compute. reflexivity.
Qed.

Lemma of_u64_value v : wf v -> value v < 2 ^ 64 -> v = of_u64 (value v).
Proof.
  intros Hv Hs. pose proof (wf_value_bound v Hv).
  apply wf_value_inj; [assumption | apply wf_of_u64|].
  rewrite value_of_u64, u64_small; lia.
Qed.

(** X21: without a time limit, [compute_prime_less_than] returns 3 for
    every [n] from 3 to 12, so also for 5, 7 and 11, which [is_prime]
    rejects; and for [n] up to [2^2048] its result is not below any prime
    [p] with [11 < p <= n]. *)
Theorem compute_prime_less_than_no_timeout fuel timeout elapsed n :
  wf n -> timeout <= 0 -> value n <= Z.of_nat fuel ->
  (3 <= value n <= 12 ->
   compute_prime_less_than fuel timeout elapsed n = Ok (of_u64 3)) /\
  (forall p, Z.prime p -> 11 < p <= value n -> value n <= 2 ^ 2048 ->
   exists v, compute_prime_less_than fuel timeout elapsed n = Ok v /\
             p <= value v <= value n /\ is_prime v = Ok true).
Proof.
  intros Hn Ht Hf. change (2 ^ 2048) with SQRT_MODULUS.
  assert (3 <= value n ->
          exists v, compute_prime_less_than fuel timeout elapsed n = Ok v /\ wf v /\
            2 <= value v <= value n /\ is_prime v = Ok true /\
            forall j, wf j -> value v < value j <= value n -> is_prime j = Ok false)
    as Hres.
  { intros H3. unfold compute_prime_less_than.
    rewrite lt_correct, value_of_u64 by (assumption || apply wf_of_u64).
    change (u64 2) with 2. destruct (Z.ltb_spec (value n) 2) as [|_]; [lia|].
    destruct (prime_less_than_loop_spec timeout elapsed n Hn fuel 0%nat n Hn)
      as (v & Ev & Hv & [Hcase|(_ & H & _)]);
      [lia | lia | cbn; lia | intros j _ Hj; lia | | lia].
    exists v. split; [exact Ev|]. split; [exact Hv | exact Hcase]. }
  split.
  - intros Hr. destruct (Hres ltac:(lia)) as (v & Ev & Hv & Hvr & Hacc & Hrej).
    rewrite Ev. f_equal.
    pose proof (of_u64_value v Hv ltac:(lia)) as Ev'.
    rewrite Ev'. f_equal. rewrite Ev' in Hacc.
    rewrite is_prime_accepts, accepts_small in Hacc by (apply wf_of_u64 || lia).
    destruct (Z.eqb_spec (value v) 3) as [E3|N3]; [exact E3|].
    destruct (Z.eqb_spec (value v) 2) as [E2|N2]; [|discriminate].
    specialize (Hrej (of_u64 3) (wf_of_u64 3)).
    rewrite value_of_u64, is_prime_accepts, accepts_small in Hrej
      by (apply wf_of_u64 || lia).
    change (u64 3) with 3 in Hrej.
    specialize (Hrej ltac:(lia)). discriminate.
  - intros p Hp Hpr Hs.
    destruct (Hres ltac:(lia)) as (v & Ev & Hv & Hvr & Hacc & Hrej).
    exists v. split; [exact Ev|]. split; [|exact Hacc]. split; [|lia].
    destruct (Z.le_gt_cases p (value v)) as [|Hlt]; [assumption|]. exfalso.
    pose proof SQRT_lt_MODULUS.
    specialize (Hrej (of_Z p) (wf_of_Z p)).
    rewrite value_of_Z, Z.mod_small in Hrej by lia.
    rewrite is_prime_value, value_of_Z, Z.mod_small in Hrej by (apply wf_of_Z || lia).
    rewrite isPrime_Z_accepts_prime in Hrej by (assumption || lia).
    specialize (Hrej ltac:(lia)). discriminate.
Qed.

Lemma compute_prime_less_than_no_timeout_witness :
  wf (of_u64 11) /\ 0 <= 0 /\ value (of_u64 11) <= Z.of_nat 11 /\
  3 <= value (of_u64 11) <= 12 /\
  compute_prime_less_than 11 0 (fun _ => 0) (of_u64 11) = Ok (of_u64 3).
Proof.
  assert (value (of_u64 11) <= Z.of_nat 11) as Hf by (vm_compute; discriminate).
  assert (3 <= value (of_u64 11) <= 12) as Hr by (vm_compute; split; discriminate).
  split; [apply wf_of_u64|]. split; [apply Z.le_refl|]. split; [exact Hf|].
  split; [exact Hr|].
  exact (proj1 (compute_prime_less_than_no_timeout 11 0 (fun _ => 0) (of_u64 11)
                  (wf_of_u64 11) (Z.le_refl 0) Hf) Hr).
Defined.

(** ** compute_all_primes_up_to *)

Lemma accepted_below_S k :
  accepted_below (S k)
  = accepted_below k ++ (if accepts (candidate k) then [candidate k] else []).
Proof.
  unfold accepted_below. rewrite seq_S, List.map_app, List.filter_app.
  cbn [Nat.add map List.filter]. now destruct (accepts (candidate k)).
Qed.

Lemma accepted_below_length k : (length (accepted_below k) <= k)%nat.
Proof.
  induction k as [|k IH]; [cbn; lia|]. rewrite accepted_below_S, length_app.
  destruct (accepts (candidate k)); cbn [length]; lia.
Qed.

Lemma accepted_below_mono a b :
  (a <= b)%nat -> (length (accepted_below a) <= length (accepted_below b))%nat.
Proof.
  induction 1 as [|b _ IH]; [lia|]. rewrite accepted_below_S, length_app. lia.
Qed.

Lemma accepted_below_In m j :
  2 + Z.of_nat m <= MODULUS -> wf j ->
  In j (accepted_below m) <-> 2 <= value j < 2 + Z.of_nat m /\ is_prime j = Ok true.
Proof.
  intros Hm Hj. unfold accepted_below.
  rewrite List.filter_In, List.in_map_iff. split.
  - intros [(k & <- & Hk) Hacc]. apply List.in_seq in Hk.
    rewrite value_candidate by lia. split; [lia|].
    now rewrite is_prime_accepts, Hacc by apply wf_candidate.
  - intros [Hr Hacc]. split.
    + exists (Z.to_nat (value j - 2)). split; [|apply List.in_seq; lia].
      unfold candidate. rewrite Z2Nat.id by lia.
      replace (2 + (value j - 2)) with (value j) by lia. now apply of_Z_value.
    + rewrite is_prime_accepts in Hacc by assumption. now injection Hacc.
Qed.

Lemma all_primes_loop_spec timeout elapsed n primes :
  wf n -> value n < MODULUS - 1 ->
  forall fuel k,
    (k <= Z.to_nat (value n - 1))%nat -> (Z.to_nat (value n - 1) - k < fuel)%nat ->
    exists m,
      (k <= m <= Z.to_nat (value n - 1))%nat /\
      all_primes_loop fuel timeout elapsed k n (candidate k) (primes ++ accepted_below k)
      = Ok (primes ++ accepted_below m) /\
      (timeout <= 0 -> m = Z.to_nat (value n - 1)) /\
      ((m < Z.to_nat (value n - 1))%nat ->
       exists k', m = S k' /\ 0 < timeout <= elapsed k').
Proof.
  intros Hn Hb. pose proof (wf_value_bound n Hn) as Hnb. pose proof MODULUS_large as HM.
  induction fuel as [|fuel IH]; intros k Hk Hf; [lia|].
  cbn [all_primes_loop].
  rewrite le_correct, value_candidate by (assumption || apply wf_candidate || lia).
  destruct (Z.leb_spec (2 + Z.of_nat k) (value n)) as [Hle|Hgt].
  - rewrite is_prime_accepts by apply wf_candidate. cbn [bind].
    assert ((if accepts (candidate k) then (primes ++ accepted_below k) ++ [candidate k]
             else primes ++ accepted_below k) = primes ++ accepted_below (S k)) as ->.
    { rewrite accepted_below_S. destruct (accepts (candidate k)).
      - now rewrite <- app_assoc.
      - now rewrite app_nil_r. }
    unfold timed_out. destruct (Z.gtb_spec timeout 0) as [Ht|Ht]; cbn [andb].
    + destruct (Z.geb_spec (elapsed k) timeout) as [He|He].
      * exists (S k). split; [lia|]. split; [reflexivity|]. split; [lia|].
        intros _. exists k. split; [reflexivity | lia].
      * rewrite candidate_succ by lia.
        destruct (IH (S k)) as (m & Hm & E & H0 & Hlt); [lia | lia|].
        exists m. split; [lia|]. now split.
    + rewrite candidate_succ by lia.
      destruct (IH (S k)) as (m & Hm & E & H0 & Hlt); [lia | lia|].
      exists m. split; [lia|]. now split.
  - exists k. split; [lia|]. split; [reflexivity|]. split; [lia | lia].
Qed.

(** X22: for [n] below [2^4096 - 1], [compute_all_primes_up_to] ends and
    appends to [primes], in increasing order, the values that [is_prime]
    accepts among the first [m] of 2, 3, ..., n.  Without a time limit [m]
    is all of them; a smaller [m] means that the limit was reached right
    after candidate number [m]. *)
Theorem compute_all_primes_up_to_result fuel timeout elapsed n primes :
  wf n -> value n < 2 ^ 4096 - 1 -> value n < Z.of_nat fuel ->
  exists m,
    (m <= Z.to_nat (value n - 1))%nat /\
    compute_all_primes_up_to fuel timeout elapsed n primes
    = Ok (primes ++ accepted_below m) /\
    (forall j, wf j ->
       In j (accepted_below m) <->
       2 <= value j < 2 + Z.of_nat m /\ is_prime j = Ok true) /\
    (timeout <= 0 -> m = Z.to_nat (value n - 1)) /\
    ((m < Z.to_nat (value n - 1))%nat -> exists k, m = S k /\ 0 < timeout <= elapsed k).
Proof.
  change (2 ^ 4096) with MODULUS. intros Hn Hb Hf.
  pose proof (wf_value_bound n Hn) as Hnb.
  destruct (all_primes_loop_spec timeout elapsed n primes Hn Hb fuel 0%nat)
    as (m & Hm & E & H0 & Hlt); [lia | lia|].
  exists m. split; [lia|]. split.
  { unfold compute_all_primes_up_to. rewrite <- candidate_0.
    change (accepted_below 0) with (@nil (list Z)) in E. now rewrite app_nil_r in E. }
  split; [|now split].
  intros j Hj. apply accepted_below_In; [lia | exact Hj].
Qed.

Lemma compute_all_primes_up_to_result_witness :
  wf (of_u64 20) /\ value (of_u64 20) < 2 ^ 4096 - 1 /\ value (of_u64 20) < Z.of_nat 21 /\
  exists m, (m <= Z.to_nat (value (of_u64 20) - 1))%nat /\
            compute_all_primes_up_to 21 0 (fun _ => 0) (of_u64 20) []
            = Ok ([] ++ accepted_below m).
Proof.
  assert (value (of_u64 20) < 2 ^ 4096 - 1) as Hb by (vm_compute; reflexivity).
  assert (value (of_u64 20) < Z.of_nat 21) as Hf by (vm_compute; reflexivity).
  split; [apply wf_of_u64|]. split; [exact Hb|]. split; [exact Hf|].
  destruct (compute_all_primes_up_to_result 21 0 (fun _ => 0) (of_u64 20) []
              (wf_of_u64 20) Hb Hf) as (m & Hm & E & _).
  exists m. split; [exact Hm | exact E].
Defined.

Lemma all_primes_loop_never timeout elapsed n :
  wf n -> value n = MODULUS - 1 -> timeout <= 0 ->
  forall fuel k i primes,
    wf i -> all_primes_loop fuel timeout elapsed k n i primes = OutOfFuel.
Proof.
  intros Hn Hv Ht. induction fuel as [|fuel IH]; intros k i primes Hi; [reflexivity|].
  cbn [all_primes_loop]. pose proof (wf_value_bound i Hi) as Hb.
  rewrite le_correct by assumption.
  destruct (Z.leb_spec (value i) (value n)) as [_|]; [|lia].
  rewrite is_prime_accepts by assumption. cbn [bind].
  unfold timed_out. destruct (Z.gtb_spec timeout 0) as [|_]; [lia|]. cbn [andb].
  apply IH, succ_correct, Hi.
Qed.

(** X23: for [n = 2^4096 - 1] and without a time limit the loop of
    [compute_all_primes_up_to] has no end: [i <= n] holds for every [i], and
    [i += 1] wraps around to 0 after [n]. *)
Theorem compute_all_primes_up_to_max_never_ends fuel timeout elapsed n primes :
  wf n -> value n = 2 ^ 4096 - 1 -> timeout <= 0 ->
  compute_all_primes_up_to fuel timeout elapsed n primes = OutOfFuel.
Proof.
  change (2 ^ 4096) with MODULUS. intros Hn Hv Ht.
  apply all_primes_loop_never; [assumption | assumption | assumption | apply wf_of_u64].
Qed.

Lemma compute_all_primes_up_to_max_never_ends_witness :
  wf all_ones /\ value all_ones = 2 ^ 4096 - 1 /\ 0 <= 0 /\
  compute_all_primes_up_to 1000 0 (fun _ => 0) all_ones [] = OutOfFuel.
Proof.
  assert (value all_ones = 2 ^ 4096 - 1) as Hv by (vm_compute; reflexivity).
  split; [apply wf_all_ones|]. split; [exact Hv|]. split; [apply Z.le_refl|].
  exact (compute_all_primes_up_to_max_never_ends 1000 0 (fun _ => 0) all_ones []
           wf_all_ones Hv (Z.le_refl 0)).
Defined.

(** ** compute_nth_prime *)

Lemma count_succ c : add (of_Z c) (of_u64 1) = of_Z (c + 1).
Proof.
  destruct (succ_correct (of_Z c) (wf_of_Z c)) as [Hwf Hv].
  apply wf_value_inj; [exact Hwf | apply wf_of_Z|].
  rewrite Hv, !value_of_Z. pose proof MODULUS_pos. now rewrite Zplus_mod_idemp_l.
Qed.

Lemma nth_prime_loop_spec timeout elapsed n K :
  wf n -> 2 + Z.of_nat K < MODULUS -> accepts (candidate K) = true ->
  Z.of_nat (length (accepted_below (S K))) = value n ->
  forall fuel k,
    (k <= K)%nat -> (K - k < fuel)%nat ->
    nth_prime_loop fuel timeout elapsed k n
      (of_Z (Z.of_nat (length (accepted_below k)))) (candidate k)
    = Ok (if existsb (timed_out timeout elapsed) (seq k (K - k))
          then of_u64 0 else candidate K).
Proof.
  intros Hn HK Hacc Hcount.
  induction fuel as [|fuel IH]; intros k Hk Hf; [lia|].
  cbn [nth_prime_loop]. rewrite is_prime_accepts by apply wf_candidate. cbn [bind].
  assert ((if accepts (candidate k)
           then add (of_Z (Z.of_nat (length (accepted_below k)))) (of_u64 1)
           else of_Z (Z.of_nat (length (accepted_below k))))
          = of_Z (Z.of_nat (length (accepted_below (S k))))) as ->.
  { rewrite accepted_below_S, length_app. destruct (accepts (candidate k)); cbn [length].
    - rewrite count_succ. f_equal. lia.
    - f_equal. lia. }
  rewrite eqb_value, value_of_Z by (apply wf_of_Z || assumption).
  pose proof (accepted_below_length (S k)) as Hlen.
  rewrite Z.mod_small by lia.
  destruct (Nat.eq_dec k K) as [->|Hne].
  - rewrite Hacc, Hcount, Z.eqb_refl. cbn [andb].
    now rewrite Nat.sub_diag.
  - assert (accepts (candidate k) &&
            (Z.of_nat (length (accepted_below (S k))) =? value n) = false) as ->.
    { destruct (accepts (candidate k)) eqn:Hk'; [|reflexivity]. cbn [andb].
      apply Z.eqb_neq. pose proof (accepted_below_mono (S k) K ltac:(lia)) as Hmono.
      rewrite accepted_below_S, length_app, Hacc in Hcount. cbn [length] in Hcount. lia. }
    replace (K - k)%nat with (S (K - S k)) by lia. cbn [seq existsb].
    destruct (timed_out timeout elapsed k); cbn [orb]; [reflexivity|].
    rewrite candidate_succ by lia. apply IH; lia.
Qed.

Lemma length_accepted_below m :
  2 + Z.of_nat m <= MODULUS ->
  length (accepted_below m)
  = length (List.filter (fun z => match isPrime_Z z 5 with Ok true => true | _ => false end)
              (map (fun k => 2 + Z.of_nat k) (seq 0 m))).
Proof.
  induction m as [|m IH]; intros Hm; [reflexivity|].
  rewrite accepted_below_S, seq_S, List.map_app, List.filter_app, !length_app, IH by lia.
  f_equal. cbn [Nat.add map List.filter]. unfold accepts.
  rewrite is_prime_value, value_candidate by (apply wf_candidate || lia).
  now destruct (isPrime_Z (2 + Z.of_nat m) 5) as [[|]| | |].
Qed.

(** X24: when the [n]-th of the values 2, 3, 4, ... that [is_prime] accepts
    is the one at position [K], [compute_nth_prime] returns it after
    [K + 1] turns of its loop, or returns 0 when a positive time limit is
    reached in an earlier turn. *)
Theorem compute_nth_prime_result fuel timeout elapsed n K :
  wf n -> 2 + Z.of_nat K < 2 ^ 4096 -> is_prime (candidate K) = Ok true ->
  Z.of_nat (length (accepted_below (S K))) = value n -> (K < fuel)%nat ->
  value (candidate K) = 2 + Z.of_nat K /\
  compute_nth_prime fuel timeout elapsed n
  = Ok (if existsb (timed_out timeout elapsed) (seq 0 K) then of_u64 0 else candidate K).
Proof.
  change (2 ^ 4096) with MODULUS. intros Hn HK Hacc Hcount Hf.
  split; [apply value_candidate; lia|].
  unfold compute_nth_prime.
  rewrite is_prime_accepts in Hacc by apply wf_candidate. injection Hacc as Hacc.
  pose proof (nth_prime_loop_spec timeout elapsed n K Hn HK Hacc Hcount fuel 0%nat
                ltac:(lia) ltac:(lia)) as E.
  rewrite Nat.sub_0_r, candidate_0 in E.
  change (of_Z (Z.of_nat (length (accepted_below 0)))) with (of_Z 0) in E.
  rewrite of_u64_of_Z in E by (split; [discriminate | reflexivity]). exact E.
Qed.

Lemma compute_nth_prime_result_witness :
  wf (of_u64 3) /\ 2 + Z.of_nat 11 < 2 ^ 4096 /\ is_prime (candidate 11) = Ok true /\
  Z.of_nat (length (accepted_below 12)) = value (of_u64 3) /\ (11 < 12)%nat /\
  value (candidate 11) = 13 /\
  compute_nth_prime 12 0 (fun _ => 0) (of_u64 3) = Ok (candidate 11).
Proof.
  assert (2 + Z.of_nat 11 < 2 ^ 4096) as HK by (vm_compute; reflexivity).
  assert (is_prime (candidate 11) = Ok true) as Hacc.
  { rewrite is_prime_value by apply wf_candidate. vm_compute. reflexivity. }
  assert (Z.of_nat (length (accepted_below 12)) = value (of_u64 3)) as Hcount.
  { rewrite length_accepted_below by (vm_compute; discriminate). vm_compute. reflexivity. }
  assert (11 < 12)%nat as Hf by (apply Nat.lt_succ_diag_r).
  split; [apply wf_of_u64|]. split; [exact HK|]. split; [exact Hacc|].
  split; [exact Hcount|]. split; [exact Hf|].
  exact (compute_nth_prime_result 12 0 (fun _ => 0) (of_u64 3) 11
           (wf_of_u64 3) HK Hacc Hcount Hf).
Defined.

Lemma nth_prime_loop_zero timeout elapsed n :
  wf n -> value n = 0 -> timeout <= 0 ->
  forall fuel k count cand,
    wf count -> wf cand -> value count <= Z.of_nat k ->
    Z.of_nat k + Z.of_nat fuel < MODULUS ->
    nth_prime_loop fuel timeout elapsed k n count cand = OutOfFuel.
Proof.
  intros Hn Hv Ht. induction fuel as [|fuel IH]; intros k count cand Hc Hd Hle Hb;
    [reflexivity|].
  cbn [nth_prime_loop]. rewrite is_prime_accepts by assumption. cbn [bind].
  pose proof (wf_value_bound count Hc) as Hcb.
  destruct (succ_correct count Hc) as [Hwf Hval]. rewrite Z.mod_small in Hval by lia.
  assert (accepts cand &&
          eqb (if accepts cand then add count (of_u64 1) else count) n = false) as ->.
  { destruct (accepts cand); [|reflexivity]. cbn [andb].
    rewrite eqb_value by assumption. apply Z.eqb_neq. lia. }
  unfold timed_out. destruct (Z.gtb_spec timeout 0) as [|_]; [lia|]. cbn [andb].
  apply IH; [now destruct (accepts cand) | apply succ_correct, Hd | | lia].
  destruct (accepts cand); lia.
Qed.

(** X25: [compute_nth_prime(0)] without a time limit does not return: the
    count is compared with [n] only after it was raised, so it is never 0
    when compared, not in any of the first [2^4096 - 1] turns of the
    loop. *)
Theorem compute_nth_prime_zero_never_returns fuel timeout elapsed n :
  wf n -> value n = 0 -> timeout <= 0 -> Z.of_nat fuel < 2 ^ 4096 ->
  compute_nth_prime fuel timeout elapsed n = OutOfFuel.
Proof.
  change (2 ^ 4096) with MODULUS. intros Hn Hv Ht Hf.
  apply nth_prime_loop_zero; [exact Hn | exact Hv | exact Ht | apply wf_of_u64
                             | apply wf_of_u64 | now rewrite value_of_u64 | exact Hf].
Qed.

Lemma compute_nth_prime_zero_never_returns_witness :
  wf (of_u64 0) /\ value (of_u64 0) = 0 /\ 0 <= 0 /\ Z.of_nat 1000 < 2 ^ 4096 /\
  compute_nth_prime 1000 0 (fun _ => 0) (of_u64 0) = OutOfFuel.
Proof.
  assert (value (of_u64 0) = 0) as Hv by (vm_compute; reflexivity).
  assert (Z.of_nat 1000 < 2 ^ 4096) as Hf by (vm_compute; reflexivity).
  split; [apply wf_of_u64|]. split; [exact Hv|]. split; [apply Z.le_refl|].
  split; [exact Hf|].
  exact (compute_nth_prime_zero_never_returns 1000 0 (fun _ => 0) (of_u64 0)
           (wf_of_u64 0) Hv (Z.le_refl 0) Hf).
Defined.
